(** * mkdocs/build.py: URL resolution, navigation tree, table of contents

    A shallow embedding of the site-build module.  Python strings are
    [string]s whose characters are the code points below 256; lists are
    [list]s; [NavItem] objects live in a store because the code mutates
    them through aliases; a raised exception is the [Raise] outcome of
    the [result] type. *)

From Stdlib Require Import String Ascii List ZArith Lia Bool Arith.
Import ListNotations.
Open Scope string_scope.
Open Scope bool_scope.
Open Scope nat_scope.

(** ** Exceptions and outcomes *)

Inductive exn : Set :=
| ValueError   (* list.index(x): x not in list *)
| IndexError.  (* pop from empty list, list index out of range *)

Inductive result (A : Type) : Type :=
| Ok (a : A)
| Raise (e : exn).
Arguments Ok {A} a.
Arguments Raise {A} e.

Definition bind {A B : Type} (r : result A) (k : A -> result B) : result B :=
  match r with
  | Ok a => k a
  | Raise e => Raise e
  end.

Notation "x <- r ;; k" := (bind r (fun x => k))
  (at level 61, r at next level, right associativity).

(** ** Python built-ins used by the module *)

Module Py.

Definition dquote : ascii := "034"%char.
Definition LF : ascii := "010"%char.
Definition CR : ascii := "013"%char.

(** [c in chars] *)
Fixpoint contains (chars : string) (c : ascii) : bool :=
  match chars with
  | EmptyString => false
  | String x chars' => Ascii.eqb c x || contains chars' c
  end.

(** [s.startswith(p)] *)
Definition startswith (s p : string) : bool := String.prefix p s.

(** [s.endswith(suf)]: some tail of [s] is [suf]. *)
Fixpoint endswith (s suf : string) : bool :=
  String.eqb s suf ||
  match s with
  | EmptyString => false
  | String _ s' => endswith s' suf
  end.

Fixpoint lstrip_by (p : ascii -> bool) (s : string) : string :=
  match s with
  | EmptyString => EmptyString
  | String c s' => if p c then lstrip_by p s' else s
  end.

Fixpoint rstrip_by (p : ascii -> bool) (s : string) : string :=
  match s with
  | EmptyString => EmptyString
  | String c s' =>
      match rstrip_by p s' with
      | EmptyString => if p c then EmptyString else String c EmptyString
      | r => String c r
      end
  end.

(** [s.rstrip(chars)]: drops every trailing character that occurs in
    [chars] (a set of characters, not a suffix). *)
Definition rstrip (s chars : string) : string := rstrip_by (contains chars) s.

(** [str.isspace] on one character: tab, LF, VT, FF, CR, the four
    separators 28-31, space, NEL and NBSP. *)
Definition isspace (c : ascii) : bool :=
  let n := nat_of_ascii c in
  ((9 <=? n) && (n <=? 13)) || ((28 <=? n) && (n <=? 32))
  || (n =? 133) || (n =? 160).

(** [s.strip()] *)
Definition strip (s : string) : string := lstrip_by isspace (rstrip_by isspace s).

(** [s.partition(sep)] for a one-character separator: the text before
    the first [sep], the separator found (empty when there is none) and
    the text after it. *)
Fixpoint partition (s : string) (sep : ascii) : string * string * string :=
  match s with
  | EmptyString => (EmptyString, EmptyString, EmptyString)
  | String c s' =>
      if Ascii.eqb c sep then (EmptyString, String sep EmptyString, s')
      else let '(a, f, b) := partition s' sep in (String c a, f, b)
  end.

(** [s.replace(old, new)] for one-character [old] and [new]. *)
Fixpoint replace (s : string) (old new : ascii) : string :=
  match s with
  | EmptyString => EmptyString
  | String c s' => String (if Ascii.eqb c old then new else c) (replace s' old new)
  end.

(** [s.split(sep)] for a one-character separator. *)
Fixpoint split (s : string) (sep : ascii) : list string :=
  match s with
  | EmptyString => [EmptyString]
  | String c s' =>
      if Ascii.eqb c sep then EmptyString :: split s' sep
      else match split s' sep with
           | [] => [String c EmptyString]
           | h :: t => String c h :: t
           end
  end.

Fixpoint rfind_from (i : Z) (s : string) (c : ascii) (found : Z) : Z :=
  match s with
  | EmptyString => found
  | String x s' => rfind_from (i + 1) s' c (if Ascii.eqb x c then i else found)
  end.

(** [s.rfind(c)]: the highest index of [c] in [s], or -1. *)
Definition rfind (s : string) (c : ascii) : Z := rfind_from 0 s c (-1).

(** [s[i:j]] and [s[i:]] for indices within [0, len(s)]. *)
Definition slice (s : string) (i j : Z) : string :=
  substring (Z.to_nat i) (Z.to_nat (j - i)) s.
Definition slice_from (s : string) (i : Z) : string :=
  substring (Z.to_nat i) (String.length s - Z.to_nat i) s.

Fixpoint all_chars (p : ascii -> bool) (s : string) : bool :=
  match s with
  | EmptyString => true
  | String c s' => p c && all_chars p s'
  end.

(** A line boundary of [str.splitlines]: LF, VT, FF, CR, FS, GS, RS,
    NEL; CR followed by LF is one boundary. *)
Definition is_linebreak (c : ascii) : bool :=
  let n := nat_of_ascii c in
  ((10 <=? n) && (n <=? 13)) || ((28 <=? n) && (n <=? 30)) || (n =? 133).

(** [s.splitlines()]: no empty last line after a final boundary. *)
Fixpoint splitlines (s : string) : list string :=
  match s with
  | EmptyString => []
  | String c s' =>
      if is_linebreak c then
        match s' with
        | String c' s'' =>
            if Ascii.eqb c CR && Ascii.eqb c' LF
            then EmptyString :: splitlines s''
            else EmptyString :: splitlines s'
        | EmptyString => [EmptyString]
        end
      else
        match splitlines s' with
        | [] => [String c EmptyString]
        | l :: ls => String c l :: ls
        end
  end.

(** [l[i:len(l)-j]] for [i], [j] >= 0 (used as [lines[2:-2]]). *)
Definition slice_list {A : Type} (l : list A) (i j : nat) : list A :=
  firstn (List.length l - j - i) (skipn i l).

(** [l.index(x)]: the first position of [x], ValueError when absent. *)
Fixpoint index (l : list string) (x : string) : result nat :=
  match l with
  | [] => Raise ValueError
  | y :: l' => if String.eqb y x then Ok 0 else i <- index l' x ;; Ok (S i)
  end.

(** [l[i]] for [i >= 0]: IndexError when out of range. *)
Definition getitem {A : Type} (l : list A) (i : nat) : result A :=
  match nth_error l i with
  | Some a => Ok a
  | None => Raise IndexError
  end.

(** [os.path.pathsep] (POSIX). *)
Definition pathsep : ascii := ":"%char.

(** [os.path.splitext] (posixpath, through genericpath._splitext with
    sep = '/', extsep = '.'): the extension starts at the last dot of
    the last path component, leading dots of that component excepted. *)
Definition splitext (p : string) : string * string :=
  let sepIndex := rfind p "/" in
  let dotIndex := rfind p "." in
  if (dotIndex >? sepIndex)%Z then
    (* skip all leading dots *)
    let filenameIndex := (sepIndex + 1)%Z in
    if all_chars (Ascii.eqb ".") (slice p filenameIndex dotIndex)
    then (p, EmptyString)
    else (slice p 0 dotIndex, slice_from p dotIndex)
  else (p, EmptyString).

End Py.

(** ** Data model *)

(** The build configuration (the [config] dict). *)
Record Config : Type := mkConfig {
  pages : list (string * string);   (* (path, title), in declared order *)
  docs_dir : string;
  build_dir : string;
  theme_dir : string;
  base_url : string;
  project_name : string;
  local_files : bool
}.

(** The helpers imported from [mkdocs.utils], whose source is not part of
    the module; the module is verified for every [get_html_path]. *)
Class Utils : Type := {
  get_html_path : string -> string
}.

(** ** URL resolver *)

Section UrlResolver.
Context {U : Utils}.

Definition path_to_url (path : string) (config : Config) : string :=
  if local_files config then
    let path := get_html_path path in
    let url := Py.replace path Py.pathsep "/" in
    base_url config ++ "/" ++ url
  else
    let path := fst (Py.splitext path) in
    let url := Py.replace path Py.pathsep "/" in
    let url := base_url config ++ "/" ++ url in
    if String.eqb url "index" || Py.endswith url "/index"
    then Py.rstrip url "index"
    else url ++ "/".

Definition path_to_previous_and_next_urls (path : string) (config : Config)
  : result (option string * option string) :=
  let paths := map fst (pages config) in
  idx <- Py.index paths path ;;
  prev <- (if idx =? 0 then Ok None
           else p <- Py.getitem paths (idx - 1) ;; Ok (Some (path_to_url p config))) ;;
  next <- (if List.length paths <=? idx + 1 then Ok None
           else p <- Py.getitem paths (idx + 1) ;; Ok (Some (path_to_url p config))) ;;
  Ok (prev, next).

End UrlResolver.

(** Modelled from the spec: [get_html_path] (mkdocs.utils) is not among
    the sources.  The spec describes it as mapping a source-relative
    document path to its on-disk output path, "mapping to an
    .html-suffixed or index.html-for-directory form".  It only serves to
    build closed instances; every theorem holds for all [Utils]. *)
Definition spec_get_html_path (path : string) : string :=
  let stem := fst (Py.splitext path) in
  if String.eqb stem "index" || Py.endswith stem "/index"
  then stem ++ ".html"
  else stem ++ "/index.html".

Definition spec_utils : Utils := {| get_html_path := spec_get_html_path |}.

(** ** NavItem objects and the store that holds them *)

(** A reference to a [NavItem] object; [addr_eqb] is object identity. *)
Definition addr : Type := nat.
Definition addr_eqb (a b : addr) : bool := Nat.eqb a b.

Module NavItem.
(** The attributes of one object; [children] lists references. *)
Record t : Type := mk {
  title : string;
  url : option string;        (* None: a group header without a page *)
  children : list addr;
  active : bool
}.

Definition set_active (b : bool) (o : t) : t :=
  mk (title o) (url o) (children o) b.
Definition append_child (c : addr) (o : t) : t :=
  mk (title o) (url o) (children o ++ [c]) (active o).
End NavItem.

(** The store: every address below [next] holds an allocated object. *)
Record Heap : Type := mkHeap {
  next : addr;
  cell : addr -> NavItem.t
}.

Definition empty_heap : Heap :=
  mkHeap 0 (fun _ => NavItem.mk EmptyString None [] false).

Definition update (h : Heap) (a : addr) (f : NavItem.t -> NavItem.t) : Heap :=
  mkHeap (next h) (fun x => if addr_eqb x a then f (cell h a) else cell h x).

(** Allocation: the new object gets the fresh address [next h]. *)
Definition alloc (o : NavItem.t) (h : Heap) : addr * Heap :=
  (next h, mkHeap (S (next h)) (fun x => if addr_eqb x (next h) then o else cell h x)).

(** [NavItem(title, url, children)]: [self.children = children or []],
    [self.active = False]. *)
Definition new_NavItem (title : string) (url : option string)
    (children : option (list addr)) (h : Heap) : addr * Heap :=
  let children := match children with
                  | Some (c :: cs) => c :: cs
                  | _ => []
                  end in
  alloc (NavItem.mk title url children false) h.

(** [l[-1]] of a non-empty list, [None] for the empty one. *)
Definition last_item {A : Type} (l : list A) : option A :=
  match rev l with
  | [] => None
  | x :: _ => Some x
  end.

(** [item_url == url] where [item_url] may be [None]. *)
Definition url_eq (item_url : option string) (url : string) : bool :=
  match item_url with
  | Some u => String.eqb u url
  | None => false
  end.

Definition is_empty (s : string) : bool :=
  match s with
  | EmptyString => true
  | String _ _ => false
  end.

(** ** Navigation builder and active-path marker *)

Section Navigation.
Context {U : Utils}.

(** The body of the loop of [generate_nav]; the state is [ret] and the
    store. *)
Definition generate_nav_step (config : Config) (st : list addr * Heap)
    (page : string * string) : list addr * Heap :=
  let '(ret, h) := st in
  let '(path, title) := page in
  let url := path_to_url path config in
  let '(title, sep, child_title) := Py.partition title "/" in
  let title := Py.strip title in
  let child_title := Py.strip child_title in
  let new_group :=
    (* New second level nav item *)
    let '(nav, h) := new_NavItem child_title (Some url) (Some []) h in
    let '(parent, h) := new_NavItem title None (Some [nav]) h in
    ((ret ++ [parent])%list, h) in
  if is_empty child_title then
    (* New top level nav item *)
    let '(nav, h) := new_NavItem title (Some url) (Some []) h in
    ((ret ++ [nav])%list, h)
  else
    match last_item ret with
    | None => new_group
    | Some last =>
        if negb (String.eqb (NavItem.title (cell h last)) title) then new_group
        else
          (* Additional second level nav item *)
          let '(nav, h) := new_NavItem child_title (Some url) (Some []) h in
          (ret, update h last (NavItem.append_child nav))
    end.

Definition generate_nav (config : Config) (h : Heap) : list addr * Heap :=
  fold_left (generate_nav_step config) (pages config) ([], h).

(** The inner loop of [set_nav_active] over the children of [nav_item]. *)
Definition set_nav_active_child (url : string) (nav_item : addr)
    (st : option addr * Heap) (child : addr) : option addr * Heap :=
  let '(active, h) := st in
  if url_eq (NavItem.url (cell h child)) url then
    let h := update h child (NavItem.set_active true) in
    let h := update h nav_item (NavItem.set_active true) in
    (Some child, h)
  else
    (active, update h child (NavItem.set_active false)).

(** The body of the outer loop of [set_nav_active]. *)
Definition set_nav_active_item (url : string) (st : option addr * Heap)
    (nav_item : addr) : option addr * Heap :=
  let '(active, h) := st in
  let st :=
    if url_eq (NavItem.url (cell h nav_item)) url
    then (Some nav_item, update h nav_item (NavItem.set_active true))
    else (active, update h nav_item (NavItem.set_active false)) in
  fold_left (set_nav_active_child url nav_item)
            (NavItem.children (cell (snd st) nav_item)) st.

(** Returns the reference held by [active] and the store after the
    call. *)
Definition set_nav_active (path : string) (config : Config)
    (nav : list addr) (h : Heap) : option addr * Heap :=
  let url := path_to_url path config in
  fold_left (set_nav_active_item url) nav (None, h).

End Navigation.

(** ** Regular expressions

    The fragment of Python's [re] the module uses: a pattern is a
    sequence of single characters, one-character classes, greedy
    starred classes and capturing-group parentheses.  Matching is by
    backtracking, the longest repetition first, as in [re]. *)

Module Re.

Inductive cls : Set :=
| Chr (c : ascii)       (* the character c, also written [c] *)
| NotChr (c : ascii).   (* [^c] *)

Inductive item : Set :=
| One (k : cls)
| Many (k : cls)        (* k*, greedy *)
| Open                  (* ( *)
| Close.                (* ) *)

Definition pattern : Set := list item.

Definition accepts (k : cls) (c : ascii) : bool :=
  match k with
  | Chr x => Ascii.eqb c x
  | NotChr x => negb (Ascii.eqb c x)
  end.

(** The pattern matching the text [s] literally. *)
Fixpoint lit (s : string) : pattern :=
  match s with
  | EmptyString => []
  | String c s' => One (Chr c) :: lit s'
  end.

(** Matches [p] at the start of [s]; [off] counts the characters the
    match has consumed so far.  Returns the offsets at which the group
    parentheses were crossed, in pattern order, and the offset of the
    end of the match. *)
Fixpoint match_here (p : pattern) (s : string) (off : nat)
  : option (list nat * nat) :=
  match p with
  | [] => Some ([], off)
  | One k :: p' =>
      match s with
      | String c s' => if accepts k c then match_here p' s' (S off) else None
      | EmptyString => None
      end
  | Many k :: p' =>
      (fix many (s : string) (off : nat) : option (list nat * nat) :=
         match s with
         | String c s' =>
             if accepts k c then
               match many s' (S off) with
               | Some r => Some r
               | None => match_here p' s off
               end
             else match_here p' s off
         | EmptyString => match_here p' s off
         end) s off
  | Open :: p' | Close :: p' =>
      match match_here p' s off with
      | Some (marks, e) => Some (off :: marks, e)
      | None => None
      end
  end.

(** A match object: the texts of its groups ([groups()]) and the
    number of characters it spans. *)
Record Match : Set := mkMatch {
  groups : list string;
  span : nat
}.

Fixpoint groups_of (s : string) (marks : list nat) : list string :=
  match marks with
  | o :: c :: marks' => substring o (c - o) s :: groups_of s marks'
  | _ => []
  end.

(** [pattern.match(s)] *)
Definition match_at (p : pattern) (s : string) : option Match :=
  match match_here p s 0 with
  | Some (marks, e) => Some (mkMatch (groups_of s marks) e)
  | None => None
  end.

(** [pattern.search(s)]: the match at the leftmost position that has
    one. *)
Fixpoint search (p : pattern) (s : string) : option Match :=
  match match_at p s with
  | Some m => Some m
  | None =>
      match s with
      | String _ s' => search p s'
      | EmptyString => None
      end
  end.

(** [re.sub(p, repl, s)] with a function [repl]: scans [s] from the
    left; [skip] counts the characters of the current match still to
    be dropped.  An exception raised by [repl] propagates.  (After an
    empty match the next character is copied; the patterns of this
    module match no empty text.) *)
Fixpoint sub_from (p : pattern) (repl : Match -> result string)
    (s : string) (skip : nat) : result string :=
  match skip with
  | S k =>
      match s with
      | String _ s' => sub_from p repl s' k
      | EmptyString => Ok EmptyString
      end
  | 0 =>
      match match_at p s with
      | Some m =>
          r <- repl m ;;
          rest <- match s with
                  | String c s' =>
                      if span m =? 0
                      then t <- sub_from p repl s' 0 ;; Ok (String c t)
                      else sub_from p repl s' (span m - 1)
                  | EmptyString => Ok EmptyString
                  end ;;
          Ok (r ++ rest)
      | None =>
          match s with
          | String c s' => t <- sub_from p repl s' 0 ;; Ok (String c t)
          | EmptyString => Ok EmptyString
          end
      end
  end.

Definition sub (p : pattern) (repl : Match -> result string) (s : string)
  : result string :=
  sub_from p repl s 0.

End Re.

(** ** Table-of-contents extractor *)

(** [TOC_LINK_REGEX].  Writing Q for the double-quote character, the
    pattern reads: <a href=Q, group 1 = a run of characters other than Q,
    Q>, group 2 = a run of characters other than <, then </a>. *)
Definition TOC_LINK_REGEX : Re.pattern :=
  (Re.lit "<a href="
   ++ [Re.One (Re.Chr Py.dquote); Re.Open; Re.Many (Re.NotChr Py.dquote);
       Re.Close; Re.One (Re.Chr Py.dquote); Re.One (Re.Chr ">");
       Re.Open; Re.Many (Re.NotChr "<"); Re.Close]
   ++ Re.lit "</a>")%list.

Fixpoint foldM {S A : Type} (f : S -> A -> result S) (l : list A) (s : S)
  : result S :=
  match l with
  | [] => Ok s
  | a :: l' => s' <- f s a ;; foldM f l' s'
  end.

(** The body of the loop of [generate_toc]; the state is [parents],
    [ret] and the store. *)
Definition generate_toc_line (st : list addr * list addr * Heap)
    (line : string) : result (list addr * list addr * Heap) :=
  let '(parents, ret, h) := st in
  match Re.search TOC_LINK_REGEX line with
  | Some m =>
      match Re.groups m with
      | [href; title] =>
          let '(nav, h) := new_NavItem title (Some href) None h in
          (* Add the item to its parent if required.  If it is a topmost
             item then instead append it to our return value. *)
          let '(ret, h) :=
            match last_item parents with
            | Some parent => (ret, update h parent (NavItem.append_child nav))
            | None => ((ret ++ [nav])%list, h)
            end in
          (* If this item has children, store it as the current parent *)
          let parents :=
            if Py.endswith line "<ul>" then (parents ++ [nav])%list
            else parents in
          Ok (parents, ret, h)
      | _ => Raise ValueError
      end
  | None =>
      if Py.startswith line "</ul>" then
        match last_item parents with
        | Some _ => Ok (removelast parents, ret, h)
        | None => Raise IndexError   (* pop from empty list *)
        end
      else Ok st
  end.

Definition generate_toc (toc_html : string) (h : Heap)
  : result (list addr * Heap) :=
  let lines := Py.slice_list (Py.splitlines toc_html) 2 2 in
  st <- foldM generate_toc_line lines ([], [], h) ;;
  let '(parents, ret, h) := st in
  (* For the table of contents, always mark the first element as active *)
  match ret with
  | first :: _ => Ok (ret, update h first (NavItem.set_active true))
  | [] => Ok (ret, h)
  end.

(** ** Link rewriting of the page renderer *)

(** The pattern of the [re.sub] call of [build_pages].  Writing Q for
    the double-quote character, it reads: a href=Q, group 1 = a run of
    characters other than Q followed by .md, then Q. *)
Definition MD_LINK_REGEX : Re.pattern :=
  (Re.lit "a href="
   ++ [Re.One (Re.Chr Py.dquote); Re.Open; Re.Many (Re.NotChr Py.dquote)]
   ++ Re.lit ".md"
   ++ [Re.Close; Re.One (Re.Chr Py.dquote)])%list.

(** The text a href=QtargetQ, the target between double quotes. *)
Definition a_href (target : string) : string :=
  "a href=" ++ String Py.dquote (target ++ String Py.dquote EmptyString).

Section PageRenderer.
Context {U : Utils}.

(** [PathToURL(config)(match)] *)
Definition PathToURL (config : Config) (m : Re.Match) : result string :=
  path <- Py.getitem (Re.groups m) 0 ;;
  Ok (a_href (path_to_url path config)).

(** [build_pages]: replace links ending in .md with links to the
    generated HTML,
    [content = re.sub(MD_LINK_REGEX, PathToURL(config), content)]. *)
Definition replace_md_links (config : Config) (content : string)
  : result string :=
  Re.sub MD_LINK_REGEX (PathToURL config) content.

End PageRenderer.

(** ** Definitions used in the statements *)

(** The last character of a text decides whether it can end another. *)
Fixpoint last_char (s : string) : option ascii :=
  match s with
  | EmptyString => None
  | String c EmptyString => Some c
  | String _ s' => last_char s'
  end.


(** A configuration for the closed instances: clean URLs, four pages,
    two of them grouped. *)
Definition example_config : Config :=
  mkConfig [("index.md", "Home"); ("guide/install.md", "Guide/Install");
            ("guide/run.md", "Guide/Run"); ("about.md", "About")]
           "docs" "site" "theme" "http://example.com" "Example" false.

(** The same site served under a base URL that ends in an index
    directory. *)
Definition index_base_config : Config :=
  mkConfig [("index.md", "Home")]
           "docs" "site" "theme" "http://example.com/index" "Example" false.

(** The page list of the navigation example: the three Guide pages are
    consecutive. *)
Definition guide_config : Config :=
  mkConfig [("a.md", "Intro"); ("b.md", "Guide/Setup"); ("c.md", "Guide/Run");
            ("d.md", "Guide/Setup")]
           "docs" "site" "theme" "http://example.com" "Example" false.

(** The same pages with Intro between the Guide pages. *)
Definition split_guide_config : Config :=
  mkConfig [("b.md", "Guide/Setup"); ("c.md", "Guide/Run"); ("a.md", "Intro");
            ("d.md", "Guide/Setup")]
           "docs" "site" "theme" "http://example.com" "Example" false.


(** The text whose lines are [lines], each ended by a line feed. *)
Fixpoint unlines (lines : list string) : string :=
  match lines with
  | [] => EmptyString
  | l :: ls => l ++ String Py.LF (unlines ls)
  end.

(** A text without line boundary: one line of a fragment. *)
Definition one_line (w : string) : bool :=
  Py.all_chars (fun c => negb (Py.is_linebreak c)) w.

(** The anchor <a href=QhrefQ>title</a> of a table-of-contents entry,
    Q being the double-quote character. *)
Definition toc_anchor (href title : string) : string :=
  "<a href=" ++ String Py.dquote (href ++ String Py.dquote (">" ++ title ++ "</a>")).

(** The two-level fragment of the table-of-contents example, without
    and with the line that closes the outer list. *)
Definition toc_fragment_open : list string :=
  ["<ul>";
   "<li>" ++ toc_anchor "#a" "A" ++ "<ul>";
   "<li>" ++ toc_anchor "#a-1" "A1" ++ "</li>";
   "</ul>";
   "</li>"].

Definition toc_fragment : list string := (toc_fragment_open ++ ["</ul>"])%list.

(** The lines the converter puts around the list of a table of
    contents: a blank line and the opening of the toc division before
    it, the closing of the division and a blank line after it. *)
Definition toc_division_open : list string :=
  [""; "<div class=" ++ String Py.dquote ("toc" ++ String Py.dquote ">")].

Definition toc_division_close : list string := ["</div>"; ""].

(** The opening of a link, a href=Q with Q the double-quote character. *)
Definition a_href_open : string := "a href=" ++ String Py.dquote EmptyString.

(** A link target the page renderer rewrites: it holds no double quote
    and ends in .md. *)
Definition md_target (target : string) : Prop :=
  Py.contains target Py.dquote = false /\ Py.endswith target ".md" = true.

(** [s] contains a link to a document source. *)
Definition has_md_link (s : string) : Prop :=
  exists pre target post, s = pre ++ a_href target ++ post /\ md_target target.

(** The end of the link pattern: .md, the end of the group, the closing
    quote. *)
Definition md_tail : Re.pattern :=
  (Re.lit ".md" ++ [Re.Close; Re.One (Re.Chr Py.dquote)])%list.

(** The items of a navigation tree in display order: every top-level
    item followed by its children. *)
Definition nav_nodes (h : Heap) (nav : list addr) : list addr :=
  flat_map (fun a => a :: NavItem.children (cell h a)) nav.

(** The second-level items of a navigation tree. *)
Definition nav_children (h : Heap) (nav : list addr) : list addr :=
  flat_map (fun a => NavItem.children (cell h a)) nav.

(** The item at [a] carries the URL [url]. *)
Definition matches (h : Heap) (url : string) (a : addr) : bool :=
  url_eq (NavItem.url (cell h a)) url.

Definition is_active (h : Heap) (a : addr) : bool := NavItem.active (cell h a).

(** The URLs of the items of [l] that have one, in order. *)
Definition urls_of (h : Heap) (l : list addr) : list string :=
  flat_map (fun a => match NavItem.url (cell h a) with
                     | Some u => [u]
                     | None => []
                     end) l.

(** Two stores hold the same objects up to their [active] flags. *)
Definition same_shape (h h' : Heap) : Prop :=
  next h' = next h
  /\ forall x, NavItem.title (cell h' x) = NavItem.title (cell h x)
               /\ NavItem.url (cell h' x) = NavItem.url (cell h x)
               /\ NavItem.children (cell h' x) = NavItem.children (cell h x).

(** A navigation tree as [generate_nav] builds it: its items are
    distinct allocated objects. *)
Definition nav_wf (h : Heap) (nav : list addr) : Prop :=
  NoDup (nav_nodes h nav) /\ forall x, In x (nav_nodes h nav) -> x < next h.

(** The store after the page renderer has called [set_nav_active] for
    the pages [paths], one after the other, on the same tree. *)
Definition after_calls {U : Utils} (config : Config) (nav : list addr)
    (paths : list string) (h : Heap) : Heap :=
  fold_left (fun h path => snd (set_nav_active path config nav h)) paths h.

(** The answer of [set_nav_active] when the scan of [l] follows the
    value [active]: the last item of [l] that carries the URL, if any. *)
Definition last_match (h : Heap) (u : string) (l : list addr)
    (active : option addr) : option addr :=
  match last_item (filter (matches h u) l) with
  | Some x => Some x
  | None => active
  end.

(** The tree of [guide_config], built from the empty store, and the
    store after the pages a.md and d.md have been rendered. *)
Definition guide_nav : list addr :=
  fst (generate_nav (U := spec_utils) guide_config empty_heap).

Definition guide_heap : Heap :=
  snd (generate_nav (U := spec_utils) guide_config empty_heap).

Definition guide_heap_visited : Heap :=
  after_calls (U := spec_utils) guide_config guide_nav ["a.md"; "d.md"] guide_heap.
(** ** Page renderer: code blocks and the table-of-contents marker *)

(** The replacement text of the second [re.sub] call of [build_pages]:
    <pre class=Qprettyprint wellQ>, Q being the double-quote character. *)
Definition PRE_CLASS : string :=
  "<pre class="
  ++ String Py.dquote ("prettyprint well" ++ String Py.dquote ">").

(** [build_pages]:
    [content = re.sub('<pre>', PRE_CLASS, content)].  The replacement
    text holds no backslash, so [re] inserts it as it is. *)
Definition replace_pre_tags (content : string) : result string :=
  Re.sub (Re.lit "<pre>") (fun _ => Ok PRE_CLASS) content.

(** The remainder of [s] after the prefix [p], if [s] starts with [p]. *)
Fixpoint after_prefix (p s : string) : option string :=
  match p with
  | EmptyString => Some s
  | String a p' =>
      match s with
      | String b s' => if Ascii.eqb a b then after_prefix p' s' else None
      | EmptyString => None
      end
  end.

(** [s.split(sep, 1)] for a non-empty [sep]: the texts before and after
    the first occurrence of [sep], or [s] alone. *)
Fixpoint split_once (s sep : string) : list string :=
  match after_prefix sep s with
  | Some rest => [EmptyString; rest]
  | None =>
      match s with
      | String c s' =>
          match split_once s' sep with
          | head :: tail => String c head :: tail
          | [] => []
          end
      | EmptyString => [EmptyString]
      end
  end.

Definition TOC_MARKER : string := "<!-- STARTTOC -->".

(** [build_pages]: strip out the generated table of contents,
    [(content, toc_html) = content.split('<!-- STARTTOC -->', 1)];
    unpacking a list of one element raises ValueError. *)
Definition split_toc (content : string) : result (string * string) :=
  match split_once content TOC_MARKER with
  | [content; toc_html] => Ok (content, toc_html)
  | _ => Raise ValueError
  end.

(** [sub in s] *)
Fixpoint occurs (sub s : string) : bool :=
  String.prefix sub s ||
  match s with
  | String _ s' => occurs sub s'
  | EmptyString => false
  end.

(** ** Theme and static files *)

Module OsPath.

(** [os.path.join(a, b)] (posixpath). *)
Definition join (a b : string) : string :=
  if Py.startswith b "/" then b
  else if is_empty a || Py.endswith a "/" then a ++ b
  else a ++ "/" ++ b.

End OsPath.

(** The functions of [os.path] that depend on the working directory or
    normalise a path; the copy functions are verified for every
    [relpath] and [normpath]. *)
Class Os : Type := {
  relpath : string -> string -> string;
  normpath : string -> string
}.

(** One triple [(source_dir, dirnames, filenames)] yielded by [os.walk]. *)
Definition walk_entry : Type := string * list string * list string.

Section StaticFiles.
Context {O : Os}.

(** [build_theme]: [walked] is what [os.walk(config['theme_dir'])]
    yields; [copy_file] (mkdocs.utils) is not run but recorded: the
    result lists the calls [copy_file(source_path, output_path)] in the
    order they are made. *)
Definition build_theme (config : Config) (walked : list walk_entry)
  : list (string * string) :=
  flat_map
    (fun '(source_dir, dirnames, filenames) =>
       let relative_path := relpath source_dir (theme_dir config) in
       let output_dir :=
         normpath (OsPath.join (build_dir config) relative_path) in
       flat_map
         (fun filename =>
            if negb (Py.endswith filename ".html") then
              let source_path := OsPath.join source_dir filename in
              let output_path := OsPath.join output_dir filename in
              [(source_path, output_path)]
            else [])
         filenames)
    walked.

(** [build_statics]: [walked] is what [os.walk(config['docs_dir'])]
    yields. *)
Definition build_statics (config : Config) (walked : list walk_entry)
  : list (string * string) :=
  flat_map
    (fun '(source_dir, dirnames, filenames) =>
       let relative_path := relpath source_dir (docs_dir config) in
       let output_dir :=
         normpath (OsPath.join (build_dir config) relative_path) in
       flat_map
         (fun filename =>
            if negb (Py.endswith filename ".md") then
              let source_path := OsPath.join source_dir filename in
              let output_path := OsPath.join output_dir filename in
              [(source_path, output_path)]
            else [])
         filenames)
    walked.

End StaticFiles.

(** ** Invariants of the builders and vocabulary of the statements *)

(** What [generate_nav] keeps true of the tree it builds from the store
    [hs]: besides [nav_wf], the items are objects allocated since [hs],
    the objects of [hs] are untouched, children are leaves with a url,
    an item without url has a child, and no item is active. *)
Definition nav_built (hs h : Heap) (nav : list addr) : Prop :=
  nav_wf h nav
  /\ next hs <= next h
  /\ (forall x, In x (nav_nodes h nav) -> next hs <= x)
  /\ (forall x, x < next hs -> cell h x = cell hs x)
  /\ (forall c, In c (nav_children h nav) ->
        NavItem.children (cell h c) = [] /\ NavItem.url (cell h c) <> None)
  /\ (forall a, In a nav -> NavItem.url (cell h a) = None ->
        NavItem.children (cell h a) <> [])
  /\ (forall x, In x (nav_nodes h nav) -> NavItem.active (cell h x) = false).

(** What the loop of [generate_toc] keeps true from the store [hs]: the
    stack and the result hold objects allocated since [hs], and the
    objects of [hs] are untouched. *)
Definition toc_state_fresh (hs : Heap) (st : list addr * list addr * Heap)
  : Prop :=
  let '(parents, ret, h) := st in
  next hs <= next h
  /\ (forall p, In p parents -> next hs <= p < next h)
  /\ (forall a, In a ret -> next hs <= a < next h)
  /\ (forall x, x < next hs -> cell h x = cell hs x).

(** The line of a table-of-contents entry without sub-entries. *)
Definition toc_entry_line (entry : string * string) : string :=
  "<li>" ++ toc_anchor (fst entry) (snd entry) ++ "</li>".

(** An entry the extractor reads back: href without double quote, title
    without <, both on one line. *)
Definition toc_entry_ok (entry : string * string) : bool :=
  negb (Py.contains (fst entry) Py.dquote)
  && negb (Py.contains (snd entry) "<")
  && one_line (fst entry) && one_line (snd entry).

(** The link pattern after the opening of the anchor: the end of the
    href group up to the title, and the end of the title group. *)
Definition toc_title_tail : Re.pattern := Re.Close :: Re.lit "</a>".

Definition toc_href_tail : Re.pattern :=
  Re.Close :: Re.One (Re.Chr Py.dquote) :: Re.One (Re.Chr ">") :: Re.Open
  :: Re.Many (Re.NotChr "<") :: toc_title_tail.

(** The title under which [generate_nav] lists a page declared with
    [title]: the part after the first slash if, stripped, it is not
    empty, the part before the slash otherwise. *)
Definition listed_title (title : string) : string :=
  let '(title, sep, child_title) := Py.partition title "/" in
  if is_empty (Py.strip child_title) then Py.strip title
  else Py.strip child_title.

(** The URL and title of the items of [l] that have a URL, in order. *)
Definition entries_of (h : Heap) (l : list addr) : list (string * string) :=
  flat_map (fun a => match NavItem.url (cell h a) with
                     | Some u => [(u, NavItem.title (cell h a))]
                     | None => []
                     end) l.

(** ** Inputs of the closed instances *)

(** An instance of [Os] for the closed instances: the relative path of a
    directory at or below the start directory, and a normalisation that
    drops a final /. component. *)
Definition example_os : Os :=
  {| relpath := fun path start =>
       if String.eqb path start then "."
       else match after_prefix (start ++ "/") path with
            | Some rest => rest
            | None => path
            end;
     normpath := fun path =>
       if Py.endswith path "/."
       then substring 0 (String.length path - 2) path
       else path |}.

(** A walk of the theme directory and a walk of the documentation
    directory of [example_config]. *)
Definition theme_walk : list walk_entry :=
  [("theme", ["css"], ["base.html"; "favicon.ico"]);
   ("theme/css", [], ["style.css"])].

Definition docs_walk : list walk_entry :=
  [("docs", ["guide"], ["index.md"; "logo.png"]);
   ("docs/guide", [], ["install.md"; "run.md"])].

(** A table of contents without entry and one with two entries, inside
    the toc division. *)
Definition empty_toc_html : string :=
  unlines (toc_division_open ++ ["<ul></ul>"; "</div>"])%list.

Definition flat_toc_entries : list (string * string) :=
  [("#install", "Install"); ("#run", "Run")].

Definition flat_toc_html : string :=
  unlines (toc_division_open
           ++ ("<ul>" :: map toc_entry_line flat_toc_entries)
           ++ ["</ul>"; "</div>"])%list.

(** The outcome of a call that returns. *)
Definition returned {A : Type} (r : result A) (default : A) : A :=
  match r with
  | Ok a => a
  | Raise _ => default
  end.
(** * Properties *)

(** ** Strings and lists *)

Lemma append_assoc (a b c : string) : (a ++ b) ++ c = a ++ (b ++ c).
Proof. induction a as [|x a IH]; simpl; [reflexivity | now rewrite IH]. Qed.

Lemma append_nil_r (a : string) : a ++ "" = a.
Proof. induction a as [|x a IH]; simpl; [reflexivity | now rewrite IH]. Qed.

Lemma length_append (a b : string) :
  String.length (a ++ b) = String.length a + String.length b.
Proof. induction a as [|x a IH]; simpl; [reflexivity | now rewrite IH]. Qed.

Lemma endswith_spec (s suf : string) :
  Py.endswith s suf = true <-> exists u, s = u ++ suf.
Proof.
  induction s as [|c s IH].
  - destruct suf as [|y suf]; simpl.
    + split; [now exists "" | reflexivity].
    + split; [discriminate | intros [[|x u] H]; discriminate].
  - change (Py.endswith (String c s) suf)
      with (String.eqb (String c s) suf || Py.endswith s suf).
    rewrite orb_true_iff, String.eqb_eq, IH. split.
    + intros [<- | [u ->]]; [now exists "" | now exists (String c u)].
    + intros [[|x u] H]; simpl in H; [now left | right].
      injection H as _ ->. now exists u.
Qed.

Lemma endswith_append (u suf : string) : Py.endswith (u ++ suf) suf = true.
Proof. apply endswith_spec. now exists u. Qed.

Lemma rstrip_by_append (p : ascii -> bool) (u v : string) :
  Py.rstrip_by p v <> "" -> Py.rstrip_by p (u ++ v) = u ++ Py.rstrip_by p v.
Proof.
  intros Hv. induction u as [|c u IH]; simpl; [reflexivity|].
  rewrite IH. destruct (u ++ Py.rstrip_by p v) eqn:E; [|reflexivity].
  destruct u; simpl in E; [contradiction | discriminate].
Qed.

Lemma contains_append (a b : string) (c : ascii) :
  Py.contains (a ++ b) c = Py.contains a c || Py.contains b c.
Proof.
  induction a as [|x a IH]; simpl; [reflexivity|].
  now rewrite IH, orb_assoc.
Qed.

Lemma last_char_append (u v : string) :
  v <> "" -> last_char (u ++ v) = last_char v.
Proof.
  intros Hv. induction u as [|c u IH]; [reflexivity|].
  simpl. rewrite IH. destruct (u ++ v) eqn:E; [|reflexivity].
  destruct u; simpl in E; [contradiction | discriminate].
Qed.

Lemma split_nonempty (s : string) (sep : ascii) : Py.split s sep <> [].
Proof.
  destruct s as [|c s]; simpl; [discriminate|].
  destruct (Ascii.eqb c sep); [discriminate|].
  destruct (Py.split s sep); discriminate.
Qed.

Lemma split_append_sep (a : string) (sep : ascii) :
  Py.split (a ++ String sep "") sep = (Py.split a sep ++ [""])%list.
Proof.
  induction a as [|c a IH]; simpl.
  - now rewrite Ascii.eqb_refl.
  - destruct (Ascii.eqb c sep); [now rewrite IH|].
    rewrite IH. destruct (Py.split a sep) eqn:E; [|reflexivity].
    now apply split_nonempty in E.
Qed.

Lemma index_raises (l : list string) (x : string) (e : exn) :
  Py.index l x = Raise e -> e = ValueError /\ ~ In x l.
Proof.
  induction l as [|y l IH]; simpl.
  - intros [= <-]. split; [reflexivity | tauto].
  - destruct (String.eqb_spec y x) as [->|Hne]; [discriminate|].
    destruct (Py.index l x) as [i|e'] eqn:E; simpl; [discriminate|].
    intros [= <-]. destruct (IH eq_refl) as [-> Hn].
    split; [reflexivity | intros [H|H]; tauto].
Qed.

Lemma index_returns (l : list string) (x : string) (i : nat) :
  Py.index l x = Ok i ->
  nth_error l i = Some x /\ forall j, j < i -> nth_error l j <> Some x.
Proof.
  revert i. induction l as [|y l IH]; simpl; intros i; [discriminate|].
  destruct (String.eqb_spec y x) as [->|Hne].
  - intros [= <-]. split; [reflexivity | intros j Hj; lia].
  - destruct (Py.index l x) as [k|e] eqn:E; simpl; [|discriminate].
    intros [= <-]. destruct (IH k eq_refl) as [Hk Hlt].
    split; [exact Hk|]. intros [|j] Hj; simpl.
    + intros [= ->]. contradiction.
    + apply Hlt. lia.
Qed.



(** ** URL resolver *)

Section UrlResolverFacts.
Context {U : Utils}.

Lemma clean_url_unfold (config : Config) (path : string) :
  local_files config = false ->
  path_to_url path config =
    let url := base_url config ++ "/"
               ++ Py.replace (fst (Py.splitext path)) Py.pathsep "/" in
    if String.eqb url "index" || Py.endswith url "/index"
    then Py.rstrip url "index" else url ++ "/".
Proof. intros H. unfold path_to_url. now rewrite H. Qed.

Lemma slash_not_index (a b : string) : a ++ "/" ++ b <> "index".
Proof.
  intros H. apply (f_equal (fun s => Py.contains s "/")) in H.
  rewrite contains_append in H. simpl in H.
  rewrite orb_true_r in H. discriminate.
Qed.

Lemma rstrip_slash_index (u : string) :
  Py.rstrip (u ++ "/index") "index" = u ++ "/".
Proof.
  unfold Py.rstrip. rewrite rstrip_by_append; [reflexivity|].
  simpl. discriminate.
Qed.

Lemma clean_url_ends_with_slash (config : Config) (path : string) :
  local_files config = false ->
  Py.endswith (path_to_url path config) "/" = true.
Proof.
  intros H. rewrite (clean_url_unfold _ _ H). cbv zeta.
  set (url := base_url config ++ "/" ++ Py.replace _ _ _).
  assert (N : url <> "index") by apply slash_not_index.
  destruct (String.eqb_spec url "index") as [E|_]; [contradiction|].
  rewrite orb_false_l.
  destruct (Py.endswith url "/index") eqn:E.
  - apply endswith_spec in E. destruct E as [u ->].
    rewrite rstrip_slash_index. apply endswith_append.
  - apply endswith_append.
Qed.

Lemma clean_url_index (config : Config) :
  local_files config = false ->
  path_to_url "index.md" config = base_url config ++ "/".
Proof.
  intros H. rewrite (clean_url_unfold _ _ H). cbv zeta.
  replace (fst (Py.splitext "index.md")) with "index" by reflexivity.
  change (Py.replace "index" Py.pathsep "/") with "index".
  change (base_url config ++ "/" ++ "index")
    with (base_url config ++ "/index").
  rewrite endswith_append, orb_true_r.
  apply rstrip_slash_index.
Qed.

Lemma clean_url_guide_install (config : Config) :
  local_files config = false ->
  path_to_url "guide/install.md" config = base_url config ++ "/guide/install/".
Proof.
  intros H. rewrite (clean_url_unfold _ _ H). cbv zeta.
  replace (fst (Py.splitext "guide/install.md")) with "guide/install"
    by reflexivity.
  change (Py.replace "guide/install" Py.pathsep "/") with "guide/install".
  change (base_url config ++ "/" ++ "guide/install")
    with (base_url config ++ "/guide/install").
  assert (L : last_char (base_url config ++ "/guide/install") = Some "l"%char)
    by (now rewrite last_char_append).
  destruct (String.eqb_spec (base_url config ++ "/guide/install") "index")
    as [E|_]; [rewrite E in L; discriminate|].
  destruct (Py.endswith (base_url config ++ "/guide/install") "/index") eqn:E.
  - apply endswith_spec in E. destruct E as [u E]. rewrite E in L.
    rewrite last_char_append in L; discriminate.
  - simpl. rewrite append_assoc. reflexivity.
Qed.

(** C7, as the code has it: in clean-URL mode the URL of index.md is
    the base URL followed by a slash, so its segments are those of the
    base URL followed by an empty one (the path adds no index segment,
    the base URL keeps its own); the URL of guide/install.md is the
    base URL followed by /guide/install/; and every URL ends in a
    slash. *)
Theorem clean_urls (config : Config) :
  local_files config = false ->
  path_to_url "index.md" config = base_url config ++ "/"
  /\ Py.split (path_to_url "index.md" config) "/"
     = (Py.split (base_url config) "/" ++ [""])%list
  /\ path_to_url "guide/install.md" config
     = base_url config ++ "/guide/install/"
  /\ Py.endswith (path_to_url "guide/install.md" config) "/guide/install/" = true
  /\ forall path, Py.endswith (path_to_url path config) "/" = true.
Proof.
  intros H. rewrite (clean_url_index _ H), (clean_url_guide_install _ H).
  repeat split.
  - apply split_append_sep.
  - apply endswith_append.
  - intros path. now apply clean_url_ends_with_slash.
Qed.

Lemma getitem_nth_error {A : Type} (l : list A) (i : nat) (a : A) :
  nth_error l i = Some a -> Py.getitem l i = Ok a.
Proof. unfold Py.getitem. now intros ->. Qed.

Lemma prev_next_unfold (config : Config) (path : string) (i : nat) :
  Py.index (map fst (pages config)) path = Ok i ->
  path_to_previous_and_next_urls path config =
    Ok (match i with
        | 0 => None
        | S j => option_map (fun p => path_to_url (fst p) config)
                            (nth_error (pages config) j)
        end,
        option_map (fun p => path_to_url (fst p) config)
                   (nth_error (pages config) (S i))).
Proof.
  intros Hi. unfold path_to_previous_and_next_urls. rewrite Hi. simpl bind.
  apply index_returns in Hi. destruct Hi as [Hi _].
  assert (Hlen : i < List.length (map fst (pages config)))
    by (apply nth_error_Some; congruence).
  assert (P : (if i =? 0 then Ok None
               else p <- Py.getitem (map fst (pages config)) (i - 1) ;;
                    Ok (Some (path_to_url p config)))
              = Ok (match i with
                    | 0 => None
                    | S j => option_map (fun p => path_to_url (fst p) config)
                                        (nth_error (pages config) j)
                    end)).
  { destruct i as [|j]; [reflexivity|]. simpl Nat.eqb. cbv iota.
    replace (S j - 1) with j by lia.
    destruct (nth_error (map fst (pages config)) j) as [p|] eqn:E.
    - rewrite (getitem_nth_error _ _ _ E). cbn [bind].
      rewrite nth_error_map in E.
      destruct (nth_error (pages config) j) as [[q t]|]; [|discriminate].
      cbn [option_map fst] in *. congruence.
    - apply nth_error_None in E. lia. }
  rewrite P. simpl bind. replace (i + 1) with (S i) by lia.
  destruct (Nat.leb_spec (List.length (map fst (pages config))) (S i)) as [L|L].
  - cbn [bind]. rewrite length_map in L.
    apply nth_error_None in L. now rewrite L.
  - destruct (nth_error (map fst (pages config)) (S i)) as [p|] eqn:E.
    + rewrite (getitem_nth_error _ _ _ E). cbn [bind].
      rewrite nth_error_map in E.
      destruct (nth_error (pages config) (S i)) as [[q t]|]; [|discriminate].
      cbn [option_map fst] in *. congruence.
    + apply nth_error_None in E. lia.
Qed.


(** C6: path_to_previous_and_next_urls returns normally exactly when
    the path occurs among the paths of config.pages, and raises the
    not-found error of list.index (ValueError) exactly when it does
    not; it raises nothing else. *)
Theorem prev_next_not_found (config : Config) (path : string) :
  (In path (map fst (pages config))
     <-> exists r, path_to_previous_and_next_urls path config = Ok r)
  /\ (~ In path (map fst (pages config))
     <-> path_to_previous_and_next_urls path config = Raise ValueError)
  /\ (forall e, path_to_previous_and_next_urls path config = Raise e
                <-> (e = ValueError /\ ~ In path (map fst (pages config)))).
Proof.
  destruct (Py.index (map fst (pages config)) path) as [i|e] eqn:E.
  - pose proof (prev_next_unfold _ _ _ E) as R.
    apply index_returns in E. destruct E as [E _]. apply nth_error_In in E.
    rewrite R. split; [|split].
    + split; [eauto | intros _; exact E].
    + split; [tauto | discriminate].
    + intros e. split; [discriminate | tauto].
  - pose proof (index_raises _ _ _ E) as [-> Hn].
    assert (R : path_to_previous_and_next_urls path config = Raise ValueError)
      by (unfold path_to_previous_and_next_urls; now rewrite E).
    rewrite R. split; [|split].
    + split; [tauto | intros [r Hr]; discriminate].
    + tauto.
    + intros e. split; [intros [= <-]; tauto | intros [-> _]; reflexivity].
Qed.

End UrlResolverFacts.


(** C7 at [example_config]. *)
Lemma clean_urls_witness :
  path_to_url (U := spec_utils) "index.md" example_config = "http://example.com/"
  /\ Py.split (path_to_url (U := spec_utils) "index.md" example_config) "/"
     = (Py.split "http://example.com" "/" ++ [""])%list
  /\ path_to_url (U := spec_utils) "guide/install.md" example_config
     = "http://example.com/guide/install/"
  /\ Py.endswith (path_to_url (U := spec_utils) "guide/install.md" example_config)
       "/guide/install/" = true
  /\ forall path,
       Py.endswith (path_to_url (U := spec_utils) path example_config) "/" = true.
Proof.
  exact (clean_urls (U := spec_utils) example_config eq_refl).
Defined.

(** C7, as stated, fails when the base URL itself has an index segment:
    the URL of index.md then contains that segment. *)
Lemma index_segment_of_base_url_remains :
  local_files index_base_config = false
  /\ path_to_url (U := spec_utils) "index.md" index_base_config
     = "http://example.com/index/"
  /\ In "index"
        (Py.split (path_to_url (U := spec_utils) "index.md" index_base_config) "/").
Proof.
  split; [reflexivity|]. split; [reflexivity|].
  vm_compute. tauto.
Qed.

(** ** The store *)

Lemma addr_eqb_refl (a : addr) : addr_eqb a a = true.
Proof. apply Nat.eqb_refl. Qed.

Lemma addr_eqb_eq (a b : addr) : addr_eqb a b = true <-> a = b.
Proof. apply Nat.eqb_eq. Qed.

Lemma addr_eqb_neq (a b : addr) : addr_eqb a b = false <-> a <> b.
Proof. apply Nat.eqb_neq. Qed.

(** Decides every comparison of two addresses in the goal by
    arithmetic. *)
Ltac addr_eqb :=
  repeat match goal with
  | |- context [addr_eqb ?a ?b] =>
      first [ replace (addr_eqb a b) with true
                by (symmetry; apply addr_eqb_eq; lia)
            | replace (addr_eqb a b) with false
                by (symmetry; apply addr_eqb_neq; lia) ]
  end.

(** Evaluates the closed calls of [Py.strip] and [Py.partition]. *)
Ltac eval_titles :=
  repeat match goal with
  | |- context [Py.strip ?s] =>
      let v := eval vm_compute in (Py.strip s) in
      change (Py.strip s) with v
  end.

Lemma cell_alloc (o : NavItem.t) (h : Heap) (x : addr) :
  cell (snd (alloc o h)) x = if addr_eqb x (next h) then o else cell h x.
Proof. reflexivity. Qed.

Lemma cell_update (h : Heap) (a : addr) (f : NavItem.t -> NavItem.t) (x : addr) :
  cell (update h a f) x = if addr_eqb x a then f (cell h a) else cell h x.
Proof. reflexivity. Qed.

Lemma next_alloc (o : NavItem.t) (h : Heap) : next (snd (alloc o h)) = S (next h).
Proof. reflexivity. Qed.

Lemma next_update (h : Heap) (a : addr) (f : NavItem.t -> NavItem.t) :
  next (update h a f) = next h.
Proof. reflexivity. Qed.

(** Reads cells of a store built from [alloc] and [update]. *)
Ltac read_cells :=
  repeat (rewrite ?next_update, ?next_alloc, ?cell_update, ?cell_alloc;
          addr_eqb; cbv iota).

(** Evaluates the comparisons of closed strings. *)
Ltac eval_eqb :=
  repeat match goal with
  | |- context [String.eqb ?a ?b] =>
      let v := eval vm_compute in (String.eqb a b) in
      match v with
      | true => change (String.eqb a b) with true
      | false => change (String.eqb a b) with false
      end
  end.


Lemma last_item_some {A : Type} (l : list A) (x : A) :
  last_item l = Some x -> exists l', l = (l' ++ [x])%list.
Proof.
  unfold last_item. intros H. destruct (rev l) as [|y r] eqn:E; [discriminate|].
  injection H as ->. exists (rev r).
  rewrite <- (rev_involutive l), E. reflexivity.
Qed.

(** ** Navigation builder *)

Section NavigationFacts.
Context {U : Utils}.

(** The three branches of the loop body of [generate_nav]. *)
Lemma generate_nav_step_eq (config : Config) (ret : list addr) (h : Heap)
    (path title : string) :
  generate_nav_step config (ret, h) (path, title) =
    let url := path_to_url path config in
    let parent_title := Py.strip (fst (fst (Py.partition title "/"))) in
    let child_title := Py.strip (snd (Py.partition title "/")) in
    let group :=
      ((ret ++ [S (next h)])%list,
       snd (alloc (NavItem.mk parent_title None [next h] false)
              (snd (alloc (NavItem.mk child_title (Some url) [] false) h)))) in
    if is_empty child_title then
      ((ret ++ [next h])%list,
       snd (alloc (NavItem.mk parent_title (Some url) [] false) h))
    else
      match last_item ret with
      | None => group
      | Some last =>
          if String.eqb (NavItem.title (cell h last)) parent_title then
            (ret, update (snd (alloc (NavItem.mk child_title (Some url) [] false) h))
                         last (NavItem.append_child (next h)))
          else group
      end.
Proof.
  unfold generate_nav_step.
  destruct (Py.partition title "/") as [[t sep] ct]. cbn [fst snd]. cbv zeta.
  destruct (is_empty (Py.strip ct)); [reflexivity|].
  destruct (last_item ret) as [l|]; [|reflexivity].
  destruct (String.eqb (NavItem.title (cell h l)) (Py.strip t)); reflexivity.
Qed.


(** One turn of the loop of [generate_nav] on a closed title. *)
Ltac nav_step :=
  rewrite generate_nav_step_eq; cbv zeta; eval_titles;
  cbn [is_empty last_item rev app];
  read_cells;
  cbn [NavItem.title NavItem.append_child NavItem.children NavItem.url
       NavItem.active];
  eval_eqb; cbv iota.

(** C1, as the code has it: on the page list Intro, Guide/Setup,
    Guide/Run, Guide/Setup the three Guide pages are consecutive, so
    generate_nav returns 2 top-level items, Intro and one group Guide
    with the children b.md, c.md, d.md.  Two top-level groups titled
    Guide arise when another entry separates the Guide pages: with
    Intro moved between c.md and d.md the result has 3 top-level items
    and b.md and d.md are in different groups. *)
Theorem generate_nav_groups_consecutive_pages (config config' : Config)
    (h : Heap) :
  pages config = [("a.md", "Intro"); ("b.md", "Guide/Setup");
                  ("c.md", "Guide/Run"); ("d.md", "Guide/Setup")] ->
  pages config' = [("b.md", "Guide/Setup"); ("c.md", "Guide/Run");
                   ("a.md", "Intro"); ("d.md", "Guide/Setup")] ->
  let n := next h in
  (exists h',
      generate_nav config h = ([n; 2 + n], h')
      /\ cell h' n
         = NavItem.mk "Intro" (Some (path_to_url "a.md" config)) [] false
      /\ cell h' (2 + n) = NavItem.mk "Guide" None [1 + n; 3 + n; 4 + n] false
      /\ cell h' (1 + n)
         = NavItem.mk "Setup" (Some (path_to_url "b.md" config)) [] false
      /\ cell h' (3 + n)
         = NavItem.mk "Run" (Some (path_to_url "c.md" config)) [] false
      /\ cell h' (4 + n)
         = NavItem.mk "Setup" (Some (path_to_url "d.md" config)) [] false)
  /\ (exists h',
      generate_nav config' h = ([1 + n; 3 + n; 5 + n], h')
      /\ cell h' (1 + n) = NavItem.mk "Guide" None [n; 2 + n] false
      /\ cell h' (3 + n)
         = NavItem.mk "Intro" (Some (path_to_url "a.md" config')) [] false
      /\ cell h' (5 + n) = NavItem.mk "Guide" None [4 + n] false
      /\ cell h' n
         = NavItem.mk "Setup" (Some (path_to_url "b.md" config')) [] false
      /\ cell h' (2 + n)
         = NavItem.mk "Run" (Some (path_to_url "c.md" config')) [] false
      /\ cell h' (4 + n)
         = NavItem.mk "Setup" (Some (path_to_url "d.md" config')) [] false).
Proof.
  intros Hp Hp' n. subst n. unfold generate_nav. rewrite Hp, Hp'.
  cbn [fold_left]. do 8 nav_step.
  split; eexists; (split; [reflexivity|]); repeat split;
    read_cells; reflexivity.
Qed.




End NavigationFacts.

(** Closed instances of the navigation builder. *)

(** C1 at [guide_config] and [split_guide_config], from the empty
    store. *)
Lemma generate_nav_groups_consecutive_pages_witness :
  let n := next empty_heap in
  (exists h',
      generate_nav (U := spec_utils) guide_config empty_heap = ([n; 2 + n], h')
      /\ cell h' n
         = NavItem.mk "Intro"
             (Some (path_to_url (U := spec_utils) "a.md" guide_config)) [] false
      /\ cell h' (2 + n) = NavItem.mk "Guide" None [1 + n; 3 + n; 4 + n] false
      /\ cell h' (1 + n)
         = NavItem.mk "Setup"
             (Some (path_to_url (U := spec_utils) "b.md" guide_config)) [] false
      /\ cell h' (3 + n)
         = NavItem.mk "Run"
             (Some (path_to_url (U := spec_utils) "c.md" guide_config)) [] false
      /\ cell h' (4 + n)
         = NavItem.mk "Setup"
             (Some (path_to_url (U := spec_utils) "d.md" guide_config)) [] false)
  /\ (exists h',
      generate_nav (U := spec_utils) split_guide_config empty_heap
        = ([1 + n; 3 + n; 5 + n], h')
      /\ cell h' (1 + n) = NavItem.mk "Guide" None [n; 2 + n] false
      /\ cell h' (3 + n)
         = NavItem.mk "Intro"
             (Some (path_to_url (U := spec_utils) "a.md" split_guide_config))
             [] false
      /\ cell h' (5 + n) = NavItem.mk "Guide" None [4 + n] false
      /\ cell h' n
         = NavItem.mk "Setup"
             (Some (path_to_url (U := spec_utils) "b.md" split_guide_config))
             [] false
      /\ cell h' (2 + n)
         = NavItem.mk "Run"
             (Some (path_to_url (U := spec_utils) "c.md" split_guide_config))
             [] false
      /\ cell h' (4 + n)
         = NavItem.mk "Setup"
             (Some (path_to_url (U := spec_utils) "d.md" split_guide_config))
             [] false).
Proof.
  exact (generate_nav_groups_consecutive_pages (U := spec_utils)
           guide_config split_guide_config empty_heap eq_refl eq_refl).
Defined.

(** C1, as stated, fails: on the page list of the claim generate_nav
    returns 2 top-level items, not 3; the only group titled Guide holds
    b.md and d.md together. *)
Lemma guide_pages_form_one_group :
  let (ret, h) := generate_nav (U := spec_utils) guide_config empty_heap in
  ret = [0; 2]
  /\ List.length ret <> 3
  /\ NavItem.title (cell h 0) = "Intro"
  /\ NavItem.title (cell h 2) = "Guide"
  /\ NavItem.children (cell h 2) = [1; 3; 4]
  /\ NavItem.url (cell h 1) = Some "http://example.com/b/"
  /\ NavItem.url (cell h 4) = Some "http://example.com/d/".
Proof.
  vm_compute. repeat split. discriminate.
Qed.


(** ** Table-of-contents extractor *)

Lemma splitlines_line (w s : string) :
  one_line w = true ->
  Py.splitlines (w ++ String Py.LF s) = w :: Py.splitlines s.
Proof.
  induction w as [|c w IH]; intros H.
  - cbn [append]. destruct s as [|c' s']; reflexivity.
  - unfold one_line in H. cbn [Py.all_chars] in H.
    apply andb_true_iff in H. destruct H as [Hc Hw].
    apply negb_true_iff in Hc.
    cbn [append Py.splitlines]. rewrite Hc. fold (one_line w) in Hw.
    now rewrite (IH Hw).
Qed.

Lemma splitlines_unlines (lines : list string) :
  forallb one_line lines = true -> Py.splitlines (unlines lines) = lines.
Proof.
  induction lines as [|l ls IH]; [reflexivity|].
  cbn [forallb unlines]. intros H.
  apply andb_true_iff in H. destruct H as [Hl Hls].
  rewrite (splitlines_line _ _ Hl). now rewrite (IH Hls).
Qed.

Lemma new_NavItem_leaf (title : string) (url : option string) (h : Heap) :
  new_NavItem title url None h
  = (next h, snd (alloc (NavItem.mk title url [] false) h)).
Proof. reflexivity. Qed.

(** Evaluates the tests [generate_toc] makes on a closed line. *)
Ltac eval_line :=
  repeat match goal with
  | |- context [Re.search TOC_LINK_REGEX ?s] =>
      let v := eval vm_compute in (Re.search TOC_LINK_REGEX s) in
      change (Re.search TOC_LINK_REGEX s) with v
  | |- context [Py.endswith ?s ?t] =>
      let v := eval vm_compute in (Py.endswith s t) in
      change (Py.endswith s t) with v
  | |- context [Py.startswith ?s ?t] =>
      let v := eval vm_compute in (Py.startswith s t) in
      change (Py.startswith s t) with v
  end.

(** One turn of the loop of [generate_toc] on a closed line. *)
Ltac toc_line :=
  cbn [foldM]; unfold generate_toc_line at 1; eval_line;
  cbn [Re.groups]; cbv iota beta; rewrite ?new_NavItem_leaf;
  cbn [bind last_item rev app removelast fst snd]; cbv iota beta.

Lemma generate_toc_lines (w1 w2 w3 w4 : string) (body : list string) (h : Heap) :
  one_line w1 = true -> one_line w2 = true ->
  one_line w3 = true -> one_line w4 = true ->
  forallb one_line body = true ->
  generate_toc (unlines ([w1; w2] ++ body ++ [w3; w4])) h
  = (st <- foldM generate_toc_line body ([], [], h) ;;
     let '(parents, ret, h) := st in
     match ret with
     | first :: _ => Ok (ret, update h first (NavItem.set_active true))
     | [] => Ok (ret, h)
     end).
Proof.
  intros H1 H2 H3 H4 Hb. unfold generate_toc.
  rewrite splitlines_unlines.
  - replace (Py.slice_list ([w1; w2] ++ body ++ [w3; w4]) 2 2) with body;
      [reflexivity|].
    unfold Py.slice_list. cbn [app skipn List.length]. rewrite length_app.
    cbn [List.length].
    replace (S (S (List.length body + 2)) - 2 - 2) with (List.length body) by lia.
    rewrite firstn_app, firstn_all, Nat.sub_diag. cbn [firstn].
    now rewrite app_nil_r.
  - cbn [app forallb]. rewrite H1, H2, forallb_app, Hb. cbn [forallb].
    now rewrite H3, H4.
Qed.

(** The line closing the outer list finds the stack of parents empty:
    on the whole fragment between two wrapper lines on each side
    [generate_toc] raises IndexError. *)
Lemma generate_toc_outer_close_raises (w1 w2 w3 w4 : string) (h : Heap) :
  one_line w1 = true -> one_line w2 = true ->
  one_line w3 = true -> one_line w4 = true ->
  generate_toc (unlines ([w1; w2] ++ toc_fragment ++ [w3; w4])) h
  = Raise IndexError.
Proof.
  intros H1 H2 H3 H4.
  rewrite (generate_toc_lines _ _ _ _ _ _ H1 H2 H3 H4) by reflexivity.
  unfold toc_fragment, toc_fragment_open. cbn [app].
  do 6 toc_line. reflexivity.
Qed.

(** C2, as the code has it: the fragment <ul>, the entry A opening a
    nested list, the entry A1, </ul>, </li>, between two wrapper lines
    before and two lines after it (the line closing the outer list is one
    of the two discarded trailing lines) gives one top-level item A,
    active, with href #a, whose only child is A1 with href #a-1; the call
    returns normally. *)
Theorem generate_toc_two_level_fragment (w1 w2 w3 w4 : string) (h : Heap) :
  one_line w1 = true -> one_line w2 = true ->
  one_line w3 = true -> one_line w4 = true ->
  exists h',
    generate_toc (unlines ([w1; w2] ++ toc_fragment_open ++ [w3; w4])) h
    = Ok ([next h], h')
    /\ cell h' (next h) = NavItem.mk "A" (Some "#a") [S (next h)] true
    /\ cell h' (S (next h)) = NavItem.mk "A1" (Some "#a-1") [] false
    /\ (forall x, x < next h -> cell h' x = cell h x).
Proof.
  intros H1 H2 H3 H4.
  rewrite (generate_toc_lines _ _ _ _ _ _ H1 H2 H3 H4) by reflexivity.
  unfold toc_fragment_open.
  do 5 toc_line. cbn [foldM bind].
  eexists. split; [reflexivity|]. repeat split.
  - read_cells. reflexivity.
  - read_cells. reflexivity.
  - intros x Hx. read_cells. reflexivity.
Qed.

(** C2 on the converter's output: the fragment with its closing line,
    inside the toc division; the trailing lines are </ul> and </div>. *)
Lemma generate_toc_two_level_fragment_witness :
  exists h',
    generate_toc
      (unlines (toc_division_open ++ toc_fragment_open ++ ["</ul>"; "</div>"]))
      empty_heap
    = Ok ([0], h')
    /\ cell h' 0 = NavItem.mk "A" (Some "#a") [1] true
    /\ cell h' 1 = NavItem.mk "A1" (Some "#a-1") [] false
    /\ (forall x, x < 0 -> cell h' x = cell empty_heap x).
Proof.
  exact (generate_toc_two_level_fragment
           "" ("<div class=" ++ String Py.dquote ("toc" ++ String Py.dquote ">"))
           "</ul>" "</div>" empty_heap eq_refl eq_refl eq_refl eq_refl).
Defined.

(** C2, as stated, fails: with the six lines of the fragment between
    two wrapper lines on each side the call raises IndexError. *)
Lemma generate_toc_whole_fragment_raises :
  generate_toc
    (unlines (toc_division_open ++ toc_fragment ++ toc_division_close))
    empty_heap
  = Raise IndexError.
Proof.
  exact (generate_toc_outer_close_raises
           "" ("<div class=" ++ String Py.dquote ("toc" ++ String Py.dquote ">"))
           "</div>" "" empty_heap eq_refl eq_refl eq_refl eq_refl).
Qed.

(** ** Regular expressions *)

Lemma prefix_spec (p s : string) :
  String.prefix p s = true <-> exists r, s = p ++ r.
Proof.
  revert s. induction p as [|c p IH]; intros s.
  - destruct s; simpl; split; eauto.
  - destruct s as [|x s]; simpl.
    + split; [discriminate | intros [r H]; discriminate].
    + destruct (ascii_dec c x) as [->|N].
      * rewrite IH. split; intros [r H]; exists r; [now rewrite H | now injection H].
      * split; [discriminate | intros [r H]; injection H as H _; congruence].
Qed.

Lemma match_lit (p : string) (re : Re.pattern) (r : string) (off : nat) :
  Re.match_here (Re.lit p ++ re)%list (p ++ r) off
  = Re.match_here re r (off + String.length p).
Proof.
  revert off. induction p as [|c p IH]; intros off.
  - cbn. now rewrite Nat.add_0_r.
  - cbn [Re.lit app append Re.match_here Re.accepts String.length].
    rewrite Ascii.eqb_refl, IH. f_equal. lia.
Qed.

Lemma match_lit_fails (p : string) (re : Re.pattern) (s : string) (off : nat) :
  String.prefix p s = false -> Re.match_here (Re.lit p ++ re)%list s off = None.
Proof.
  revert s off. induction p as [|c p IH]; intros s off.
  - destruct s; discriminate.
  - destruct s as [|x s]; [reflexivity|].
    cbn [Re.lit app Re.match_here Re.accepts String.prefix].
    destruct (ascii_dec c x) as [->|N].
    + rewrite Ascii.eqb_refl. apply IH.
    + intros _. destruct (Ascii.eqb_spec x c); [congruence | reflexivity].
Qed.

Lemma match_many_cons (k : Re.cls) (p : Re.pattern) (c : ascii) (s : string)
    (off : nat) :
  Re.match_here (Re.Many k :: p) (String c s) off
  = if Re.accepts k c then
      match Re.match_here (Re.Many k :: p) s (S off) with
      | Some r => Some r
      | None => Re.match_here p (String c s) off
      end
    else Re.match_here p (String c s) off.
Proof. reflexivity. Qed.

Lemma contains_cons (c : ascii) (s : string) (x : ascii) :
  Py.contains (String c s) x = false ->
  Ascii.eqb x c = false /\ Py.contains s x = false.
Proof. cbn [Py.contains]. apply orb_false_iff. Qed.

Lemma md_tail_at_quote (X rest : string) (off : nat) :
  Py.contains X Py.dquote = false ->
  Re.match_here md_tail (X ++ String Py.dquote rest) off
  = if String.eqb X ".md" then Some ([off + 3], off + 4) else None.
Proof.
  intros H. unfold md_tail.
  destruct X as [|c1 X]; [reflexivity|].
  cbn [Re.lit app append Re.match_here Re.accepts String.eqb].
  destruct (Ascii.eqb c1 "."); [|reflexivity].
  apply contains_cons in H. destruct H as [_ H].
  destruct X as [|c2 X]; [reflexivity|].
  cbn [Re.lit app append Re.match_here Re.accepts String.eqb andb].
  destruct (Ascii.eqb c2 "m"); [|reflexivity].
  apply contains_cons in H. destruct H as [_ H].
  destruct X as [|c3 X].
  { reflexivity. }
  cbn [Re.lit app append Re.match_here Re.accepts String.eqb andb].
  destruct (Ascii.eqb c3 "d"); [|reflexivity].
  apply contains_cons in H. destruct H as [_ H].
  destruct X as [|c4 X].
  - cbn [append Re.match_here Re.accepts String.eqb andb].
    rewrite Ascii.eqb_refl. do 3 f_equal; lia.
  - apply contains_cons in H. destruct H as [H _].
    cbn [append Re.match_here Re.accepts String.eqb andb].
    rewrite Ascii.eqb_sym, H. reflexivity.
Qed.

Lemma md_tail_no_quote (r : string) (off : nat) :
  Py.contains r Py.dquote = false -> Re.match_here md_tail r off = None.
Proof.
  intros H. unfold md_tail.
  destruct r as [|c1 r]; [reflexivity|].
  cbn [Re.lit app Re.match_here Re.accepts].
  destruct (Ascii.eqb c1 "."); [|reflexivity].
  apply contains_cons in H. destruct H as [_ H].
  destruct r as [|c2 r]; [reflexivity|].
  cbn [Re.lit app Re.match_here Re.accepts].
  destruct (Ascii.eqb c2 "m"); [|reflexivity].
  apply contains_cons in H. destruct H as [_ H].
  destruct r as [|c3 r]; [reflexivity|].
  cbn [Re.lit app Re.match_here Re.accepts].
  destruct (Ascii.eqb c3 "d"); [|reflexivity].
  apply contains_cons in H. destruct H as [_ H].
  destruct r as [|c4 r]; [reflexivity|].
  apply contains_cons in H. destruct H as [H _].
  cbn [Re.match_here Re.accepts].
  rewrite Ascii.eqb_sym, H. reflexivity.
Qed.

Lemma endswith_cons (c : ascii) (s suf : string) :
  Py.endswith (String c s) suf = String.eqb (String c s) suf || Py.endswith s suf.
Proof. reflexivity. Qed.

Lemma many_at_quote (T rest : string) (off : nat) :
  Py.contains T Py.dquote = false ->
  Re.match_here (Re.Many (Re.NotChr Py.dquote) :: md_tail)
                (T ++ String Py.dquote rest) off
  = if Py.endswith T ".md"
    then Some ([off + String.length T], off + String.length T + 1)
    else None.
Proof.
  revert off. induction T as [|c T IH]; intros off H.
  - cbn [append]. rewrite match_many_cons. cbn [Re.accepts].
    rewrite Ascii.eqb_refl. cbn [negb].
    apply (md_tail_at_quote "" rest off). reflexivity.
  - pose proof (contains_cons _ _ _ H) as [Hc HT].
    cbn [append]. rewrite match_many_cons. cbn [Re.accepts].
    rewrite Ascii.eqb_sym, Hc. cbn [negb].
    rewrite (IH (S off) HT), endswith_cons.
    destruct (Py.endswith T ".md").
    + rewrite orb_true_r. cbn [String.length]. do 3 f_equal; lia.
    + rewrite orb_false_r.
      change (String c (T ++ String Py.dquote rest))
        with (String c T ++ String Py.dquote rest).
      rewrite (md_tail_at_quote (String c T) rest off H).
      destruct (String.eqb_spec (String c T) ".md") as [E|_]; [|reflexivity].
      rewrite E. cbn [String.length]. do 2 f_equal. lia.
Qed.

Lemma many_no_quote (r : string) (off : nat) :
  Py.contains r Py.dquote = false ->
  Re.match_here (Re.Many (Re.NotChr Py.dquote) :: md_tail) r off = None.
Proof.
  revert off. induction r as [|c r IH]; intros off H.
  - reflexivity.
  - pose proof (contains_cons _ _ _ H) as [Hc Hr].
    rewrite match_many_cons, (IH _ Hr), (md_tail_no_quote _ _ H).
    now destruct (Re.accepts _ _).
Qed.

Lemma first_quote (r : string) :
  (exists T rest, r = T ++ String Py.dquote rest /\ Py.contains T Py.dquote = false)
  \/ Py.contains r Py.dquote = false.
Proof.
  induction r as [|c r IH].
  - now right.
  - destruct (Ascii.eqb_spec Py.dquote c) as [<-|N].
    + left. now exists "", r.
    + apply Ascii.eqb_neq in N.
      destruct IH as [(T & rest & -> & HT)|Hr].
      * left. exists (String c T), rest. split; [reflexivity|].
        cbn [Py.contains]. now rewrite N, HT.
      * right. cbn [Py.contains]. now rewrite N, Hr.
Qed.

Lemma substring_0_append (a b : string) :
  substring 0 (String.length a) (a ++ b) = a.
Proof.
  induction a as [|c a IH]; cbn.
  - now destruct b.
  - now rewrite IH.
Qed.

Lemma md_regex_split :
  MD_LINK_REGEX
  = (Re.lit a_href_open
       ++ Re.Open :: Re.Many (Re.NotChr Py.dquote) :: md_tail)%list.
Proof. reflexivity. Qed.

Lemma md_match_at_link (T post : string) :
  Py.contains T Py.dquote = false ->
  Re.match_at MD_LINK_REGEX (a_href_open ++ T ++ String Py.dquote post)
  = if Py.endswith T ".md"
    then Some (Re.mkMatch [T] (9 + String.length T))
    else None.
Proof.
  intros H. unfold Re.match_at. rewrite md_regex_split, match_lit.
  cbn [Re.match_here]. rewrite (many_at_quote _ _ _ H).
  destruct (Py.endswith T ".md"); [|reflexivity].
  cbn [String.length a_href_open append Nat.add].
  f_equal. f_equal; [|lia].
  cbn [Re.groups_of substring].
  replace (S (S (S (S (S (S (S (S (String.length T)))))))) - 8)
    with (String.length T) by lia.
  now rewrite substring_0_append.
Qed.

Lemma md_match_unclosed (r : string) :
  Py.contains r Py.dquote = false ->
  Re.match_at MD_LINK_REGEX (a_href_open ++ r) = None.
Proof.
  intros H. unfold Re.match_at. rewrite md_regex_split, match_lit.
  cbn [Re.match_here]. now rewrite (many_no_quote _ _ H).
Qed.

Lemma md_match_no_open (s : string) :
  String.prefix a_href_open s = false -> Re.match_at MD_LINK_REGEX s = None.
Proof.
  intros H. unfold Re.match_at.
  now rewrite md_regex_split, (match_lit_fails _ _ _ _ H).
Qed.

Lemma a_href_append (T post : string) :
  a_href T ++ post = a_href_open ++ T ++ String Py.dquote post.
Proof.
  unfold a_href, a_href_open. cbn [append]. do 8 f_equal.
  now rewrite append_assoc.
Qed.

Lemma md_match_inv (s : string) (m : Re.Match) :
  Re.match_at MD_LINK_REGEX s = Some m ->
  exists T post,
    s = a_href T ++ post /\ md_target T
    /\ m = Re.mkMatch [T] (9 + String.length T).
Proof.
  intros H. destruct (String.prefix a_href_open s) eqn:P.
  - apply prefix_spec in P. destruct P as [r ->].
    destruct (first_quote r) as [(T & rest & -> & HT)|Hr].
    + rewrite (md_match_at_link _ _ HT) in H.
      destruct (Py.endswith T ".md") eqn:E; [|discriminate].
      injection H as <-. exists T, rest.
      rewrite a_href_append. now repeat split.
    + rewrite (md_match_unclosed _ Hr) in H. discriminate.
  - rewrite (md_match_no_open _ P) in H. discriminate.
Qed.

Lemma endswith_last_char (s suf : string) :
  Py.endswith s suf = true -> suf <> "" -> last_char s = last_char suf.
Proof.
  intros H N. apply endswith_spec in H. destruct H as [u ->].
  now apply last_char_append.
Qed.

Lemma no_open_before_link (x z : string) :
  x <> "" ->
  String.prefix a_href_open x = false ->
  String.prefix a_href_open (x ++ a_href_open ++ z) = false.
Proof.
  intros N P.
  destruct (String.prefix a_href_open (x ++ a_href_open ++ z)) eqn:E;
    [|reflexivity].
  exfalso. apply prefix_spec in E. destruct E as [r E].
  unfold a_href_open, Py.dquote in E. cbn [append] in E.
  destruct x as [|c x]; [contradiction|].
  cbn [append] in E. injection E as -> E.
  do 7 (destruct x as [|c x];
        [cbn [append] in E; discriminate E
        |cbn [append] in E; injection E as -> E]).
  destruct x; vm_compute in P; discriminate P.
Qed.

(** A match found before a link lies before it: appending a link to a
    non-empty text changes no match at its start. *)
Lemma md_match_before_link (x z : string) :
  x <> "" ->
  Re.match_at MD_LINK_REGEX (x ++ a_href_open ++ z)
  = Re.match_at MD_LINK_REGEX x
  /\ forall m, Re.match_at MD_LINK_REGEX x = Some m ->
               0 < Re.span m <= String.length x.
Proof.
  intros N. destruct (String.prefix a_href_open x) eqn:P.
  - apply prefix_spec in P. destruct P as [r ->].
    destruct (first_quote r) as [(T & rest & -> & HT)|Hr].
    + replace ((a_href_open ++ T ++ String Py.dquote rest) ++ a_href_open ++ z)
        with (a_href_open ++ T ++ String Py.dquote (rest ++ a_href_open ++ z))
        by (now rewrite !append_assoc).
      rewrite !(md_match_at_link _ _ HT). split; [reflexivity|].
      intros m. destruct (Py.endswith T ".md"); [|discriminate].
      intros [= <-]. cbn [Re.span]. rewrite !length_append.
      cbn [String.length a_href_open append]. lia.
    + rewrite (md_match_unclosed _ Hr). split; [|discriminate].
      replace ((a_href_open ++ r) ++ a_href_open ++ z)
        with (a_href_open ++ (r ++ "a href=") ++ String Py.dquote z)
        by (unfold a_href_open; now rewrite !append_assoc).
      rewrite md_match_at_link.
      * destruct (Py.endswith (r ++ "a href=") ".md") eqn:E; [|reflexivity].
        apply endswith_last_char in E; [|discriminate].
        rewrite last_char_append in E; discriminate.
      * rewrite contains_append, Hr. reflexivity.
  - rewrite (md_match_no_open _ P).
    rewrite (md_match_no_open _ (no_open_before_link _ _ N P)).
    split; [reflexivity | discriminate].
Qed.

(** ** Substitution *)

Section Sub.
Variable p : Re.pattern.
Variable repl : Re.Match -> result string.

Lemma sub_from_skip (x s : string) :
  Re.sub_from p repl (x ++ s) (String.length x) = Re.sub_from p repl s 0.
Proof. induction x as [|c x IH]; [reflexivity | exact IH]. Qed.

Lemma sub_from_match (c : ascii) (s : string) (m : Re.Match) (k : nat) :
  Re.match_at p (String c s) = Some m ->
  Re.span m = S k ->
  Re.sub_from p repl (String c s) 0
  = (r <- repl m ;; rest <- Re.sub_from p repl s k ;; Ok (r ++ rest)).
Proof.
  intros H K. cbn [Re.sub_from]. rewrite H, K. cbn [Nat.eqb].
  replace (S k - 1) with k by lia. reflexivity.
Qed.

Lemma sub_from_no_match (c : ascii) (s : string) :
  Re.match_at p (String c s) = None ->
  Re.sub_from p repl (String c s) 0
  = (t <- Re.sub_from p repl s 0 ;; Ok (String c t)).
Proof. intros H. cbn [Re.sub_from]. now rewrite H. Qed.
End Sub.

Section LinkRewriting.
Context {U : Utils}.
Variable config : Config.

Local Abbreviation sub_md := (Re.sub_from MD_LINK_REGEX (PathToURL config)).

Lemma sub_md_link (T post : string) :
  md_target T ->
  sub_md (a_href T ++ post) 0
  = (rest <- sub_md post 0 ;; Ok (a_href (path_to_url T config) ++ rest)).
Proof.
  intros [HT HE].
  assert (M : Re.match_at MD_LINK_REGEX (a_href T ++ post)
              = Some (Re.mkMatch [T] (9 + String.length T))).
  { rewrite a_href_append, (md_match_at_link _ _ HT). now rewrite HE. }
  rewrite a_href_append in *. unfold a_href_open in *. cbn [append] in *.
  rewrite (sub_from_match _ _ _ _ _ (8 + String.length T) M eq_refl).
  cbn [PathToURL Py.getitem nth_error Re.groups bind].
  change (String " " (String "h" (String "r" (String "e" (String "f"
            (String "=" (String Py.dquote (T ++ String Py.dquote post))))))))
    with ((" href=" ++ String Py.dquote EmptyString)
          ++ T ++ String Py.dquote post).
  replace ((" href=" ++ String Py.dquote EmptyString)
           ++ T ++ String Py.dquote post)
    with (((" href=" ++ String Py.dquote EmptyString)
           ++ T ++ String Py.dquote EmptyString) ++ post)
    by (now rewrite !append_assoc).
  replace (8 + String.length T)
    with (String.length ((" href=" ++ String Py.dquote EmptyString)
                         ++ T ++ String Py.dquote EmptyString))
    by (rewrite !length_append; cbn [String.length append]; lia).
  now rewrite sub_from_skip.
Qed.

Lemma sub_md_before_link (pre z zr : string) (k : nat) :
  k <= String.length pre ->
  sub_md (a_href_open ++ z) 0 = Ok zr ->
  sub_md (pre ++ a_href_open ++ z) k
  = (r <- sub_md pre k ;; Ok (r ++ zr)).
Proof.
  intros K Z. revert k K. induction pre as [|c pre IH]; intros k K.
  - cbn [String.length] in K. replace k with 0 by lia.
    cbn [append]. rewrite Z. reflexivity.
  - destruct k as [|k].
    + destruct (md_match_before_link (String c pre) z) as [E S];
        [discriminate|].
      change (String c pre ++ a_href_open ++ z)
        with (String c (pre ++ a_href_open ++ z)) in *.
      destruct (Re.match_at MD_LINK_REGEX (String c pre)) as [m|] eqn:M.
      * destruct (S m eq_refl) as [S1 S2]. cbn [String.length] in S2.
        destruct (Re.span m) as [|j] eqn:J; [lia|].
        rewrite (sub_from_match _ _ _ _ _ j E J).
        rewrite (sub_from_match _ _ _ _ _ j M J).
        destruct (PathToURL config m) as [r|e]; [|reflexivity].
        cbn [bind]. rewrite IH by lia.
        destruct (sub_md pre j) as [t|e]; [|reflexivity].
        cbn [bind]. now rewrite append_assoc.
      * rewrite (sub_from_no_match _ _ _ _ E), (sub_from_no_match _ _ _ _ M).
        rewrite IH by lia.
        destruct (sub_md pre 0) as [t|e]; reflexivity.
    + cbn [String.length] in K. cbn [append Re.sub_from].
      apply IH. lia.
Qed.

Lemma sub_md_returns (s : string) (k : nat) : exists r, sub_md s k = Ok r.
Proof.
  revert k. induction s as [|c s IH]; intros k.
  - destruct k; cbn; eauto.
  - destruct k as [|k]; [|apply IH].
    destruct (Re.match_at MD_LINK_REGEX (String c s)) as [m|] eqn:M.
    + destruct (md_match_inv _ _ M) as (T & post & _ & _ & ->).
      rewrite (sub_from_match _ _ _ _ _ (8 + String.length T) M eq_refl).
      destruct (IH (8 + String.length T)) as [r ->]. cbn. eauto.
    + rewrite (sub_from_no_match _ _ _ _ M).
      destruct (IH 0) as [r ->]. cbn. eauto.
Qed.

Lemma sub_md_no_link (s : string) : ~ has_md_link s -> sub_md s 0 = Ok s.
Proof.
  induction s as [|c s IH]; intros N; [reflexivity|].
  destruct (Re.match_at MD_LINK_REGEX (String c s)) as [m|] eqn:M.
  - exfalso. apply N.
    destruct (md_match_inv _ _ M) as (T & post & E & HT & _).
    exists "", T, post. now split.
  - rewrite (sub_from_no_match _ _ _ _ M), IH; [reflexivity|].
    intros (pre & T & post & -> & HT). apply N.
    exists (String c pre), T, post. now split.
Qed.

End LinkRewriting.

Section PlainLinks.
Context {U : Utils}.
Variable config : Config.

Lemma sub_md_unmatched (y w : string) :
  (forall y1 y2, y = y1 ++ y2 -> y2 <> "" ->
                 Re.match_at MD_LINK_REGEX (y2 ++ w) = None) ->
  Re.sub_from MD_LINK_REGEX (PathToURL config) (y ++ w) 0
  = (r <- Re.sub_from MD_LINK_REGEX (PathToURL config) w 0 ;; Ok (y ++ r)).
Proof.
  induction y as [|c y IH]; intros H.
  - cbn [append]. now destruct (Re.sub_from _ _ w 0).
  - cbn [append].
    rewrite sub_from_no_match by (apply (H "" (String c y)); easy).
    rewrite IH.
    + now destruct (Re.sub_from _ _ w 0).
    + intros y1 y2 -> N. now apply (H (String c y1) y2).
Qed.

Lemma suffix_before_quote (a y T : string) :
  a ++ y = T ++ String Py.dquote "" -> y <> "" ->
  exists T2, y = T2 ++ String Py.dquote "" /\ T = a ++ T2.
Proof.
  revert T. induction a as [|c a IH]; intros T E N.
  - exists T. now split.
  - destruct T as [|t T].
    + cbn [append] in E. injection E as _ E.
      destruct a; [cbn in E; contradiction | discriminate].
    + cbn [append] in E. injection E as -> E.
      destruct (IH T E N) as (T2 & -> & ->). now exists T2.
Qed.

Lemma open_after_target (T2 post : string) :
  Py.contains T2 Py.dquote = false ->
  String.prefix a_href_open (T2 ++ String Py.dquote post) = true ->
  T2 = "a href=".
Proof.
  intros Q P. apply prefix_spec in P. destruct P as [r E].
  unfold a_href_open, Py.dquote in *. cbn [append] in E.
  do 7 (destruct T2 as [|c T2];
        [cbn [append] in E; discriminate E
        |cbn [append] in E; injection E as -> E;
         apply contains_cons in Q; destruct Q as [_ Q]]).
  destruct T2 as [|c T2]; [reflexivity|].
  cbn [append] in E. injection E as -> E.
  apply contains_cons in Q. destruct Q as [Q _]. discriminate Q.
Qed.

Lemma sub_md_plain_link (T post : string) :
  Py.contains T Py.dquote = false ->
  Py.endswith T ".md" = false ->
  Py.endswith T "a href=" = false ->
  Re.sub_from MD_LINK_REGEX (PathToURL config) (a_href T ++ post) 0
  = (r <- Re.sub_from MD_LINK_REGEX (PathToURL config) post 0 ;;
     Ok (a_href T ++ r)).
Proof.
  intros Q M A. apply sub_md_unmatched. intros y1 y2 E N.
  destruct y1 as [|c1 y1].
  { cbn [append] in E. subst y2.
    rewrite a_href_append, (md_match_at_link _ _ Q). now rewrite M. }
  apply md_match_no_open.
  destruct (String.prefix a_href_open (y2 ++ post)) eqn:P; [|reflexivity].
  exfalso. unfold a_href in E. cbn [append] in E. injection E as _ E.
  do 7 (destruct y1 as [|? y1];
        [cbn [append] in E; subst y2; vm_compute in P; discriminate P
        |cbn [append] in E; injection E as _ E]).
  symmetry in E. destruct (suffix_before_quote _ _ _ E N) as (T2 & -> & ->).
  rewrite contains_append in Q. apply orb_false_iff in Q. destruct Q as [_ Q].
  rewrite append_assoc in P. cbn [append] in P.
  rewrite (open_after_target _ _ Q P), endswith_append in A. discriminate.
Qed.

End PlainLinks.

(** ** Link rewriting of the page renderer *)

Section LinkRewritingTheorem.
Context {U : Utils}.

(** C8: the link rewrite returns normally on every content; every
    occurrence of a href=QTQ (Q the double quote) whose target T holds
    no quote and ends in .md is replaced by a href=QUQ with
    U = path_to_url(T, config), the text before and after it being
    rewritten on its own; a content without such an occurrence is
    returned unchanged, and a link whose target does not end in .md
    stays as it is between the rewritten texts around it (its closing
    quote must not open a further link, that is the target does not
    end in a href=). *)
Theorem replace_md_links_rewrites_md_targets (config : Config) :
  (forall content, exists r, replace_md_links config content = Ok r)
  /\ (forall pre target post pre' post',
        md_target target ->
        replace_md_links config pre = Ok pre' ->
        replace_md_links config post = Ok post' ->
        replace_md_links config (pre ++ a_href target ++ post)
        = Ok (pre' ++ a_href (path_to_url target config) ++ post'))
  /\ (forall content,
        ~ has_md_link content -> replace_md_links config content = Ok content)
  /\ (forall pre target post pre' post',
        Py.contains target Py.dquote = false ->
        Py.endswith target ".md" = false ->
        Py.endswith target "a href=" = false ->
        replace_md_links config pre = Ok pre' ->
        replace_md_links config post = Ok post' ->
        replace_md_links config (pre ++ a_href target ++ post)
        = Ok (pre' ++ a_href target ++ post'))
  /\ replace_md_links config (a_href "other.md")
     = Ok (a_href (path_to_url "other.md" config))
  /\ replace_md_links config (a_href "http://external")
     = Ok (a_href "http://external").
Proof.
  unfold replace_md_links, Re.sub.
  refine (conj _ (conj _ (conj _ (conj _ (conj _ _))))).
  - intros content. apply sub_md_returns.
  - intros pre target post pre' post' HT Hpre Hpost.
    assert (Z : Re.sub_from MD_LINK_REGEX (PathToURL config)
                  (a_href target ++ post) 0
                = Ok (a_href (path_to_url target config) ++ post'))
      by (rewrite (sub_md_link _ _ _ HT), Hpost; reflexivity).
    rewrite a_href_append in *.
    rewrite (sub_md_before_link _ _ _ _ 0 (Nat.le_0_l _) Z), Hpre.
    reflexivity.
  - intros content. apply sub_md_no_link.
  - intros pre target post pre' post' Q M A Hpre Hpost.
    assert (Z : Re.sub_from MD_LINK_REGEX (PathToURL config)
                  (a_href target ++ post) 0
                = Ok (a_href target ++ post'))
      by (rewrite (sub_md_plain_link _ _ _ Q M A), Hpost; reflexivity).
    rewrite a_href_append in *.
    rewrite (sub_md_before_link _ _ _ _ 0 (Nat.le_0_l _) Z), Hpre.
    reflexivity.
  - rewrite <- (append_nil_r (a_href "other.md")).
    rewrite sub_md_link by (split; reflexivity).
    replace (Re.sub_from MD_LINK_REGEX (PathToURL config) "" 0)
      with (@Ok string "") by reflexivity.
    cbn [bind]. now rewrite append_nil_r.
  - rewrite <- (append_nil_r (a_href "http://external")).
    rewrite sub_md_plain_link by reflexivity.
    replace (Re.sub_from MD_LINK_REGEX (PathToURL config) "" 0)
      with (@Ok string "") by reflexivity.
    cbn [bind]. now rewrite append_nil_r.
Qed.

End LinkRewritingTheorem.

(** ** Active-path marker *)

Lemma same_shape_refl (h : Heap) : same_shape h h.
Proof. split; [reflexivity | intros x; repeat split]. Qed.

Lemma same_shape_trans (h1 h2 h3 : Heap) :
  same_shape h1 h2 -> same_shape h2 h3 -> same_shape h1 h3.
Proof.
  intros [N1 S1] [N2 S2]. split; [congruence|].
  intros x. destruct (S1 x) as (? & ? & ?), (S2 x) as (? & ? & ?).
  repeat split; congruence.
Qed.

Lemma same_shape_set_active (h : Heap) (a : addr) (b : bool) :
  same_shape h (update h a (NavItem.set_active b)).
Proof.
  split; [reflexivity|]. intros x. rewrite cell_update.
  destruct (addr_eqb x a) eqn:E; [|repeat split].
  apply addr_eqb_eq in E. subst x. repeat split.
Qed.

Lemma matches_shape (h h' : Heap) (u : string) (x : addr) :
  same_shape h h' -> matches h' u x = matches h u x.
Proof. intros [_ S]. unfold matches. destruct (S x) as (_ & -> & _). reflexivity. Qed.

Lemma children_shape (h h' : Heap) (x : addr) :
  same_shape h h' ->
  NavItem.children (cell h' x) = NavItem.children (cell h x).
Proof. intros [_ S]. now destruct (S x) as (_ & _ & ->). Qed.

Lemma nav_nodes_shape (h h' : Heap) (nav : list addr) :
  same_shape h h' -> nav_nodes h' nav = nav_nodes h nav.
Proof.
  intros S. unfold nav_nodes. apply flat_map_ext. intros a.
  now rewrite (children_shape _ _ _ S).
Qed.

Lemma nav_children_shape (h h' : Heap) (nav : list addr) :
  same_shape h h' -> nav_children h' nav = nav_children h nav.
Proof.
  intros S. unfold nav_children. apply flat_map_ext. intros a.
  now rewrite (children_shape _ _ _ S).
Qed.

Lemma filter_matches_shape (h h' : Heap) (u : string) (l : list addr) :
  same_shape h h' -> filter (matches h' u) l = filter (matches h u) l.
Proof. intros S. apply filter_ext. intros x. now apply matches_shape. Qed.

Lemma existsb_matches_shape (h h' : Heap) (u : string) (l : list addr) :
  same_shape h h' -> existsb (matches h' u) l = existsb (matches h u) l.
Proof.
  intros S. induction l as [|x l IH]; [reflexivity|].
  cbn [existsb]. now rewrite IH, (matches_shape _ _ _ _ S).
Qed.

Lemma last_item_cons {A : Type} (x : A) (l : list A) :
  last_item (x :: l)
  = match last_item l with Some y => Some y | None => Some x end.
Proof.
  unfold last_item. cbn [rev]. destruct (rev l); reflexivity.
Qed.

Lemma last_item_app {A : Type} (l1 l2 : list A) :
  last_item (l1 ++ l2)
  = match last_item l2 with Some y => Some y | None => last_item l1 end.
Proof.
  unfold last_item. rewrite rev_app_distr.
  destruct (rev l2); [now rewrite app_nil_l | reflexivity].
Qed.

Lemma last_item_in {A : Type} (l : list A) (x : A) :
  last_item l = Some x -> In x l.
Proof.
  intros H. apply last_item_some in H. destruct H as [l' ->].
  apply in_or_app. right. now left.
Qed.

Lemma last_item_none {A : Type} (l : list A) : last_item l = None -> l = [].
Proof.
  unfold last_item. intros H. destruct (rev l) eqn:E; [|discriminate].
  rewrite <- (rev_involutive l), E. reflexivity.
Qed.

Lemma NoDup_app_inv {A : Type} (l1 l2 : list A) :
  NoDup (l1 ++ l2) ->
  NoDup l1 /\ NoDup l2 /\ forall a, In a l1 -> ~ In a l2.
Proof.
  induction l1 as [|x l1 IH]; cbn [app]; intros H.
  - split; [constructor | split; [exact H | intros a []]].
  - inversion_clear H as [|? ? Hx Hnd].
    destruct (IH Hnd) as (H1 & H2 & H3).
    split; [|split; [exact H2|]].
    + constructor; [|exact H1]. intros Hin. apply Hx, in_or_app. now left.
    + intros a [<-|Ha]; [|now apply H3].
      intros Hin. apply Hx, in_or_app. now right.
Qed.

Section ActiveFacts.
Context {U : Utils}.

Lemma set_nav_active_child_eq (u : string) (a : addr) (act : option addr)
    (h : Heap) (c : addr) :
  set_nav_active_child u a (act, h) c
  = if matches h u c
    then (Some c, update (update h c (NavItem.set_active true)) a
                         (NavItem.set_active true))
    else (act, update h c (NavItem.set_active false)).
Proof. reflexivity. Qed.

(** The loop over the children of [a]. *)
Lemma children_loop (u : string) (a : addr) (cs : list addr) :
  forall (act : option addr) (h : Heap) (act' : option addr) (h' : Heap),
  ~ In a cs -> NoDup cs ->
  fold_left (set_nav_active_child u a) cs (act, h) = (act', h') ->
  same_shape h h'
  /\ (forall x, x <> a -> ~ In x cs -> cell h' x = cell h x)
  /\ (forall c, In c cs -> is_active h' c = matches h u c)
  /\ is_active h' a = is_active h a || existsb (matches h u) cs
  /\ act' = last_match h u cs act.
Proof.
  induction cs as [|c cs IH]; intros act h act' h' Ha Hnd Hf.
  - cbn in Hf. injection Hf as <- <-.
    refine (conj (same_shape_refl _) (conj _ (conj _ (conj _ _))));
      try reflexivity; try (intros; contradiction).
    cbn [existsb]. now rewrite orb_false_r.
  - cbn [fold_left] in Hf. rewrite set_nav_active_child_eq in Hf.
    assert (Hca : c <> a) by (intros ->; apply Ha; now left).
    assert (Ha' : ~ In a cs) by (intros H; apply Ha; now right).
    inversion_clear Hnd as [|? ? Hc Hnd'].
    set (h1 := if matches h u c
               then update (update h c (NavItem.set_active true)) a
                           (NavItem.set_active true)
               else update h c (NavItem.set_active false)).
    set (act1 := if matches h u c then Some c else act).
    assert (Hf1 : fold_left (set_nav_active_child u a) cs (act1, h1)
                  = (act', h'))
      by (subst h1 act1; now destruct (matches h u c)).
    assert (S1 : same_shape h h1).
    { subst h1. destruct (matches h u c).
      - eapply same_shape_trans; apply same_shape_set_active.
      - apply same_shape_set_active. }
    assert (F1 : forall x, x <> a -> x <> c -> cell h1 x = cell h x).
    { intros x Hxa Hxc. subst h1.
      apply addr_eqb_neq in Hxa, Hxc.
      destruct (matches h u c); rewrite ?cell_update, ?Hxa, ?Hxc; reflexivity. }
    assert (C1 : is_active h1 c = matches h u c).
    { subst h1. unfold is_active. apply addr_eqb_neq in Hca.
      destruct (matches h u c);
        rewrite ?cell_update, ?Hca, ?addr_eqb_refl; reflexivity. }
    assert (A1 : is_active h1 a = is_active h a || matches h u c).
    { subst h1. unfold is_active.
      assert (Hac : addr_eqb a c = false) by (apply addr_eqb_neq; congruence).
      destruct (matches h u c);
        rewrite ?cell_update, ?Hac, ?addr_eqb_refl;
        [now rewrite orb_true_r | now rewrite orb_false_r]. }
    destruct (IH _ _ _ _ Ha' Hnd' Hf1) as (S & F & C & A & L).
    split; [eapply same_shape_trans; eauto|].
    split; [|split; [|split]].
    + intros x Hxa Hx. rewrite F; [apply F1; [exact Hxa|] | exact Hxa |].
      * intros ->. apply Hx. now left.
      * intros H. apply Hx. now right.
    + intros c' [<-|Hc'].
      * unfold is_active in *. rewrite F; [exact C1 | exact Hca | exact Hc].
      * rewrite (C c' Hc'). now apply matches_shape.
    + rewrite A, A1, (existsb_matches_shape _ _ _ _ S1). cbn [existsb].
      now rewrite orb_assoc.
    + rewrite L. unfold last_match.
      rewrite (filter_matches_shape _ _ _ _ S1). cbn [filter]. subst act1.
      destruct (matches h u c); [rewrite last_item_cons|];
        now destruct (last_item (filter (matches h u) cs)).
Qed.

Lemma set_nav_active_item_eq (u : string) (act : option addr) (h : Heap)
    (a : addr) :
  set_nav_active_item u (act, h) a
  = fold_left (set_nav_active_child u a) (NavItem.children (cell h a))
      (if matches h u a then Some a else act,
       update h a (NavItem.set_active (matches h u a))).
Proof.
  unfold set_nav_active_item, matches.
  destruct (url_eq (NavItem.url (cell h a)) u); cbn [snd];
    rewrite cell_update, addr_eqb_refl; reflexivity.
Qed.

(** The loop over the top-level items. *)
Lemma items_loop (u : string) (nav : list addr) :
  forall (act : option addr) (h : Heap) (act' : option addr) (h' : Heap),
  NoDup (nav_nodes h nav) ->
  fold_left (set_nav_active_item u) nav (act, h) = (act', h') ->
  same_shape h h'
  /\ (forall x, ~ In x (nav_nodes h nav) -> cell h' x = cell h x)
  /\ (forall a, In a nav ->
        is_active h' a
        = matches h u a || existsb (matches h u) (NavItem.children (cell h a)))
  /\ (forall c, In c (nav_children h nav) -> is_active h' c = matches h u c)
  /\ act' = last_match h u (nav_nodes h nav) act.
Proof.
  induction nav as [|a nav IH]; intros act h act' h' Hnd Hf.
  - cbn in Hf. injection Hf as <- <-.
    refine (conj (same_shape_refl _) (conj _ (conj _ (conj _ _))));
      try reflexivity; intros; contradiction.
  - cbn [fold_left] in Hf. rewrite set_nav_active_item_eq in Hf.
    set (cs := NavItem.children (cell h a)) in *.
    set (ha := update h a (NavItem.set_active (matches h u a))) in *.
    set (act0 := if matches h u a then Some a else act) in *.
    destruct (fold_left (set_nav_active_child u a) cs (act0, ha))
      as [act1 h1] eqn:Hin.
    change (nav_nodes h (a :: nav)) with ((a :: cs) ++ nav_nodes h nav)%list in *.
    assert (Sa : same_shape h ha) by apply same_shape_set_active.
    apply NoDup_app_inv in Hnd. destruct Hnd as (Hblock & Hrest & Hdisj).
    inversion_clear Hblock as [|? ? Hacs Hcs].
    destruct (children_loop u a cs _ _ _ _ Hacs Hcs Hin) as (S1 & F1 & C1 & A1 & L1).
    assert (S01 : same_shape h h1) by (eapply same_shape_trans; eauto).
    rewrite <- (nav_nodes_shape _ _ nav S01) in Hrest.
    destruct (IH _ _ _ _ Hrest Hf) as (S & F & A & C & L).
    rewrite (nav_nodes_shape _ _ nav S01) in *.
    assert (Block : forall x, In x (a :: cs) -> cell h' x = cell h1 x).
    { intros x Hx. apply F. intros Hx'. exact (Hdisj x Hx Hx'). }
    split; [eapply same_shape_trans; eauto|].
    split; [|split; [|split]].
    + intros x Hx. rewrite F.
      * rewrite F1.
        -- subst ha. rewrite cell_update.
           replace (addr_eqb x a) with false; [reflexivity|].
           symmetry. apply addr_eqb_neq. intros ->. apply Hx. now left.
        -- intros ->. apply Hx. now left.
        -- intros H. apply Hx. right. apply in_or_app. now left.
      * intros H. apply Hx. apply in_or_app. now right.
    + intros a' [<-|Ha'].
      * unfold is_active in *. rewrite (Block a (or_introl eq_refl)), A1.
        rewrite (existsb_matches_shape _ _ _ _ Sa). f_equal.
        subst ha. now rewrite cell_update, addr_eqb_refl.
      * rewrite (A a' Ha'), (matches_shape _ _ _ _ S01).
        rewrite (children_shape _ _ _ S01).
        now rewrite (existsb_matches_shape _ _ _ _ S01).
    + intros c Hc. change (nav_children h (a :: nav))
        with (cs ++ nav_children h nav)%list in Hc.
      apply in_app_or in Hc. destruct Hc as [Hc|Hc].
      * unfold is_active in *. rewrite (Block c (or_intror Hc)), (C1 c Hc).
        now apply matches_shape.
      * rewrite <- (nav_children_shape _ _ nav S01) in Hc.
        rewrite (C c Hc). now apply matches_shape.
    + rewrite L, L1. unfold last_match.
      rewrite (filter_matches_shape _ _ _ _ S01), (filter_matches_shape _ _ _ _ Sa).
      rewrite filter_app, last_item_app. cbn [filter]. subst act0.
      destruct (last_item (filter (matches h u) (nav_nodes h nav)));
        [reflexivity|].
      destruct (matches h u a); [rewrite last_item_cons|];
        now destruct (last_item (filter (matches h u) cs)).
Qed.

End ActiveFacts.

(** ** The tree built by [generate_nav] *)

Lemma nav_nodes_app (h : Heap) (l1 l2 : list addr) :
  nav_nodes h (l1 ++ l2) = (nav_nodes h l1 ++ nav_nodes h l2)%list.
Proof. apply flat_map_app. Qed.

Lemma urls_of_app (h : Heap) (l1 l2 : list addr) :
  urls_of h (l1 ++ l2) = (urls_of h l1 ++ urls_of h l2)%list.
Proof. apply flat_map_app. Qed.

Lemma nav_nodes_ext (h h' : Heap) (nav : list addr) :
  (forall a, In a nav ->
             NavItem.children (cell h' a) = NavItem.children (cell h a)) ->
  nav_nodes h' nav = nav_nodes h nav.
Proof.
  induction nav as [|a nav IH]; intros H; [reflexivity|].
  cbn [nav_nodes flat_map]. fold (nav_nodes h' nav) (nav_nodes h nav).
  rewrite (H a (or_introl eq_refl)), IH; [reflexivity|].
  intros b Hb. apply H. now right.
Qed.

Lemma urls_of_ext (h h' : Heap) (l : list addr) :
  (forall a, In a l -> NavItem.url (cell h' a) = NavItem.url (cell h a)) ->
  urls_of h' l = urls_of h l.
Proof.
  induction l as [|a l IH]; intros H; [reflexivity|].
  cbn [urls_of flat_map]. fold (urls_of h' l) (urls_of h l).
  rewrite (H a (or_introl eq_refl)), IH; [reflexivity|].
  intros b Hb. apply H. now right.
Qed.

Lemma in_nav_nodes_top (h : Heap) (nav : list addr) (a : addr) :
  In a nav -> In a (nav_nodes h nav).
Proof.
  intros H. apply in_flat_map. exists a. split; [exact H | now left].
Qed.

Lemma NoDup_snoc_fresh (l : list addr) (new : list addr) (n : addr) :
  NoDup l -> (forall x, In x l -> x < n) ->
  NoDup new -> (forall x, In x new -> n <= x) ->
  NoDup (l ++ new).
Proof.
  intros Hl Hlt Hnew Hge. apply NoDup_app; [exact Hl | exact Hnew|].
  intros a Ha Hb. specialize (Hlt a Ha). specialize (Hge a Hb). lia.
Qed.

Section BuilderFacts.
Context {U : Utils}.

(** One turn of the loop keeps the tree well formed and adds exactly
    one item with a URL, the URL of the page, after the others. *)
Lemma generate_nav_step_wf (config : Config) (ret : list addr) (h : Heap)
    (path title : string) (ret' : list addr) (h' : Heap) :
  nav_wf h ret ->
  generate_nav_step config (ret, h) (path, title) = (ret', h') ->
  nav_wf h' ret'
  /\ urls_of h' (nav_nodes h' ret')
     = (urls_of h (nav_nodes h ret) ++ [path_to_url path config])%list.
Proof.
  intros [Hnd Hlt] Hs. rewrite generate_nav_step_eq in Hs. cbv zeta in Hs.
  set (u := path_to_url path config) in *.
  set (pt := Py.strip (fst (fst (Py.partition title "/")))) in *.
  set (ct := Py.strip (snd (Py.partition title "/"))) in *.
  assert (Old : forall o x, In x (nav_nodes h ret) ->
                            cell (snd (alloc o h)) x = cell h x).
  { intros o x Hx. rewrite cell_alloc.
    replace (addr_eqb x (next h)) with false; [reflexivity|].
    symmetry. apply addr_eqb_neq. specialize (Hlt x Hx). lia. }
  assert (Group :
    nav_wf (snd (alloc (NavItem.mk pt None [next h] false)
                   (snd (alloc (NavItem.mk ct (Some u) [] false) h))))
           (ret ++ [S (next h)])
    /\ urls_of (snd (alloc (NavItem.mk pt None [next h] false)
                      (snd (alloc (NavItem.mk ct (Some u) [] false) h))))
         (nav_nodes (snd (alloc (NavItem.mk pt None [next h] false)
                      (snd (alloc (NavItem.mk ct (Some u) [] false) h))))
                    (ret ++ [S (next h)]))
       = (urls_of h (nav_nodes h ret) ++ [u])%list).
  { set (h1 := snd (alloc (NavItem.mk ct (Some u) [] false) h)).
    set (h2 := snd (alloc (NavItem.mk pt None [next h] false) h1)).
    assert (Old2 : forall x, In x (nav_nodes h ret) -> cell h2 x = cell h x).
    { intros x Hx. subst h2. rewrite cell_alloc.
      replace (addr_eqb x (next h1)) with false; [now apply Old|].
      symmetry. apply addr_eqb_neq. specialize (Hlt x Hx).
      subst h1. rewrite next_alloc. lia. }
    assert (N : nav_nodes h2 (ret ++ [S (next h)])
                = (nav_nodes h ret ++ [S (next h); next h])%list).
    { rewrite nav_nodes_app. f_equal.
      - apply nav_nodes_ext. intros a Ha.
        now rewrite (Old2 a (in_nav_nodes_top _ _ _ Ha)).
      - cbn [nav_nodes flat_map]. subst h2 h1. read_cells. reflexivity. }
    unfold nav_wf. rewrite N. split; [split|].
    - apply (NoDup_snoc_fresh _ _ (next h)); [exact Hnd | exact Hlt | |].
      + constructor; [intros [H|[]]; lia | constructor; [intros [] | constructor]].
      + intros x [<-|[<-|[]]]; lia.
    - intros x Hx. subst h2 h1. rewrite !next_alloc.
      apply in_app_or in Hx. destruct Hx as [Hx|[<-|[<-|[]]]]; try lia.
      specialize (Hlt x Hx). lia.
    - rewrite urls_of_app. f_equal.
      + apply urls_of_ext. intros a Ha. now rewrite (Old2 a Ha).
      + cbn [urls_of flat_map]. subst h2 h1. read_cells. reflexivity. }
  destruct (is_empty ct).
  - (* New top level nav item *)
    apply pair_equal_spec in Hs; destruct Hs as [<- <-].
    set (h1 := snd (alloc (NavItem.mk pt (Some u) [] false) h)).
    assert (N : nav_nodes h1 (ret ++ [next h])
                = (nav_nodes h ret ++ [next h])%list).
    { rewrite nav_nodes_app. f_equal.
      - apply nav_nodes_ext. intros a Ha. subst h1.
        now rewrite (Old _ a (in_nav_nodes_top _ _ _ Ha)).
      - cbn [nav_nodes flat_map]. subst h1. read_cells. reflexivity. }
    unfold nav_wf. rewrite N. split; [split|].
    + apply (NoDup_snoc_fresh _ _ (next h)); [exact Hnd | exact Hlt | |].
      * constructor; [intros [] | constructor].
      * intros x [<-|[]]. lia.
    + intros x Hx. subst h1. rewrite next_alloc.
      apply in_app_or in Hx. destruct Hx as [Hx|[<-|[]]]; [|lia].
      specialize (Hlt x Hx). lia.
    + rewrite urls_of_app. f_equal.
      * apply urls_of_ext. intros a Ha. subst h1. now rewrite (Old _ a Ha).
      * cbn [urls_of flat_map]. subst h1. read_cells. reflexivity.
  - destruct (last_item ret) as [l|] eqn:Hl.
    2:{ apply pair_equal_spec in Hs; destruct Hs as [<- <-]. exact Group. }
    destruct (String.eqb (NavItem.title (cell h l)) pt).
    2:{ apply pair_equal_spec in Hs; destruct Hs as [<- <-]. exact Group. }
    (* Additional second level nav item *)
    apply pair_equal_spec in Hs; destruct Hs as [<- <-].
    apply last_item_some in Hl. destruct Hl as [ret0 ->].
    set (h1 := snd (alloc (NavItem.mk ct (Some u) [] false) h)).
    set (h2 := update h1 l (NavItem.append_child (next h))).
    assert (M : nav_nodes h (ret0 ++ [l])
                = (nav_nodes h ret0 ++ l :: NavItem.children (cell h l))%list).
    { rewrite nav_nodes_app. cbn [nav_nodes flat_map]. now rewrite app_nil_r. }
    rewrite M in Hnd, Hlt.
    destruct (NoDup_app_inv _ _ Hnd) as (_ & _ & Hdisj).
    assert (Hln : l < next h)
      by (apply Hlt, in_or_app; right; now left).
    assert (Cl : cell h2 l = NavItem.append_child (next h) (cell h l)).
    { subst h2 h1. rewrite cell_update, addr_eqb_refl, cell_alloc.
      replace (addr_eqb l (next h)) with false; [reflexivity|].
      symmetry. apply addr_eqb_neq. lia. }
    assert (Oth : forall x, x < next h -> x <> l -> cell h2 x = cell h x).
    { intros x Hx Hxl. subst h2 h1. rewrite cell_update.
      replace (addr_eqb x l) with false
        by (symmetry; apply addr_eqb_neq; exact Hxl).
      rewrite cell_alloc.
      replace (addr_eqb x (next h)) with false; [reflexivity|].
      symmetry. apply addr_eqb_neq. lia. }
    assert (N : nav_nodes h2 (ret0 ++ [l])
                = ((nav_nodes h ret0 ++ l :: NavItem.children (cell h l))
                   ++ [next h])%list).
    { rewrite nav_nodes_app. rewrite <- app_assoc. f_equal.
      - apply nav_nodes_ext. intros a Ha. rewrite Oth; [reflexivity| |].
        + apply Hlt, in_or_app. left. now apply in_nav_nodes_top.
        + intros ->. apply (Hdisj l); [now apply in_nav_nodes_top | now left].
      - cbn [nav_nodes flat_map]. rewrite Cl, app_nil_r. reflexivity. }
    unfold nav_wf. rewrite N, M. split; [split|].
    + apply (NoDup_snoc_fresh _ _ (next h)); [exact Hnd | exact Hlt | |].
      * constructor; [intros [] | constructor].
      * intros x [<-|[]]. lia.
    + intros x Hx. subst h2 h1. rewrite next_update, next_alloc.
      apply in_app_or in Hx. destruct Hx as [Hx|[<-|[]]]; [|lia].
      specialize (Hlt x Hx). lia.
    + rewrite urls_of_app. f_equal.
      * apply urls_of_ext. intros a Ha.
        destruct (Nat.eq_dec a l) as [->|Hal].
        -- now rewrite Cl.
        -- rewrite Oth; [reflexivity | now apply Hlt | exact Hal].
      * cbn [urls_of flat_map]. subst h2 h1. rewrite cell_update.
        replace (addr_eqb (next h) l) with false
          by (symmetry; apply addr_eqb_neq; lia).
        now rewrite cell_alloc, addr_eqb_refl.
Qed.

Lemma generate_nav_loop_wf (config : Config) (ps : list (string * string)) :
  forall (ret : list addr) (h : Heap) (ret' : list addr) (h' : Heap),
  nav_wf h ret ->
  fold_left (generate_nav_step config) ps (ret, h) = (ret', h') ->
  nav_wf h' ret'
  /\ urls_of h' (nav_nodes h' ret')
     = (urls_of h (nav_nodes h ret)
        ++ map (fun p => path_to_url (fst p) config) ps)%list.
Proof.
  induction ps as [|[path title] ps IH]; intros ret h ret' h' W Hf.
  - cbn in Hf. injection Hf as <- <-. now rewrite app_nil_r.
  - cbn [fold_left] in Hf.
    destruct (generate_nav_step config (ret, h) (path, title))
      as [ret1 h1] eqn:Hs.
    destruct (generate_nav_step_wf _ _ _ _ _ _ _ W Hs) as [W1 U1].
    destruct (IH _ _ _ _ W1 Hf) as [W' U'].
    split; [exact W'|]. rewrite U', U1, <- app_assoc. reflexivity.
Qed.

(** The tree of [generate_nav]: distinct objects, and the URLs of its
    items, read in display order, are the URLs of the pages in declared
    order. *)
Lemma generate_nav_wf (config : Config) (h : Heap) (nav : list addr)
    (h0 : Heap) :
  generate_nav config h = (nav, h0) ->
  nav_wf h0 nav
  /\ urls_of h0 (nav_nodes h0 nav)
     = map (fun p => path_to_url (fst p) config) (pages config).
Proof.
  intros H. apply (generate_nav_loop_wf config (pages config) [] h).
  - split; [constructor | intros x []].
  - exact H.
Qed.

Lemma after_calls_shape (config : Config) (nav : list addr)
    (paths : list string) :
  forall h, NoDup (nav_nodes h nav) ->
            same_shape h (after_calls config nav paths h).
Proof.
  induction paths as [|p paths IH]; intros h Hnd.
  - apply same_shape_refl.
  - cbn [after_calls fold_left].
    destruct (set_nav_active p config nav h) as [act h1] eqn:E.
    destruct (items_loop _ _ _ _ _ _ Hnd E) as (S & _).
    eapply same_shape_trans; [exact S|]. apply IH.
    now rewrite (nav_nodes_shape _ _ _ S).
Qed.

End BuilderFacts.

Lemma url_eq_spec (o : option string) (u : string) :
  url_eq o u = true <-> o = Some u.
Proof.
  destruct o as [v|]; cbn [url_eq].
  - rewrite String.eqb_eq. split; congruence.
  - split; discriminate.
Qed.

Lemma in_urls_of (h : Heap) (l : list addr) (u : string) :
  In u (urls_of h l) <-> exists x, In x l /\ NavItem.url (cell h x) = Some u.
Proof.
  unfold urls_of. rewrite in_flat_map. split; intros (x & Hx & H); exists x.
  - split; [exact Hx|]. destruct (NavItem.url (cell h x)); cbn in H; [|tauto].
    destruct H as [->|[]]. reflexivity.
  - split; [exact Hx|]. rewrite H. now left.
Qed.

Lemma filter_none {A : Type} (f : A -> bool) (l : list A) :
  (forall x, In x l -> f x = false) -> filter f l = [].
Proof.
  induction l as [|x l IH]; intros H; [reflexivity|].
  cbn [filter]. rewrite (H x (or_introl eq_refl)). apply IH.
  intros y Hy. apply H. now right.
Qed.

(** Distinct URLs: at most one item carries a given URL. *)
Lemma one_match (h : Heap) (u : string) (l : list addr) :
  NoDup (urls_of h l) -> List.length (filter (matches h u) l) <= 1.
Proof.
  induction l as [|x l IH]; intros Hnd; [cbn; lia|].
  change (urls_of h (x :: l))
    with ((match NavItem.url (cell h x) with Some v => [v] | None => [] end)
          ++ urls_of h l)%list in Hnd.
  cbn [filter]. destruct (matches h u x) eqn:Mx.
  - apply url_eq_spec in Mx. rewrite Mx in Hnd. cbn [app] in Hnd.
    inversion_clear Hnd as [|? ? Hu _].
    rewrite filter_none; [cbn; lia|].
    intros y Hy. destruct (matches h u y) eqn:My; [|reflexivity].
    exfalso. apply Hu, in_urls_of. exists y. split; [exact Hy|].
    now apply url_eq_spec.
  - apply IH. now apply NoDup_app_remove_l in Hnd.
Qed.

Lemma count_nav_nodes (f : addr -> bool) (h : Heap) (nav : list addr) :
  List.length (filter f (nav_nodes h nav))
  = List.length (filter f nav) + List.length (filter f (nav_children h nav)).
Proof.
  induction nav as [|a nav IH]; [reflexivity|].
  change (nav_nodes h (a :: nav))
    with (a :: NavItem.children (cell h a) ++ nav_nodes h nav)%list.
  change (nav_children h (a :: nav))
    with (NavItem.children (cell h a) ++ nav_children h nav)%list.
  cbn [filter]. rewrite !filter_app.
  destruct (f a); cbn [List.length]; rewrite !length_app, IH; lia.
Qed.

(** An item is active only through a match in its block: the active
    top-level items are no more than the items carrying the URL. *)
Lemma count_active_top (h h' : Heap) (u : string) (nav : list addr) :
  (forall a, In a nav ->
     is_active h' a
     = matches h u a || existsb (matches h u) (NavItem.children (cell h a))) ->
  List.length (filter (is_active h') nav)
  <= List.length (filter (matches h u) (nav_nodes h nav)).
Proof.
  induction nav as [|a nav IH]; intros H; [cbn; lia|].
  change (nav_nodes h (a :: nav))
    with (a :: NavItem.children (cell h a) ++ nav_nodes h nav)%list.
  cbn [filter]. rewrite filter_app.
  assert (IH' : List.length (filter (is_active h') nav)
                <= List.length (filter (matches h u) (nav_nodes h nav)))
    by (apply IH; intros b Hb; apply H; now right).
  rewrite (H a (or_introl eq_refl)).
  destruct (matches h u a); cbn [orb List.length].
  - rewrite length_app. lia.
  - destruct (existsb (matches h u) (NavItem.children (cell h a))) eqn:E.
    + apply existsb_exists in E. destruct E as (c & Hc & Mc).
      assert (Hin : In c (filter (matches h u) (NavItem.children (cell h a))))
        by (apply filter_In; now split).
      rewrite length_app. cbn [List.length].
      destruct (filter (matches h u) (NavItem.children (cell h a)));
        [contradiction | cbn [List.length]; lia].
    + rewrite length_app. lia.
Qed.

Section ActiveTheorems.
Context {U : Utils}.

(** The state of a tree of [generate_nav] after any earlier calls and a
    call of [set_nav_active] for [path]. *)
Lemma set_nav_active_result (config : Config) (h : Heap) (nav : list addr)
    (h0 : Heap) (earlier : list string) (path : string)
    (active : option addr) (h2 : Heap) :
  generate_nav config h = (nav, h0) ->
  set_nav_active path config nav (after_calls config nav earlier h0)
  = (active, h2) ->
  let u := path_to_url path config in
  same_shape h0 h2
  /\ NoDup (nav_nodes h2 nav)
  /\ urls_of h2 (nav_nodes h2 nav)
     = map (fun p => path_to_url (fst p) config) (pages config)
  /\ (forall a, In a nav ->
        is_active h2 a
        = matches h2 u a || existsb (matches h2 u) (NavItem.children (cell h2 a)))
  /\ (forall c, In c (nav_children h2 nav) -> is_active h2 c = matches h2 u c)
  /\ active = last_match h2 u (nav_nodes h2 nav) None.
Proof.
  intros G Hs u.
  destruct (generate_nav_wf _ _ _ _ G) as [[Hnd _] Hu].
  pose proof (after_calls_shape config nav earlier h0 Hnd) as S1.
  set (h1 := after_calls config nav earlier h0) in *.
  assert (Hnd1 : NoDup (nav_nodes h1 nav))
    by (now rewrite (nav_nodes_shape _ _ _ S1)).
  destruct (items_loop _ _ _ _ _ _ Hnd1 Hs) as (S & _ & A & C & L).
  assert (S02 : same_shape h0 h2) by (eapply same_shape_trans; eauto).
  split; [exact S02|]. split; [|split; [|split; [|split]]].
  - now rewrite (nav_nodes_shape _ _ _ S02).
  - rewrite (nav_nodes_shape _ _ _ S02), <- Hu.
    apply urls_of_ext. intros a _. destruct S02 as [_ S02].
    now destruct (S02 a) as (_ & -> & _).
  - intros a Ha. rewrite (A a Ha), (children_shape _ _ _ S).
    now rewrite (matches_shape _ _ _ _ S), (existsb_matches_shape _ _ _ _ S).
  - intros c Hc. rewrite (nav_children_shape _ _ _ S) in Hc.
    now rewrite (C c Hc), (matches_shape _ _ _ _ S).
  - rewrite L. unfold last_match.
    now rewrite (nav_nodes_shape _ _ _ S), (filter_matches_shape _ _ _ _ S).
Qed.

(** C4: after a call of set_nav_active on a tree of generate_nav,
    whatever calls came before it on the same tree, every child is
    active exactly when its url is the URL of the page, and every
    top-level item is active exactly when its own url or the url of one
    of its children is; an item without url is active only with an
    active child; titles, urls and children are those generate_nav
    gave. *)
Theorem set_nav_active_marks_current_page (config : Config) (h : Heap)
    (nav : list addr) (h0 : Heap) (earlier : list string) (path : string)
    (active : option addr) (h2 : Heap) :
  generate_nav config h = (nav, h0) ->
  set_nav_active path config nav (after_calls config nav earlier h0)
  = (active, h2) ->
  let url := path_to_url path config in
  same_shape h0 h2
  /\ forall item, In item nav ->
       (NavItem.active (cell h2 item) = true
        <-> NavItem.url (cell h2 item) = Some url
            \/ exists child, In child (NavItem.children (cell h2 item))
                             /\ NavItem.url (cell h2 child) = Some url)
       /\ (forall child, In child (NavItem.children (cell h2 item)) ->
             (NavItem.active (cell h2 child) = true
              <-> NavItem.url (cell h2 child) = Some url))
       /\ (NavItem.url (cell h2 item) = None ->
           NavItem.active (cell h2 item) = true ->
           exists child, In child (NavItem.children (cell h2 item))
                         /\ NavItem.active (cell h2 child) = true).
Proof.
  intros G Hs url.
  destruct (set_nav_active_result _ _ _ _ _ _ _ _ G Hs) as (S & _ & _ & A & C & _).
  fold url in A, C. split; [exact S|]. intros item Hitem.
  assert (Top : NavItem.active (cell h2 item) = true
                <-> NavItem.url (cell h2 item) = Some url
                    \/ exists child, In child (NavItem.children (cell h2 item))
                                     /\ NavItem.url (cell h2 child) = Some url).
  { change (NavItem.active (cell h2 item)) with (is_active h2 item).
    rewrite (A item Hitem), orb_true_iff, existsb_exists.
    unfold matches. rewrite url_eq_spec.
    split; (intros [H|(c & Hc & H)]; [now left | right; exists c]);
      (split; [exact Hc | now apply url_eq_spec]). }
  assert (Child : forall child, In child (NavItem.children (cell h2 item)) ->
            (NavItem.active (cell h2 child) = true
             <-> NavItem.url (cell h2 child) = Some url)).
  { intros child Hc.
    change (NavItem.active (cell h2 child)) with (is_active h2 child).
    rewrite C.
    - unfold matches. apply url_eq_spec.
    - apply in_flat_map. now exists item. }
  split; [exact Top|]. split; [exact Child|].
  intros Hnone Hact. apply Top in Hact.
  destruct Hact as [H|(c & Hc & H)]; [congruence|].
  exists c. split; [exact Hc | now apply Child].
Qed.

(** C10: for every page of config.pages, set_nav_active returns an item
    of the tree of generate_nav, never None, and the url of that item is
    the URL of the page. *)
Theorem set_nav_active_finds_every_page (config : Config) (h : Heap)
    (nav : list addr) (h0 : Heap) (earlier : list string)
    (path title : string) :
  generate_nav config h = (nav, h0) ->
  In (path, title) (pages config) ->
  exists item h2,
    set_nav_active path config nav (after_calls config nav earlier h0)
    = (Some item, h2)
    /\ In item (nav_nodes h2 nav)
    /\ NavItem.url (cell h2 item) = Some (path_to_url path config).
Proof.
  intros G Hp.
  destruct (set_nav_active path config nav (after_calls config nav earlier h0))
    as [active h2] eqn:Hs.
  destruct (set_nav_active_result _ _ _ _ _ _ _ _ G Hs) as (_ & _ & Hu & _ & _ & L).
  set (u := path_to_url path config) in *.
  assert (Hin : In u (urls_of h2 (nav_nodes h2 nav))).
  { rewrite Hu. apply in_map_iff. now exists (path, title). }
  apply in_urls_of in Hin. destruct Hin as (x & Hx & Hux).
  assert (Hf : In x (filter (matches h2 u) (nav_nodes h2 nav))).
  { apply filter_In. split; [exact Hx|]. now apply url_eq_spec. }
  unfold last_match in L.
  destruct (last_item (filter (matches h2 u) (nav_nodes h2 nav)))
    as [item|] eqn:E.
  - apply last_item_in, filter_In in E. destruct E as [Hi Mi].
    exists item, h2. rewrite L. split; [reflexivity|].
    split; [exact Hi | now apply url_eq_spec].
  - apply last_item_none in E. rewrite E in Hf. contradiction.
Qed.

(** C3, as the code has it: when the pages of the config resolve to
    distinct URLs, after a call of set_nav_active at most one item of the
    tree carries the URL of the page, at most one top-level item is
    active and at most one child is active; an active child makes its
    parent active too, so up to two items are active. *)
Theorem at_most_one_item_and_its_parent_active (config : Config) (h : Heap)
    (nav : list addr) (h0 : Heap) (earlier : list string) (path : string)
    (active : option addr) (h2 : Heap) :
  NoDup (map (fun p => path_to_url (fst p) config) (pages config)) ->
  generate_nav config h = (nav, h0) ->
  set_nav_active path config nav (after_calls config nav earlier h0)
  = (active, h2) ->
  let url := path_to_url path config in
  List.length (filter (matches h2 url) (nav_nodes h2 nav)) <= 1
  /\ List.length (filter (is_active h2) nav) <= 1
  /\ List.length (filter (is_active h2) (nav_children h2 nav)) <= 1
  /\ List.length (filter (is_active h2) (nav_nodes h2 nav)) <= 2
  /\ (forall item child,
        In item nav -> In child (NavItem.children (cell h2 item)) ->
        is_active h2 child = true -> is_active h2 item = true).
Proof.
  intros Hnd G Hs url.
  destruct (set_nav_active_result _ _ _ _ _ _ _ _ G Hs) as (_ & _ & Hu & A & C & _).
  fold url in A, C.
  assert (One : List.length (filter (matches h2 url) (nav_nodes h2 nav)) <= 1)
    by (apply one_match; now rewrite Hu).
  assert (Top : List.length (filter (is_active h2) nav) <= 1).
  { pose proof (count_active_top h2 h2 url nav A). lia. }
  assert (Chi : List.length (filter (is_active h2) (nav_children h2 nav)) <= 1).
  { rewrite (filter_ext_in (is_active h2) (matches h2 url)) by exact C.
    pose proof (count_nav_nodes (matches h2 url) h2 nav). lia. }
  split; [exact One|]. split; [exact Top|]. split; [exact Chi|]. split.
  - rewrite count_nav_nodes. lia.
  - intros item child Hi Hc Hact.
    rewrite (A item Hi). rewrite C in Hact by (apply in_flat_map; now exists item).
    apply orb_true_iff. right. apply existsb_exists. now exists child.
Qed.

End ActiveTheorems.

(** Closed instances on the tree of [guide_config], for the page c.md
    rendered after a.md and d.md. *)

Lemma set_nav_active_marks_current_page_witness :
  let r := set_nav_active (U := spec_utils) "c.md" guide_config guide_nav
             guide_heap_visited in
  let url := path_to_url (U := spec_utils) "c.md" guide_config in
  same_shape guide_heap (snd r)
  /\ forall item, In item guide_nav ->
       (NavItem.active (cell (snd r) item) = true
        <-> NavItem.url (cell (snd r) item) = Some url
            \/ exists child, In child (NavItem.children (cell (snd r) item))
                             /\ NavItem.url (cell (snd r) child) = Some url)
       /\ (forall child, In child (NavItem.children (cell (snd r) item)) ->
             (NavItem.active (cell (snd r) child) = true
              <-> NavItem.url (cell (snd r) child) = Some url))
       /\ (NavItem.url (cell (snd r) item) = None ->
           NavItem.active (cell (snd r) item) = true ->
           exists child, In child (NavItem.children (cell (snd r) item))
                         /\ NavItem.active (cell (snd r) child) = true).
Proof.
  exact (set_nav_active_marks_current_page (U := spec_utils) guide_config
           empty_heap guide_nav guide_heap ["a.md"; "d.md"] "c.md" _ _
           eq_refl (surjective_pairing _)).
Defined.

Lemma set_nav_active_finds_every_page_witness :
  exists item h2,
    set_nav_active (U := spec_utils) "c.md" guide_config guide_nav
      guide_heap_visited = (Some item, h2)
    /\ In item (nav_nodes h2 guide_nav)
    /\ NavItem.url (cell h2 item)
       = Some (path_to_url (U := spec_utils) "c.md" guide_config).
Proof.
  apply (set_nav_active_finds_every_page (U := spec_utils) guide_config
           empty_heap guide_nav guide_heap ["a.md"; "d.md"] "c.md" "Guide/Run").
  - reflexivity.
  - cbn. tauto.
Defined.

Lemma at_most_one_item_and_its_parent_active_witness :
  let r := set_nav_active (U := spec_utils) "c.md" guide_config guide_nav
             guide_heap_visited in
  let url := path_to_url (U := spec_utils) "c.md" guide_config in
  List.length (filter (matches (snd r) url) (nav_nodes (snd r) guide_nav)) <= 1
  /\ List.length (filter (is_active (snd r)) guide_nav) <= 1
  /\ List.length (filter (is_active (snd r)) (nav_children (snd r) guide_nav)) <= 1
  /\ List.length (filter (is_active (snd r)) (nav_nodes (snd r) guide_nav)) <= 2
  /\ (forall item child,
        In item guide_nav -> In child (NavItem.children (cell (snd r) item)) ->
        is_active (snd r) child = true -> is_active (snd r) item = true).
Proof.
  apply (at_most_one_item_and_its_parent_active (U := spec_utils) guide_config
           empty_heap guide_nav guide_heap ["a.md"; "d.md"] "c.md"
           (fst (set_nav_active (U := spec_utils) "c.md" guide_config guide_nav
                   guide_heap_visited))).
  - vm_compute.
    repeat (constructor; [intros H; cbn in H; intuition discriminate|]).
    constructor.
  - reflexivity.
  - apply surjective_pairing.
Defined.

(** C3, as stated, fails: after the call for c.md two items of the tree
    of [guide_config] are active, the child Run and its parent Guide. *)
Lemma parent_and_child_both_active :
  let r := set_nav_active (U := spec_utils) "c.md" guide_config guide_nav
             guide_heap in
  filter (is_active (snd r)) (nav_nodes (snd r) guide_nav) = [2; 3]
  /\ NavItem.title (cell (snd r) 2) = "Guide"
  /\ NavItem.title (cell (snd r) 3) = "Run"
  /\ ~ List.length (filter (is_active (snd r)) (nav_nodes (snd r) guide_nav)) <= 1.
Proof.
  vm_compute. repeat split. lia.
Qed.

(** * Further properties *)

(** ** URL resolver: the shape of the URLs *)

Lemma replace_append (a b : string) (old new : ascii) :
  Py.replace (a ++ b) old new = Py.replace a old new ++ Py.replace b old new.
Proof. induction a as [|c a IH]; cbn; [reflexivity | now rewrite IH]. Qed.

Lemma replace_removes (s : string) (old new : ascii) :
  Ascii.eqb old new = false -> Py.contains (Py.replace s old new) old = false.
Proof.
  intros N. induction s as [|c s IH]; [reflexivity|].
  cbn [Py.replace Py.contains]. rewrite IH, orb_false_r.
  destruct (Ascii.eqb_spec c old) as [->|Hc]; [exact N|].
  apply Ascii.eqb_neq. congruence.
Qed.

Lemma replace_absent (s : string) (old new : ascii) :
  Py.contains s old = false -> Py.replace s old new = s.
Proof.
  induction s as [|c s IH]; [reflexivity|].
  cbn [Py.contains Py.replace]. intros H.
  apply orb_false_iff in H. destruct H as [Hc Hs].
  rewrite Ascii.eqb_sym, Hc, (IH Hs). reflexivity.
Qed.

Lemma ends_slash_index (a r : string) :
  Py.endswith (a ++ "/" ++ r) "/index" = true ->
  r = "index" \/ exists r', r = r' ++ "/index".
Proof.
  intros H. apply endswith_spec in H. destruct H as [u H].
  revert u H. induction a as [|c a IH]; intros u H.
  - destruct u as [|x u]; cbn in H.
    + left. now injection H.
    + right. injection H as _ H. now exists u.
  - destruct u as [|x u].
    + cbn in H. injection H as _ H. now apply slash_not_index in H.
    + cbn [append] in H. injection H as _ H. exact (IH u H).
Qed.

Section UrlShape.
Context {U : Utils}.

(** The URL of a path, written over the text [r] that follows the base
    URL and its slash before the index rule applies. *)
Lemma clean_url_cases (config : Config) (path : string) :
  local_files config = false ->
  let r := Py.replace (fst (Py.splitext path)) Py.pathsep "/" in
  (r = "index" /\ path_to_url path config = base_url config ++ "/")
  \/ (exists r', r = r' ++ "/index"
                 /\ path_to_url path config = base_url config ++ "/" ++ r' ++ "/")
  \/ (r <> "index" /\ Py.endswith r "/index" = false
      /\ path_to_url path config = base_url config ++ "/" ++ r ++ "/").
Proof.
  intros H r. rewrite (clean_url_unfold _ _ H). cbv zeta. fold r.
  destruct (String.eqb_spec (base_url config ++ "/" ++ r) "index") as [E|_];
    [now apply slash_not_index in E|].
  rewrite orb_false_l.
  destruct (Py.endswith (base_url config ++ "/" ++ r) "/index") eqn:E.
  - destruct (ends_slash_index _ _ E) as [->|[r' ->]].
    + left. split; [reflexivity|].
      change (base_url config ++ "/" ++ "index")
        with (base_url config ++ "/index").
      apply rstrip_slash_index.
    + right. left. exists r'. split; [reflexivity|].
      replace (base_url config ++ "/" ++ r' ++ "/index")
        with ((base_url config ++ "/" ++ r') ++ "/index")
        by (now rewrite !append_assoc).
      rewrite rstrip_slash_index. now rewrite !append_assoc.
  - right. right. split; [|split].
    + intros ->. change (base_url config ++ "/" ++ "index")
        with (base_url config ++ "/index") in E.
      now rewrite endswith_append in E.
    + destruct (Py.endswith r "/index") eqn:E'; [|reflexivity].
      apply endswith_spec in E'. destruct E' as [u ->].
      replace (base_url config ++ "/" ++ u ++ "/index")
        with ((base_url config ++ "/" ++ u) ++ "/index") in E
        by (now rewrite !append_assoc).
      now rewrite endswith_append in E.
    + now rewrite !append_assoc.
Qed.

(** X1: in both URL modes the URL of a path is the base URL, a slash,
    and a rest that holds no os.path.pathsep character (every colon of
    the path has been replaced by a slash). *)
Theorem path_to_url_under_base_url (config : Config) (path : string) :
  exists rest,
    path_to_url path config = base_url config ++ "/" ++ rest
    /\ Py.contains rest Py.pathsep = false.
Proof.
  destruct (local_files config) eqn:L.
  - exists (Py.replace (get_html_path path) Py.pathsep "/"). split.
    + unfold path_to_url. now rewrite L.
    + now apply replace_removes.
  - pose proof (replace_removes (fst (Py.splitext path)) Py.pathsep "/" eq_refl)
      as R.
    destruct (clean_url_cases config path L) as [[_ E]|[(r' & Hr & E)|(_ & _ & E)]].
    + exists "". split; [exact E | reflexivity].
    + exists (r' ++ "/"). split; [exact E|].
      rewrite Hr, contains_append in R. apply orb_false_iff in R.
      rewrite contains_append. now rewrite (proj1 R).
    + exists (Py.replace (fst (Py.splitext path)) Py.pathsep "/" ++ "/").
      split; [exact E|]. rewrite contains_append. now rewrite R.
Qed.

End UrlShape.

(** ** URL resolver: index pages and plain pages *)

Lemma rfind_from_append (a b : string) (c : ascii) :
  forall (i f : Z),
  Py.rfind_from i (a ++ b) c f
  = Py.rfind_from (i + Z.of_nat (String.length a)) b c (Py.rfind_from i a c f).
Proof.
  induction a as [|x a IH]; intros i f.
  - cbn. now rewrite Z.add_0_r.
  - cbn [append Py.rfind_from String.length]. rewrite IH. f_equal. lia.
Qed.

Lemma rfind_from_absent (s : string) (c : ascii) :
  Py.contains s c = false -> forall i f, Py.rfind_from i s c f = f.
Proof.
  induction s as [|x s IH]; intros H i f; [reflexivity|].
  cbn [Py.contains] in H. apply orb_false_iff in H. destruct H as [Hx Hs].
  cbn [Py.rfind_from]. rewrite Ascii.eqb_sym, Hx. now apply IH.
Qed.

(** The last occurrence lies inside the text; when it is the last
    position, the text ends with the character. *)
Lemma rfind_from_bounds (s : string) (c : ascii) :
  forall (i f : Z),
  (Py.contains s c = false /\ Py.rfind_from i s c f = f)
  \/ (Py.contains s c = true
      /\ (i <= Py.rfind_from i s c f < i + Z.of_nat (String.length s))%Z
      /\ (Py.rfind_from i s c f = (i + Z.of_nat (String.length s) - 1)%Z ->
          last_char s = Some c)).
Proof.
  induction s as [|x s IH]; intros i f.
  - left. now split.
  - cbn [Py.rfind_from Py.contains String.length].
    destruct (IH (i + 1)%Z (if Ascii.eqb x c then i else f))
      as [[Hs E]|(Hs & B & L)]; rewrite Hs.
    + rewrite E, orb_false_r, (Ascii.eqb_sym c x).
      destruct (Ascii.eqb_spec x c) as [->|N]; [right | now left].
      split; [reflexivity|]. split; [lia|].
      intros K. destruct s; [reflexivity | cbn [String.length] in K; lia].
    + right. rewrite orb_true_r. split; [reflexivity|]. split; [lia|].
      intros K. cbn [last_char]. destruct s as [|y s]; [discriminate|].
      apply L. lia.
Qed.

Lemma substring_skip (a b : string) (k n : nat) :
  substring (String.length a + k) n (a ++ b) = substring k n b.
Proof. induction a as [|x a IH]; [reflexivity | exact IH]. Qed.

Lemma substring_0_more (a b : string) (k : nat) :
  substring 0 (String.length a + k) (a ++ b) = a ++ substring 0 k b.
Proof.
  induction a as [|x a IH]; [reflexivity|].
  cbn [String.length Nat.add append substring]. now rewrite IH.
Qed.

Lemma substring_within (a b : string) (i n : nat) :
  i + n <= String.length a -> substring i n (a ++ b) = substring i n a.
Proof.
  revert i n. induction a as [|x a IH]; intros i n H.
  - cbn [String.length] in H. replace i with 0 by lia. replace n with 0 by lia.
    destruct b; reflexivity.
  - cbn [String.length] in H. destruct i as [|i].
    + destruct n as [|n]; [reflexivity|].
      cbn [append substring]. rewrite IH by lia. reflexivity.
    + cbn [append substring]. apply IH. lia.
Qed.

Lemma substring_contains (s : string) (c : ascii) :
  forall i n, Py.contains (substring i n s) c = true -> Py.contains s c = true.
Proof.
  induction s as [|x s IH]; intros i n H.
  - destruct i, n; cbn in H; discriminate.
  - cbn [Py.contains]. destruct i as [|i].
    + destruct n as [|n]; [discriminate|].
      cbn [substring Py.contains] in H. apply orb_true_iff in H.
      destruct H as [H|H]; [now rewrite H | rewrite (IH _ _ H)].
      apply orb_true_r.
    + cbn [substring] in H. rewrite (IH _ _ H). apply orb_true_r.
Qed.

Lemma substring_nonempty (s : string) :
  forall i n, i < String.length s -> 0 < n -> substring i n s <> "".
Proof.
  induction s as [|x s IH]; intros i n Hi Hn; [cbn in Hi; lia|].
  destruct i as [|i].
  - destruct n; [lia | discriminate].
  - cbn [substring]. apply IH; [cbn [String.length] in Hi; lia | exact Hn].
Qed.

Lemma all_chars_contains (c : ascii) (s : string) :
  Py.all_chars (Ascii.eqb c) s = true -> s = "" \/ Py.contains s c = true.
Proof.
  destruct s as [|x s]; [now left|]. cbn [Py.all_chars Py.contains].
  intros H. apply andb_true_iff in H. right. now rewrite (proj1 H).
Qed.

(** [splitext] on the index page of a directory. *)
Lemma splitext_index_md (d : string) :
  Py.splitext (d ++ "/index.md") = (d ++ "/index", ".md").
Proof.
  unfold Py.splitext, Py.rfind. rewrite !rfind_from_append.
  set (n := Z.of_nat (String.length d)).
  replace (Py.rfind_from (0 + n) "/index.md" "/" (Py.rfind_from 0 d "/" (-1)))
    with n by (cbv [Py.rfind_from Ascii.eqb Bool.eqb]; lia).
  replace (Py.rfind_from (0 + n) "/index.md" "." (Py.rfind_from 0 d "." (-1)))
    with (n + 6)%Z by (cbv [Py.rfind_from Ascii.eqb Bool.eqb]; lia).
  replace (n + 6 >? n)%Z with true by (symmetry; apply Z.gtb_lt; lia).
  unfold Py.slice, Py.slice_from.
  replace (Z.to_nat (n + 1)) with (String.length d + 1) by lia.
  replace (Z.to_nat (n + 6 - (n + 1))) with 5 by lia.
  replace (Z.to_nat (n + 6)) with (String.length d + 6) by lia.
  replace (Z.to_nat 0) with 0 by lia.
  replace (Z.to_nat (n + 6 - 0)) with (String.length d + 6) by lia.
  rewrite substring_skip, substring_0_more.
  cbn [substring Py.all_chars Ascii.eqb Bool.eqb andb]. cbv iota.
  rewrite length_append. cbn [String.length].
  replace (String.length d + 9 - (String.length d + 6)) with 3 by lia.
  now rewrite substring_skip.
Qed.

(** [splitext] on a page whose stem has no dot and names a file. *)
Lemma splitext_plain_md (d : string) :
  Py.contains d "." = false -> d <> "" -> last_char d <> Some "/"%char ->
  Py.splitext (d ++ ".md") = (d, ".md").
Proof.
  intros Hdot Hne Hlast.
  unfold Py.splitext, Py.rfind. rewrite !rfind_from_append.
  set (n := Z.of_nat (String.length d)).
  rewrite (rfind_from_absent d "." Hdot).
  replace (Py.rfind_from (0 + n) ".md" "." (-1)) with n
    by (cbv [Py.rfind_from Ascii.eqb Bool.eqb]; lia).
  set (s := Py.rfind_from 0 d "/" (-1)).
  replace (Py.rfind_from (0 + n) ".md" "/" s) with s by reflexivity.
  assert (B : (-1 <= s < n - 1)%Z).
  { subst s n. destruct (rfind_from_bounds d "/" 0 (-1)) as [[_ E]|(_ & B & L)].
    - rewrite E. destruct d; [contradiction | cbn [String.length]; lia].
    - assert (Py.rfind_from 0 d "/" (-1)
              <> (0 + Z.of_nat (String.length d) - 1)%Z)
        by (intros K; now apply Hlast, L).
      lia. }
  replace (n >? s)%Z with true by (symmetry; apply Z.gtb_lt; lia).
  unfold Py.slice, Py.slice_from.
  replace (Z.to_nat 0) with 0 by lia.
  replace (Z.to_nat (n - 0)) with (String.length d + 0) by lia.
  replace (Z.to_nat n) with (String.length d + 0) by lia.
  rewrite substring_0_more, substring_skip, length_append.
  cbn [String.length substring]. rewrite append_nil_r.
  replace (String.length d + 3 - (String.length d + 0)) with 3 by lia.
  rewrite substring_within by lia.
  destruct (Py.all_chars (Ascii.eqb ".")
              (substring (Z.to_nat (s + 1)) (Z.to_nat (n - (s + 1))) d)) eqn:A;
    [|reflexivity].
  exfalso. apply all_chars_contains in A. destruct A as [A|A].
  - revert A. apply substring_nonempty; lia.
  - apply substring_contains in A. congruence.
Qed.

Section UrlPages.
Context {U : Utils}.

Lemma clean_url_of_index_md (config : Config) (d : string) :
  local_files config = false ->
  path_to_url (d ++ "/index.md") config
  = base_url config ++ "/" ++ Py.replace d Py.pathsep "/" ++ "/".
Proof.
  intros H. rewrite (clean_url_unfold _ _ H). cbv zeta.
  rewrite splitext_index_md. cbn [fst]. rewrite replace_append.
  change (Py.replace "/index" Py.pathsep "/") with "/index".
  replace (base_url config ++ "/" ++ Py.replace d Py.pathsep "/" ++ "/index")
    with ((base_url config ++ "/" ++ Py.replace d Py.pathsep "/") ++ "/index")
    by (now rewrite !append_assoc).
  rewrite endswith_append, orb_true_r, rstrip_slash_index.
  now rewrite !append_assoc.
Qed.

(** X2: in clean-URL mode the index page of a directory d, at
    d/index.md, gets the URL of the directory: the base URL, a slash, d
    with its colons replaced by slashes, and a slash; the five
    characters of index are dropped and nothing more. *)
Theorem index_page_gets_directory_url (config : Config) (d : string) :
  local_files config = false ->
  path_to_url (d ++ "/index.md") config
  = base_url config ++ "/" ++ Py.replace d Py.pathsep "/" ++ "/".
Proof. intros H. now apply clean_url_of_index_md. Qed.

(** X3: in clean-URL mode a page d.md whose stem d has no dot and no
    colon, names a file, and is not an index page gets the URL base/d/,
    which is also the URL of the index page d/index.md: the two sources
    collide on one URL. *)
Theorem page_shares_url_with_its_index_page (config : Config) (d : string) :
  local_files config = false ->
  Py.contains d "." = false -> Py.contains d Py.pathsep = false ->
  d <> "" -> last_char d <> Some "/"%char ->
  d <> "index" -> Py.endswith d "/index" = false ->
  path_to_url (d ++ ".md") config = base_url config ++ "/" ++ d ++ "/"
  /\ path_to_url (d ++ ".md") config = path_to_url (d ++ "/index.md") config.
Proof.
  intros H Hdot Hsep Hne Hlast Hidx Hend.
  assert (E : path_to_url (d ++ ".md") config = base_url config ++ "/" ++ d ++ "/").
  { pose proof (clean_url_cases config (d ++ ".md") H) as C. cbv zeta in C.
    rewrite (splitext_plain_md d Hdot Hne Hlast) in C. cbn [fst] in C.
    rewrite (replace_absent _ _ _ Hsep) in C.
    destruct C as [[K _]|[(r' & K & _)|(_ & _ & K)]].
    - contradiction.
    - rewrite K, endswith_append in Hend. discriminate.
    - exact K. }
  split; [exact E|].
  now rewrite E, (clean_url_of_index_md _ _ H), (replace_absent _ _ _ Hsep).
Qed.

Lemma index_first (pre post : list string) (x : string) :
  ~ In x pre -> Py.index (pre ++ x :: post) x = Ok (List.length pre).
Proof.
  induction pre as [|y pre IH]; intros H.
  - cbn. now rewrite String.eqb_refl.
  - cbn [app Py.index List.length].
    destruct (String.eqb_spec y x) as [->|_]; [exfalso; apply H; now left|].
    rewrite IH; [reflexivity|]. intros K. apply H. now right.
Qed.

(** X4: path_to_previous_and_next_urls works from the first
    occurrence of the path in config.pages, duplicates or not: the
    previous URL is that of the entry just before it (nothing when it
    is the first entry), the next URL that of the entry just after it
    (nothing when it is the last). *)
Theorem prev_next_of_first_occurrence (config : Config)
    (before after : list (string * string)) (path title : string) :
  pages config = (before ++ (path, title) :: after)%list ->
  ~ In path (map fst before) ->
  path_to_previous_and_next_urls path config
  = Ok (match last_item before with
        | Some p => Some (path_to_url (fst p) config)
        | None => None
        end,
        match after with
        | q :: _ => Some (path_to_url (fst q) config)
        | [] => None
        end).
Proof.
  intros Hp Hn.
  assert (I : Py.index (map fst (pages config)) path
              = Ok (List.length before)).
  { rewrite Hp, map_app. cbn [map fst].
    rewrite <- (length_map fst before). now apply index_first. }
  rewrite (prev_next_unfold _ _ _ I), Hp. f_equal. f_equal.
  - destruct (last_item before) as [p|] eqn:L.
    + apply last_item_some in L. destruct L as [b' ->].
      rewrite length_app. cbn [List.length].
      replace (List.length b' + 1) with (S (List.length b')) by lia.
      rewrite <- app_assoc. cbn [app].
      rewrite nth_error_app2 by lia. rewrite Nat.sub_diag. reflexivity.
    + apply last_item_none in L. now subst before.
  - replace (S (List.length before)) with (List.length before + 1) by lia.
    rewrite nth_error_app2 by lia.
    replace (List.length before + 1 - List.length before) with 1 by lia.
    now destruct after.
Qed.

End UrlPages.

(** ** The tree built by [generate_nav]: structure *)

Lemma nav_children_in_nodes (h : Heap) (nav : list addr) (c : addr) :
  In c (nav_children h nav) -> In c (nav_nodes h nav).
Proof.
  unfold nav_children, nav_nodes. rewrite !in_flat_map.
  intros (a & Ha & Hc). exists a. split; [exact Ha | now right].
Qed.

Lemma in_nav_nodes (h : Heap) (nav : list addr) (x : addr) :
  In x (nav_nodes h nav) <-> In x nav \/ In x (nav_children h nav).
Proof.
  unfold nav_nodes, nav_children. rewrite !in_flat_map. split.
  - intros (a & Ha & [<-|Hx]); [now left | right; now exists a].
  - intros [Hx|(a & Ha & Hx)]; [exists x | exists a];
      (split; [assumption|]); [now left | now right].
Qed.

Lemma nav_top_not_child (h : Heap) (nav : list addr) :
  NoDup (nav_nodes h nav) ->
  forall a, In a nav -> ~ In a (nav_children h nav).
Proof.
  induction nav as [|a0 nav IH]; intros Hnd a Ha Hc; [contradiction|].
  change (nav_nodes h (a0 :: nav))
    with (a0 :: NavItem.children (cell h a0) ++ nav_nodes h nav)%list in Hnd.
  change (nav_children h (a0 :: nav))
    with (NavItem.children (cell h a0) ++ nav_children h nav)%list in Hc.
  inversion_clear Hnd as [|? ? H0 Hnd'].
  destruct (NoDup_app_inv _ _ Hnd') as (_ & Hrest & Hdisj).
  apply in_app_or in Hc. destruct Ha as [<-|Ha], Hc as [Hc|Hc].
  - apply H0, in_or_app. now left.
  - apply H0, in_or_app. right. now apply nav_children_in_nodes.
  - apply (Hdisj a Hc). now apply in_nav_nodes_top.
  - exact (IH Hrest a Ha Hc).
Qed.

Section BuilderStructure.
Context {U : Utils}.

(** The three outcomes of one turn of the loop of [generate_nav]. *)
Lemma generate_nav_step_cases (config : Config) (ret : list addr) (h : Heap)
    (path title : string) (ret' : list addr) (h' : Heap) :
  (forall x, In x ret -> x < next h) ->
  generate_nav_step config (ret, h) (path, title) = (ret', h') ->
  let n := next h in
  let u := path_to_url path config in
  exists pt ct,
    (ret' = (ret ++ [n])%list /\ next h' = S n
     /\ cell h' n = NavItem.mk pt (Some u) [] false
     /\ (forall x, x <> n -> cell h' x = cell h x))
    \/ (ret' = (ret ++ [S n])%list /\ next h' = S (S n)
        /\ cell h' n = NavItem.mk ct (Some u) [] false
        /\ cell h' (S n) = NavItem.mk pt None [n] false
        /\ (forall x, x <> n -> x <> S n -> cell h' x = cell h x))
    \/ (exists ret0 l,
          ret = (ret0 ++ [l])%list /\ ret' = ret /\ next h' = S n
          /\ cell h' n = NavItem.mk ct (Some u) [] false
          /\ cell h' l = NavItem.append_child n (cell h l)
          /\ (forall x, x <> n -> x <> l -> cell h' x = cell h x)).
Proof.
  intros Hlt Hs n u. rewrite generate_nav_step_eq in Hs. cbv zeta in Hs.
  fold u n in Hs.
  set (pt := Py.strip (fst (fst (Py.partition title "/")))) in *.
  set (ct := Py.strip (snd (Py.partition title "/"))) in *.
  exists pt, ct.
  assert (Group :
    forall r hh,
      ((ret ++ [S n])%list,
       snd (alloc (NavItem.mk pt None [n] false)
              (snd (alloc (NavItem.mk ct (Some u) [] false) h)))) = (r, hh) ->
      r = (ret ++ [S n])%list /\ next hh = S (S n)
      /\ cell hh n = NavItem.mk ct (Some u) [] false
      /\ cell hh (S n) = NavItem.mk pt None [n] false
      /\ (forall x, x <> n -> x <> S n -> cell hh x = cell h x)).
  { intros r hh E. apply pair_equal_spec in E. destruct E as [<- <-].
    subst n. split; [reflexivity|]. split; [reflexivity|].
    split; [read_cells; reflexivity|]. split; [read_cells; reflexivity|].
    intros x H1 H2. read_cells. reflexivity. }
  destruct (is_empty ct).
  - left. apply pair_equal_spec in Hs. destruct Hs as [<- <-]. subst n.
    split; [reflexivity|]. split; [reflexivity|].
    split; [read_cells; reflexivity|].
    intros x H1. read_cells. reflexivity.
  - destruct (last_item ret) as [l|] eqn:Hl; [|right; left; now apply Group].
    destruct (String.eqb (NavItem.title (cell h l)) pt);
      [|right; left; now apply Group].
    right. right. apply pair_equal_spec in Hs. destruct Hs as [<- <-].
    apply last_item_some in Hl. destruct Hl as [ret0 ->].
    assert (Hln : l < n) by (apply Hlt, in_or_app; right; now left).
    exists ret0, l. subst n.
    split; [reflexivity|]. split; [reflexivity|]. split; [reflexivity|].
    split; [read_cells; reflexivity|]. split; [read_cells; reflexivity|].
    intros x H1 H2. read_cells. reflexivity.
Qed.

End BuilderStructure.

Lemma nav_children_app (h : Heap) (l1 l2 : list addr) :
  nav_children h (l1 ++ l2) = (nav_children h l1 ++ nav_children h l2)%list.
Proof. apply flat_map_app. Qed.

Lemma nav_children_ext (h h' : Heap) (nav : list addr) :
  (forall a, In a nav ->
             NavItem.children (cell h' a) = NavItem.children (cell h a)) ->
  nav_children h' nav = nav_children h nav.
Proof.
  induction nav as [|a nav IH]; intros H; [reflexivity|].
  cbn [nav_children flat_map]. fold (nav_children h' nav) (nav_children h nav).
  rewrite (H a (or_introl eq_refl)), IH; [reflexivity|].
  intros b Hb. apply H. now right.
Qed.

Section BuilderInvariant.
Context {U : Utils}.

Lemma nav_built_step (config : Config) (hs : Heap) (ret : list addr)
    (h : Heap) (path title : string) (ret' : list addr) (h' : Heap) :
  nav_built hs h ret ->
  generate_nav_step config (ret, h) (path, title) = (ret', h') ->
  nav_built hs h' ret'
  /\ next h < next h' <= 2 + next h
  /\ List.length ret' <= S (List.length ret).
Proof.
  intros (W & N0 & Lo & Fr & Ch & Gr & Ac) Hs.
  destruct (generate_nav_step_wf _ _ _ _ _ _ _ W Hs) as [W' _].
  destruct W as [Hnd Hlt].
  assert (Top : forall x, In x ret -> x < next h)
    by (intros x Hx; now apply Hlt, in_nav_nodes_top).
  destruct (generate_nav_step_cases _ _ _ _ _ _ _ Top Hs) as (pt & ct & Cases).
  cbv zeta in Cases. set (n := next h) in *.
  set (u := path_to_url path config) in *.
  assert (Old : forall x, In x (nav_nodes h ret) -> x <> n /\ x <> S n)
    by (intros x Hx; specialize (Hlt x Hx); lia).
  destruct Cases as [(-> & Nx & Cn & Same)
                    |[(-> & Nx & Cn & Cp & Same)
                     |(ret0 & l & -> & -> & Nx & Cn & Cl & Same)]].
  - (* New top level nav item *)
    assert (Keep : forall x, In x (nav_nodes h ret) -> cell h' x = cell h x)
      by (intros x Hx; apply Same; now apply Old).
    assert (Nn : nav_nodes h' (ret ++ [n]) = (nav_nodes h ret ++ [n])%list).
    { rewrite nav_nodes_app. f_equal.
      - apply nav_nodes_ext. intros a Ha.
        now rewrite (Keep a (in_nav_nodes_top _ _ _ Ha)).
      - cbn [nav_nodes flat_map]. now rewrite Cn. }
    assert (Nc : nav_children h' (ret ++ [n]) = nav_children h ret).
    { rewrite nav_children_app.
      cbn [nav_children flat_map]. rewrite Cn. cbn [NavItem.children].
      rewrite !app_nil_r. apply nav_children_ext. intros a Ha.
      now rewrite (Keep a (in_nav_nodes_top _ _ _ Ha)). }
    split; [|split; [lia | rewrite length_app; cbn [List.length]; lia]].
    split; [exact W'|]. split; [lia|]. rewrite Nn, Nc.
    split; [|split; [|split; [|split]]].
    + intros x Hx. apply in_app_or in Hx.
      destruct Hx as [Hx|[<-|[]]]; [now apply Lo | exact N0].
    + intros x Hx. rewrite Same by lia. now apply Fr.
    + intros c Hc.
      rewrite (Keep c (nav_children_in_nodes _ _ _ Hc)). now apply Ch.
    + intros a Ha. apply in_app_or in Ha. destruct Ha as [Ha|[<-|[]]].
      * rewrite (Keep a (in_nav_nodes_top _ _ _ Ha)). now apply Gr.
      * rewrite Cn. discriminate.
    + intros x Hx. apply in_app_or in Hx. destruct Hx as [Hx|[<-|[]]].
      * rewrite (Keep x Hx). now apply Ac.
      * now rewrite Cn.
  - (* New second level nav item *)
    assert (Keep : forall x, In x (nav_nodes h ret) -> cell h' x = cell h x)
      by (intros x Hx; apply Same; now apply Old).
    assert (Nn : nav_nodes h' (ret ++ [S n])
                 = (nav_nodes h ret ++ [S n; n])%list).
    { rewrite nav_nodes_app. f_equal.
      - apply nav_nodes_ext. intros a Ha.
        now rewrite (Keep a (in_nav_nodes_top _ _ _ Ha)).
      - cbn [nav_nodes flat_map]. now rewrite Cp. }
    assert (Nc : nav_children h' (ret ++ [S n])
                 = (nav_children h ret ++ [n])%list).
    { rewrite nav_children_app. f_equal.
      - apply nav_children_ext. intros a Ha.
        now rewrite (Keep a (in_nav_nodes_top _ _ _ Ha)).
      - cbn [nav_children flat_map]. now rewrite Cp. }
    split; [|split; [lia | rewrite length_app; cbn [List.length]; lia]].
    split; [exact W'|]. split; [lia|]. rewrite Nn, Nc.
    split; [|split; [|split; [|split]]].
    + intros x Hx. apply in_app_or in Hx.
      destruct Hx as [Hx|[<-|[<-|[]]]]; [now apply Lo | lia | exact N0].
    + intros x Hx. rewrite Same by lia. now apply Fr.
    + intros c Hc. apply in_app_or in Hc. destruct Hc as [Hc|[<-|[]]].
      * rewrite (Keep c (nav_children_in_nodes _ _ _ Hc)). now apply Ch.
      * rewrite Cn. split; [reflexivity | discriminate].
    + intros a Ha. apply in_app_or in Ha. destruct Ha as [Ha|[<-|[]]].
      * rewrite (Keep a (in_nav_nodes_top _ _ _ Ha)). now apply Gr.
      * rewrite Cp. discriminate.
    + intros x Hx. apply in_app_or in Hx. destruct Hx as [Hx|[<-|[<-|[]]]].
      * rewrite (Keep x Hx). now apply Ac.
      * now rewrite Cp.
      * now rewrite Cn.
  - (* Additional second level nav item *)
    assert (Hl : In l (ret0 ++ [l])) by (apply in_or_app; right; now left).
    assert (Keep : forall x, In x (nav_nodes h (ret0 ++ [l])) -> x <> l ->
                             cell h' x = cell h x)
      by (intros x Hx Hxl; apply Same; [now apply Old | exact Hxl]).
    assert (Hl0 : ~ In l ret0).
    { intros K. rewrite nav_nodes_app in Hnd.
      destruct (NoDup_app_inv _ _ Hnd) as (_ & _ & D).
      apply (D l (in_nav_nodes_top _ _ _ K)). now left. }
    assert (K0 : forall a, In a ret0 -> cell h' a = cell h a).
    { intros a Ha. apply Keep.
      - apply in_nav_nodes_top, in_or_app. now left.
      - intros ->. contradiction. }
    assert (Nn : nav_nodes h' (ret0 ++ [l])
                 = (nav_nodes h (ret0 ++ [l]) ++ [n])%list).
    { rewrite !nav_nodes_app, <- app_assoc. f_equal.
      - apply nav_nodes_ext. intros a Ha. now rewrite (K0 a Ha).
      - cbn [nav_nodes flat_map]. rewrite Cl. cbn [NavItem.append_child
          NavItem.children]. now rewrite !app_nil_r. }
    assert (Nc : nav_children h' (ret0 ++ [l])
                 = (nav_children h (ret0 ++ [l]) ++ [n])%list).
    { rewrite !nav_children_app, <- app_assoc. f_equal.
      - apply nav_children_ext. intros a Ha. now rewrite (K0 a Ha).
      - cbn [nav_children flat_map]. rewrite Cl. cbn [NavItem.append_child
          NavItem.children]. now rewrite !app_nil_r. }
    split; [|split; [lia | lia]].
    split; [exact W'|]. split; [lia|]. rewrite Nn, Nc.
    split; [|split; [|split; [|split]]].
    + intros x Hx. apply in_app_or in Hx.
      destruct Hx as [Hx|[<-|[]]]; [now apply Lo | exact N0].
    + intros x Hx. rewrite Same; [now apply Fr | lia |].
      specialize (Lo l (in_nav_nodes_top _ _ _ Hl)). lia.
    + intros c Hc. apply in_app_or in Hc. destruct Hc as [Hc|[<-|[]]].
      * rewrite Keep; [now apply Ch | now apply nav_children_in_nodes |].
        intros ->. exact (nav_top_not_child _ _ Hnd l Hl Hc).
      * rewrite Cn. split; [reflexivity | discriminate].
    + intros a Ha. destruct (Nat.eq_dec a l) as [->|Hal].
      * intros _. rewrite Cl. cbn [NavItem.append_child NavItem.children].
        intros K. now apply app_eq_nil in K.
      * rewrite Keep; [now apply Gr | now apply in_nav_nodes_top | exact Hal].
    + intros x Hx. apply in_app_or in Hx. destruct Hx as [Hx|[<-|[]]].
      * destruct (Nat.eq_dec x l) as [->|Hxl].
        -- rewrite Cl. cbn [NavItem.append_child NavItem.active].
           now apply Ac.
        -- rewrite (Keep x Hx Hxl). now apply Ac.
      * now rewrite Cn.
Qed.

Lemma nav_built_loop (config : Config) (hs : Heap)
    (ps : list (string * string)) :
  forall (ret : list addr) (h : Heap) (ret' : list addr) (h' : Heap),
  nav_built hs h ret ->
  fold_left (generate_nav_step config) ps (ret, h) = (ret', h') ->
  nav_built hs h' ret'
  /\ next h + List.length ps <= next h' <= next h + 2 * List.length ps
  /\ List.length ret' <= List.length ret + List.length ps.
Proof.
  induction ps as [|[path title] ps IH]; intros ret h ret' h' B Hf.
  - cbn in Hf. apply pair_equal_spec in Hf. destruct Hf as [<- <-].
    split; [exact B | cbn [List.length]; lia].
  - cbn [fold_left] in Hf.
    destruct (generate_nav_step config (ret, h) (path, title))
      as [ret1 h1] eqn:Hs.
    destruct (nav_built_step _ _ _ _ _ _ _ _ B Hs) as (B1 & N1 & L1).
    destruct (IH _ _ _ _ B1 Hf) as (B' & N' & L').
    split; [exact B' | cbn [List.length]; lia].
Qed.

Lemma generate_nav_built (config : Config) (h : Heap) (nav : list addr)
    (h0 : Heap) :
  generate_nav config h = (nav, h0) ->
  nav_built h h0 nav
  /\ next h + List.length (pages config) <= next h0
     <= next h + 2 * List.length (pages config)
  /\ List.length nav <= List.length (pages config).
Proof.
  intros G. apply (nav_built_loop config h (pages config) [] h nav h0).
  - split; [split; [constructor | intros x []]|].
    split; [lia|].
    split; [intros x []|]. split; [reflexivity|].
    split; [intros c []|]. split; [intros a []|intros x []].
  - exact G.
Qed.

End BuilderInvariant.

Section BuilderTheorems.
Context {U : Utils}.

(** X5: the items of the tree of generate_nav are distinct objects,
    and the urls of the items that have one, read in display order
    (every top-level item followed by its children), are the URLs of
    config.pages in declared order; there are no more top-level items
    than pages. *)
Theorem generate_nav_lists_pages_in_order (config : Config) (h : Heap)
    (nav : list addr) (h0 : Heap) :
  generate_nav config h = (nav, h0) ->
  urls_of h0 (nav_nodes h0 nav)
  = map (fun p => path_to_url (fst p) config) (pages config)
  /\ NoDup (nav_nodes h0 nav)
  /\ List.length nav <= List.length (pages config).
Proof.
  intros G. destruct (generate_nav_wf _ _ _ _ G) as [[Hnd _] Hu].
  destruct (generate_nav_built _ _ _ _ G) as (_ & _ & L).
  now repeat split.
Qed.

(** X6: the tree of generate_nav has two levels: every child of a
    top-level item is a leaf and has a url, and a top-level item without
    url (a group header) has at least one child. *)
Theorem generate_nav_builds_two_levels (config : Config) (h : Heap)
    (nav : list addr) (h0 : Heap) :
  generate_nav config h = (nav, h0) ->
  (forall item child,
     In item nav -> In child (NavItem.children (cell h0 item)) ->
     NavItem.children (cell h0 child) = []
     /\ exists u, NavItem.url (cell h0 child) = Some u)
  /\ (forall item,
        In item nav -> NavItem.url (cell h0 item) = None ->
        NavItem.children (cell h0 item) <> []).
Proof.
  intros G.
  destruct (generate_nav_built _ _ _ _ G) as ((_ & _ & _ & _ & Ch & Gr & _) & _).
  split; [|exact Gr]. intros item child Hi Hc.
  destruct (Ch child) as [E N].
  - apply in_flat_map. now exists item.
  - split; [exact E|]. destruct (NavItem.url (cell h0 child)) as [u|];
      [now exists u | contradiction].
Qed.

(** X7: generate_nav only allocates: the objects that existed before
    the call are unchanged, every item of the tree is a new object with
    active = false, and the call creates at least one and at most two
    objects per page. *)
Theorem generate_nav_allocates_inactive_items (config : Config) (h : Heap)
    (nav : list addr) (h0 : Heap) :
  generate_nav config h = (nav, h0) ->
  (forall x, x < next h -> cell h0 x = cell h x)
  /\ (forall x, In x (nav_nodes h0 nav) ->
        next h <= x < next h0 /\ NavItem.active (cell h0 x) = false)
  /\ next h + List.length (pages config) <= next h0
     <= next h + 2 * List.length (pages config).
Proof.
  intros G.
  destruct (generate_nav_built _ _ _ _ G)
    as (((_ & Hi) & _ & Lo & Fr & _ & _ & Ac) & N & _).
  split; [exact Fr|]. split; [|exact N].
  intros x Hx. split; [split; [now apply Lo | now apply Hi] | now apply Ac].
Qed.

End BuilderTheorems.

(** ** Active-path marker: what a call depends on and what it leaves *)

Lemma navitem_eq (o o' : NavItem.t) :
  NavItem.title o = NavItem.title o' -> NavItem.url o = NavItem.url o' ->
  NavItem.children o = NavItem.children o' ->
  NavItem.active o = NavItem.active o' -> o = o'.
Proof. destruct o, o'. cbn. now intros -> -> -> ->. Qed.

Lemma last_filter_split {A : Type} (f : A -> bool) (l : list A) (x : A) :
  last_item (filter f l) = Some x ->
  f x = true
  /\ exists before after,
       l = (before ++ x :: after)%list /\ forall y, In y after -> f y = false.
Proof.
  induction l as [|a l IH]; intros H; [discriminate|].
  cbn [filter] in H.
  destruct (last_item (filter f l)) as [y|] eqn:L.
  - assert (H' : Some y = Some x).
    { destruct (f a); [rewrite last_item_cons, L in H|rewrite L in H]; exact H. }
    injection H' as ->. destruct (IH eq_refl) as (Fx & b & c & -> & Hc).
    split; [exact Fx|]. now exists (a :: b), c.
  - apply last_item_none in L. destruct (f a) eqn:Fa.
    + rewrite L in H. cbn in H. injection H as <-.
      split; [exact Fa|]. exists [], l. split; [reflexivity|].
      intros y Hy. destruct (f y) eqn:Fy; [|reflexivity].
      assert (K : In y (filter f l)) by (apply filter_In; now split).
      rewrite L in K. contradiction.
    + rewrite L in H. discriminate.
Qed.

Section MarkerFacts.
Context {U : Utils}.

Lemma set_nav_active_frame (path : string) (config : Config)
    (nav : list addr) (h : Heap) (active : option addr) (h' : Heap) :
  NoDup (nav_nodes h nav) ->
  set_nav_active path config nav h = (active, h') ->
  same_shape h h'
  /\ forall x, ~ In x (nav_nodes h nav) -> cell h' x = cell h x.
Proof.
  intros Hnd Hs. destruct (items_loop _ _ _ _ _ _ Hnd Hs) as (S & F & _).
  now split.
Qed.

Lemma after_calls_frame (config : Config) (nav : list addr)
    (paths : list string) :
  forall h, NoDup (nav_nodes h nav) ->
  forall x, ~ In x (nav_nodes h nav) ->
            cell (after_calls config nav paths h) x = cell h x.
Proof.
  induction paths as [|p paths IH]; intros h Hnd x Hx; [reflexivity|].
  cbn [after_calls fold_left].
  destruct (set_nav_active p config nav h) as [act h1] eqn:E.
  destruct (set_nav_active_frame _ _ _ _ _ _ Hnd E) as [S F].
  cbn [snd]. change (fold_left _ paths h1) with (after_calls config nav paths h1).
  rewrite IH; [now apply F | now rewrite (nav_nodes_shape _ _ _ S)
              | now rewrite (nav_nodes_shape _ _ _ S)].
Qed.

(** X8: a call of set_nav_active forgets the calls made before it on
    the same tree: the returned reference and every object of the store
    are the same as after that call alone on the fresh tree; calling it
    twice for one page is the same as calling it once. *)
Theorem set_nav_active_forgets_earlier_calls (config : Config) (h : Heap)
    (nav : list addr) (h0 : Heap) (earlier : list string) (path : string)
    (a1 a2 : option addr) (h1 h2 : Heap) :
  generate_nav config h = (nav, h0) ->
  set_nav_active path config nav h0 = (a1, h1) ->
  set_nav_active path config nav (after_calls config nav earlier h0) = (a2, h2) ->
  a2 = a1 /\ forall x, cell h2 x = cell h1 x.
Proof.
  intros G H1 H2.
  destruct (generate_nav_wf _ _ _ _ G) as [[Hnd _] _].
  destruct (set_nav_active_result _ _ _ _ [] _ _ _ G H1)
    as (S1 & _ & _ & A1 & C1 & L1).
  destruct (set_nav_active_result _ _ _ _ earlier _ _ _ G H2)
    as (S2 & _ & _ & A2 & C2 & L2).
  set (u := path_to_url path config) in *.
  assert (S12 : same_shape h1 h2).
  { destruct S1 as [N1 S1], S2 as [N2 S2]. split; [congruence|].
    intros x. destruct (S1 x) as (? & ? & ?), (S2 x) as (? & ? & ?).
    repeat split; congruence. }
  split.
  - rewrite L1, L2. unfold last_match.
    now rewrite (nav_nodes_shape _ _ _ S12), (filter_matches_shape _ _ _ _ S12).
  - intros x. destruct S12 as [_ S12]. destruct (S12 x) as (T & Ux & Cx).
    apply navitem_eq; try assumption.
    destruct (in_dec Nat.eq_dec x (nav_nodes h0 nav)) as [Hx|Hx].
    + assert (S12' : same_shape h1 h2) by (split; [|exact S12];
        destruct S1 as [N1 _], S2 as [N2 _]; congruence).
      rewrite <- (nav_nodes_shape _ _ _ S1) in Hx.
      apply in_nav_nodes in Hx. destruct Hx as [Hx|Hx].
      * change (is_active h2 x = is_active h1 x).
        rewrite (A1 x Hx), (A2 x Hx), (children_shape _ _ _ S12').
        now rewrite (matches_shape _ _ _ _ S12'),
          (existsb_matches_shape _ _ _ _ S12').
      * change (is_active h2 x = is_active h1 x).
        rewrite (C1 x Hx), <- (matches_shape _ _ _ _ S12').
        rewrite <- (nav_children_shape _ _ _ S12') in Hx.
        now rewrite (C2 x Hx).
    + destruct (set_nav_active_frame _ _ _ _ _ _ Hnd H1) as [_ F1].
      pose proof (after_calls_shape config nav earlier h0 Hnd) as Se.
      assert (Hnd' : NoDup (nav_nodes (after_calls config nav earlier h0) nav))
        by (now rewrite (nav_nodes_shape _ _ _ Se)).
      destruct (set_nav_active_frame _ _ _ _ _ _ Hnd' H2) as [_ F2].
      rewrite F1 by exact Hx.
      rewrite F2 by (now rewrite (nav_nodes_shape _ _ _ Se)).
      now rewrite (after_calls_frame config nav earlier h0 Hnd x Hx).
Qed.

(** X9: for a path whose URL is the URL of no page of config.pages,
    set_nav_active returns None and leaves no item of the tree active. *)
Theorem set_nav_active_of_unknown_page (config : Config) (h : Heap)
    (nav : list addr) (h0 : Heap) (earlier : list string) (path : string)
    (active : option addr) (h2 : Heap) :
  generate_nav config h = (nav, h0) ->
  ~ In (path_to_url path config)
       (map (fun p => path_to_url (fst p) config) (pages config)) ->
  set_nav_active path config nav (after_calls config nav earlier h0)
  = (active, h2) ->
  active = None
  /\ forall x, In x (nav_nodes h2 nav) -> NavItem.active (cell h2 x) = false.
Proof.
  intros G Hn Hs.
  destruct (set_nav_active_result _ _ _ _ _ _ _ _ G Hs) as (_ & _ & Hu & A & C & L).
  set (u := path_to_url path config) in *.
  assert (No : forall x, In x (nav_nodes h2 nav) -> matches h2 u x = false).
  { intros x Hx. destruct (matches h2 u x) eqn:M; [|reflexivity].
    exfalso. apply Hn. rewrite <- Hu. apply in_urls_of.
    exists x. split; [exact Hx | now apply url_eq_spec]. }
  split.
  - rewrite L. unfold last_match. now rewrite (filter_none _ _ No).
  - intros x Hx. pose proof Hx as Hx'. apply in_nav_nodes in Hx'.
    destruct Hx' as [Ht|Hc].
    + change (is_active h2 x = false). rewrite (A x Ht), (No x Hx).
      cbn [orb]. destruct (existsb (matches h2 u) _) eqn:E; [|reflexivity].
      apply existsb_exists in E. destruct E as (c & Hc & Mc).
      rewrite No in Mc; [discriminate|].
      apply in_nav_nodes. right. apply in_flat_map. now exists x.
    + change (is_active h2 x = false). now rewrite (C x Hc), (No x Hx).
Qed.

(** X10: set_nav_active allocates nothing and changes no object
    outside the tree; the objects that existed before generate_nav
    built the tree are as they were. *)
Theorem set_nav_active_touches_only_the_tree (config : Config) (h : Heap)
    (nav : list addr) (h0 : Heap) (earlier : list string) (path : string)
    (active : option addr) (h2 : Heap) :
  generate_nav config h = (nav, h0) ->
  set_nav_active path config nav (after_calls config nav earlier h0)
  = (active, h2) ->
  next h2 = next h0
  /\ (forall x, ~ In x (nav_nodes h0 nav) -> cell h2 x = cell h0 x)
  /\ (forall x, x < next h -> cell h2 x = cell h x).
Proof.
  intros G Hs.
  destruct (generate_nav_wf _ _ _ _ G) as [[Hnd _] _].
  destruct (generate_nav_built _ _ _ _ G) as ((_ & _ & Lo & Fr & _) & _).
  pose proof (after_calls_shape config nav earlier h0 Hnd) as Se.
  assert (Hnd' : NoDup (nav_nodes (after_calls config nav earlier h0) nav))
    by (now rewrite (nav_nodes_shape _ _ _ Se)).
  destruct (set_nav_active_frame _ _ _ _ _ _ Hnd' Hs) as [S F].
  assert (Out : forall x, ~ In x (nav_nodes h0 nav) -> cell h2 x = cell h0 x).
  { intros x Hx. rewrite F by (now rewrite (nav_nodes_shape _ _ _ Se)).
    now apply after_calls_frame. }
  split; [|split; [exact Out|]].
  - destruct S as [-> _]. now destruct Se as [-> _].
  - intros x Hx. rewrite Out; [now apply Fr|].
    intros K. specialize (Lo x K). lia.
Qed.

(** X11: the item set_nav_active returns carries the URL of the page
    and is the last such item in display order (a child wins over its
    parent, a later page over an earlier one with the same URL); every
    item carrying that URL is active. *)
Theorem set_nav_active_returns_last_match (config : Config) (h : Heap)
    (nav : list addr) (h0 : Heap) (earlier : list string) (path : string)
    (item : addr) (h2 : Heap) :
  generate_nav config h = (nav, h0) ->
  set_nav_active path config nav (after_calls config nav earlier h0)
  = (Some item, h2) ->
  let url := path_to_url path config in
  NavItem.url (cell h2 item) = Some url
  /\ (exists before after,
        nav_nodes h2 nav = (before ++ item :: after)%list
        /\ forall y, In y after -> NavItem.url (cell h2 y) <> Some url)
  /\ (forall x, In x (nav_nodes h2 nav) ->
        NavItem.url (cell h2 x) = Some url -> NavItem.active (cell h2 x) = true).
Proof.
  intros G Hs url.
  destruct (set_nav_active_result _ _ _ _ _ _ _ _ G Hs) as (_ & _ & _ & A & C & L).
  fold url in A, C, L. unfold last_match in L.
  destruct (last_item (filter (matches h2 url) (nav_nodes h2 nav)))
    as [y|] eqn:E; [|discriminate].
  injection L as ->.
  destruct (last_filter_split _ _ _ E) as (M & before & after & Hl & Ha).
  split; [now apply url_eq_spec|]. split.
  - exists before, after. split; [exact Hl|].
    intros z Hz K. apply url_eq_spec in K.
    unfold matches in Ha. now rewrite (Ha z Hz) in K.
  - intros x Hx Ux. apply url_eq_spec in Ux. fold (matches h2 url x) in Ux.
    apply in_nav_nodes in Hx. destruct Hx as [Ht|Hc].
    + change (is_active h2 x = true). now rewrite (A x Ht), Ux.
    + change (is_active h2 x = true). now rewrite (C x Hc).
Qed.

End MarkerFacts.

(** ** Table-of-contents extractor: bounds and the store *)

(** X12: a table-of-contents fragment of at most four lines has no entry
    line left once the two leading and the two closing lines are dropped:
    the extractor returns the empty list and leaves the store as it is,
    without raising. *)
Theorem generate_toc_of_short_fragment (toc_html : string) (h : Heap) :
  List.length (Py.splitlines toc_html) <= 4 ->
  generate_toc toc_html h = Ok ([], h).
Proof.
  intros H. unfold generate_toc, Py.slice_list.
  replace (List.length (Py.splitlines toc_html) - 2 - 2) with 0 by lia.
  reflexivity.
Qed.

Lemma in_removelast {A : Type} (l : list A) (x : A) :
  In x (removelast l) -> In x l.
Proof.
  induction l as [|a l IH]; [intros []|].
  cbn [removelast]. destruct l as [|b l]; [intros []|].
  intros [<-|H]; [now left | right; now apply IH].
Qed.

Lemma generate_toc_line_fresh (hs : Heap) (st st' : list addr * list addr * Heap)
    (line : string) :
  toc_state_fresh hs st ->
  generate_toc_line st line = Ok st' ->
  toc_state_fresh hs st'.
Proof.
  destruct st as [[parents ret] h]. intros (N & P & R & F) Hl.
  unfold generate_toc_line in Hl.
  destruct (Re.search TOC_LINK_REGEX line) as [m|].
  - destruct (Re.groups m) as [|href [|title [|? ?]]]; try discriminate.
    rewrite new_NavItem_leaf in Hl.
    set (h1 := snd (alloc (NavItem.mk title (Some href) [] false) h)) in *.
    assert (P1 : forall p, In p (parents ++ [next h]) ->
                           next hs <= p < S (next h)).
    { intros p Hp. apply in_app_or in Hp. destruct Hp as [Hp|[<-|[]]]; [|lia].
      specialize (P p Hp). lia. }
    assert (P0 : forall p, In p parents -> next hs <= p < S (next h))
      by (intros p Hp; specialize (P p Hp); lia).
    assert (Pp : forall p, In p (if Py.endswith line "<ul>"
                                 then (parents ++ [next h])%list else parents) ->
                           next hs <= p < S (next h))
      by (destruct (Py.endswith line "<ul>"); assumption).
    destruct (last_item parents) as [parent|] eqn:L.
    + injection Hl as <-. cbn [toc_state_fresh]. rewrite next_update.
      subst h1. rewrite next_alloc.
      split; [lia|]. split; [exact Pp|]. split.
      * intros a Ha. specialize (R a Ha). lia.
      * intros x Hx. apply last_item_in in L. specialize (P parent L).
        read_cells. now apply F.
    + injection Hl as <-. cbn [toc_state_fresh]. subst h1. rewrite next_alloc.
      split; [lia|]. split; [exact Pp|]. split.
      * intros a Ha. apply in_app_or in Ha. destruct Ha as [Ha|[<-|[]]]; [|lia].
        specialize (R a Ha). lia.
      * intros x Hx. read_cells. now apply F.
  - destruct (Py.startswith line "</ul>").
    + destruct (last_item parents); [|discriminate].
      injection Hl as <-. cbn [toc_state_fresh].
      split; [exact N|]. split; [|split; assumption].
      intros p Hp. apply P. now apply in_removelast.
    + injection Hl as <-. exact (conj N (conj P (conj R F))).
Qed.

Lemma generate_toc_loop_fresh (hs : Heap) (lines : list string) :
  forall st st',
  toc_state_fresh hs st ->
  foldM generate_toc_line lines st = Ok st' ->
  toc_state_fresh hs st'.
Proof.
  induction lines as [|l lines IH]; intros st st' J Hf.
  - cbn in Hf. now injection Hf as <-.
  - cbn [foldM] in Hf. destruct (generate_toc_line st l) as [st1|e] eqn:E;
      [|discriminate].
    cbn [bind] in Hf. apply (IH st1); [|exact Hf].
    exact (generate_toc_line_fresh _ _ _ _ J E).
Qed.

(** X13: when the table-of-contents extractor returns, every object that
    existed before the call is unchanged, every returned item is an object
    allocated by the call, and the first returned item is marked active. *)
Theorem generate_toc_leaves_the_store (toc_html : string) (h : Heap)
    (ret : list addr) (h' : Heap) :
  generate_toc toc_html h = Ok (ret, h') ->
  (forall x, x < next h -> cell h' x = cell h x)
  /\ (forall a, In a ret -> next h <= a < next h')
  /\ (forall first rest, ret = first :: rest ->
        NavItem.active (cell h' first) = true).
Proof.
  unfold generate_toc. intros H.
  destruct (foldM generate_toc_line
              (Py.slice_list (Py.splitlines toc_html) 2 2) ([], [], h))
    as [[[parents r] h1]|e] eqn:E; [|discriminate].
  cbn [bind] in H.
  assert (J : toc_state_fresh h ([], [], h)).
  { cbn [toc_state_fresh]. split; [lia|].
    split; [intros p []|]. split; [intros a []|reflexivity]. }
  pose proof (generate_toc_loop_fresh _ _ _ _ J E) as (N & P & R & F).
  destruct r as [|first rest].
  - injection H as <- <-. split; [exact F|].
    split; [intros a [] | discriminate].
  - injection H as <- <-. split; [|split].
    + intros x Hx. specialize (R first (or_introl eq_refl)).
      read_cells. now apply F.
    + intros a Ha. rewrite next_update. now apply R.
    + intros f r [= <- <-]. rewrite cell_update, addr_eqb_refl. reflexivity.
Qed.

(** ** Table-of-contents extractor: reading back a flat list *)

(** A greedy run of characters other than [c] stops at the first [c]
    when the rest of the pattern matches there. *)
Lemma many_greedy (c : ascii) (p : Re.pattern) (T rest : string)
    (r : list nat * nat) :
  Py.contains T c = false ->
  forall off,
  Re.match_here p (String c rest) (off + String.length T) = Some r ->
  Re.match_here (Re.Many (Re.NotChr c) :: p) (T ++ String c rest) off = Some r.
Proof.
  intros H. induction T as [|x T IH]; intros off M.
  - cbn [append String.length] in *. rewrite Nat.add_0_r in M.
    rewrite match_many_cons. cbn [Re.accepts].
    now rewrite Ascii.eqb_refl.
  - apply contains_cons in H. destruct H as [Hx HT].
    cbn [append]. rewrite match_many_cons. cbn [Re.accepts].
    rewrite Ascii.eqb_sym, Hx. cbn [negb].
    rewrite (IH HT (S off)); [reflexivity|].
    cbn [String.length] in M. now replace (S off + String.length T)
      with (off + S (String.length T)) by lia.
Qed.

Lemma match_one (k : Re.cls) (p : Re.pattern) (c : ascii) (s : string)
    (off : nat) :
  Re.match_here (Re.One k :: p) (String c s) off
  = if Re.accepts k c then Re.match_here p s (S off) else None.
Proof. reflexivity. Qed.

Lemma match_open (p : Re.pattern) (s : string) (off : nat) :
  Re.match_here (Re.Open :: p) s off
  = match Re.match_here p s off with
    | Some (marks, e) => Some (off :: marks, e)
    | None => None
    end.
Proof. reflexivity. Qed.

Lemma match_close (p : Re.pattern) (s : string) (off : nat) :
  Re.match_here (Re.Close :: p) s off
  = match Re.match_here p s off with
    | Some (marks, e) => Some (off :: marks, e)
    | None => None
    end.
Proof. reflexivity. Qed.

Lemma toc_regex_split :
  TOC_LINK_REGEX
  = (Re.lit ("<a href=" ++ String Py.dquote "")
       ++ Re.Open :: Re.Many (Re.NotChr Py.dquote) :: toc_href_tail)%list.
Proof. reflexivity. Qed.

Lemma toc_anchor_append (href title rest : string) :
  toc_anchor href title ++ rest
  = ("<a href=" ++ String Py.dquote "")
    ++ href ++ String Py.dquote (String ">" (title ++ String "<" ("/a>" ++ rest))).
Proof.
  unfold toc_anchor. cbn [append]. do 9 f_equal.
  rewrite append_assoc. cbn [append]. do 2 f_equal.
  now rewrite append_assoc.
Qed.

Lemma toc_anchor_length (href title : string) :
  String.length (toc_anchor href title)
  = 15 + String.length href + String.length title.
Proof.
  unfold toc_anchor. cbn [append String.length].
  rewrite length_append. cbn [String.length append].
  rewrite length_append. cbn [String.length]. lia.
Qed.

Lemma toc_match_anchor (href title rest : string) :
  Py.contains href Py.dquote = false ->
  Py.contains title "<" = false ->
  Re.match_at TOC_LINK_REGEX (toc_anchor href title ++ rest)
  = Some (Re.mkMatch [href; title] (String.length (toc_anchor href title))).
Proof.
  intros Hh Ht. unfold Re.match_at.
  rewrite toc_regex_split, toc_anchor_append, match_lit.
  change (0 + String.length ("<a href=" ++ String Py.dquote "")) with 9.
  set (o2 := 9 + String.length href).
  set (o3 := S (S o2)).
  set (o4 := o3 + String.length title).
  set (s := title ++ String "<" ("/a>" ++ rest)).
  assert (A : Re.match_here toc_title_tail (String "<" ("/a>" ++ rest)) o4
              = Some ([o4], o4 + 4)).
  { unfold toc_title_tail. rewrite match_close.
    change (String "<" ("/a>" ++ rest)) with ("</a>" ++ rest).
    rewrite <- (app_nil_r (Re.lit "</a>")), match_lit. reflexivity. }
  assert (B : Re.match_here (Re.Many (Re.NotChr "<") :: toc_title_tail) s o3
              = Some ([o4], o4 + 4))
    by (apply many_greedy; assumption).
  assert (C : Re.match_here toc_href_tail (String Py.dquote (String ">" s)) o2
              = Some ([o2; o3; o4], o4 + 4)).
  { unfold toc_href_tail. rewrite match_close, !match_one.
    cbn [Re.accepts]. rewrite !Ascii.eqb_refl, match_open. fold o3.
    now rewrite B. }
  rewrite match_open, (many_greedy _ _ _ _ _ Hh 9 C).
  f_equal. f_equal.
  - cbn [Re.groups_of]. f_equal; [|f_equal].
    + subst o2. replace (9 + String.length href - 9)
        with (String.length href) by lia.
      change 9 with (String.length ("<a href=" ++ String Py.dquote "") + 0).
      rewrite substring_skip. apply substring_0_append.
    + subst o4 o3 o2.
      replace (S (S (9 + String.length href)) + String.length title
               - S (S (9 + String.length href)))
        with (String.length title) by lia.
      replace (S (S (9 + String.length href)))
        with (String.length (("<a href=" ++ String Py.dquote "")
                             ++ href ++ String Py.dquote ">") + 0)
        by (rewrite !length_append; cbn [String.length append]; lia).
      replace (("<a href=" ++ String Py.dquote "")
               ++ href ++ String Py.dquote (String ">" s))
        with ((("<a href=" ++ String Py.dquote "")
               ++ href ++ String Py.dquote ">") ++ s)
        by (rewrite !append_assoc; reflexivity).
      rewrite substring_skip. subst s. apply substring_0_append.
  - rewrite toc_anchor_length. subst o4 o3 o2. lia.
Qed.

Lemma search_found (p : Re.pattern) (s : string) (m : Re.Match) :
  Re.match_at p s = Some m -> Re.search p s = Some m.
Proof. intros H. destruct s; cbn [Re.search]; now rewrite H. Qed.

Lemma toc_search_entry (entry : string * string) :
  Py.contains (fst entry) Py.dquote = false ->
  Py.contains (snd entry) "<" = false ->
  Re.search TOC_LINK_REGEX (toc_entry_line entry)
  = Some (Re.mkMatch [fst entry; snd entry]
            (String.length (toc_anchor (fst entry) (snd entry)))).
Proof.
  intros Hh Ht. unfold toc_entry_line.
  transitivity (Re.search TOC_LINK_REGEX
                  (toc_anchor (fst entry) (snd entry) ++ "</li>"));
    [reflexivity|].
  apply search_found. now apply toc_match_anchor.
Qed.

Lemma append_snoc_inj (a b : string) (c d : ascii) :
  a ++ String c "" = b ++ String d "" -> a = b /\ c = d.
Proof.
  revert b. induction a as [|x a IH]; intros [|y b] H; cbn [append] in H.
  - injection H as ->. now split.
  - injection H as _ H. destruct b; discriminate.
  - injection H as _ H. destruct a; discriminate.
  - injection H as -> H. destruct (IH b H) as [-> ->]. now split.
Qed.

Lemma entry_line_opens_no_list (x : string) :
  Py.endswith (x ++ "</li>") "<ul>" = false.
Proof.
  destruct (Py.endswith (x ++ "</li>") "<ul>") eqn:E; [|reflexivity].
  apply endswith_spec in E. destruct E as [u E].
  replace (x ++ "</li>") with ((x ++ "</li") ++ ">") in E
    by (now rewrite append_assoc).
  replace (u ++ "<ul>") with ((u ++ "<ul") ++ ">") in E
    by (now rewrite append_assoc).
  apply append_snoc_inj in E. destruct E as [E _].
  replace (x ++ "</li") with ((x ++ "</l") ++ "i") in E
    by (now rewrite append_assoc).
  replace (u ++ "<ul") with ((u ++ "<u") ++ "l") in E
    by (now rewrite append_assoc).
  apply append_snoc_inj in E. destruct E as [_ E]. discriminate.
Qed.

Lemma one_line_append (a b : string) :
  one_line (a ++ b) = one_line a && one_line b.
Proof.
  unfold one_line. induction a as [|c a IH]; [reflexivity|].
  cbn [append Py.all_chars]. now rewrite IH, andb_assoc.
Qed.

Lemma one_line_cons (c : ascii) (s : string) :
  one_line (String c s) = negb (Py.is_linebreak c) && one_line s.
Proof. reflexivity. Qed.

Lemma one_line_toc_anchor (href title : string) :
  one_line href = true -> one_line title = true ->
  one_line (toc_anchor href title) = true.
Proof.
  intros Lh Lt. unfold toc_anchor.
  rewrite one_line_append, (one_line_cons Py.dquote), one_line_append, Lh,
    (one_line_cons Py.dquote), !one_line_append, Lt.
  reflexivity.
Qed.

Lemma toc_entry_ok_spec (entry : string * string) :
  toc_entry_ok entry = true ->
  Py.contains (fst entry) Py.dquote = false
  /\ Py.contains (snd entry) "<" = false
  /\ one_line (toc_entry_line entry) = true.
Proof.
  unfold toc_entry_ok. rewrite !andb_true_iff, !negb_true_iff.
  intros [[[Hh Ht] Lh] Lt]. split; [exact Hh|]. split; [exact Ht|].
  unfold toc_entry_line.
  rewrite !one_line_append, (one_line_toc_anchor _ _ Lh Lt).
  reflexivity.
Qed.

Lemma generate_toc_line_entry (entry : string * string) (ret : list addr)
    (h : Heap) :
  toc_entry_ok entry = true ->
  generate_toc_line ([], ret, h) (toc_entry_line entry)
  = Ok ([], (ret ++ [next h])%list,
        snd (alloc (NavItem.mk (snd entry) (Some (fst entry)) [] false) h)).
Proof.
  intros H. destruct (toc_entry_ok_spec _ H) as (Hh & Ht & _).
  unfold generate_toc_line. rewrite (toc_search_entry _ Hh Ht).
  cbn [Re.groups]. rewrite new_NavItem_leaf. cbn [last_item rev].
  unfold toc_entry_line at 1.
  replace ("<li>" ++ toc_anchor (fst entry) (snd entry) ++ "</li>")
    with (("<li>" ++ toc_anchor (fst entry) (snd entry)) ++ "</li>")
    by (now rewrite append_assoc).
  now rewrite entry_line_opens_no_list.
Qed.

Lemma generate_toc_flat_loop (entries : list (string * string)) :
  forall (ret : list addr) (h : Heap),
  forallb toc_entry_ok entries = true ->
  exists h',
    foldM generate_toc_line (map toc_entry_line entries) ([], ret, h)
    = Ok ([], (ret ++ seq (next h) (List.length entries))%list, h')
    /\ (forall x, x < next h -> cell h' x = cell h x)
    /\ (forall i entry, nth_error entries i = Some entry ->
          cell h' (next h + i)
          = NavItem.mk (snd entry) (Some (fst entry)) [] false).
Proof.
  induction entries as [|e es IH]; intros ret h H.
  - exists h. cbn [map foldM List.length seq]. rewrite app_nil_r.
    split; [reflexivity|]. split; [reflexivity|].
    intros [|i] entry K; discriminate.
  - cbn [forallb] in H. apply andb_true_iff in H. destruct H as [He Hes].
    cbn [map foldM]. rewrite (generate_toc_line_entry _ _ _ He). cbn [bind].
    set (h1 := snd (alloc (NavItem.mk (snd e) (Some (fst e)) [] false) h)).
    destruct (IH (ret ++ [next h])%list h1 Hes) as (h' & F & Fr & Ce).
    exists h'. split; [|split].
    + rewrite F. subst h1. rewrite next_alloc, <- app_assoc. reflexivity.
    + intros x Hx. rewrite Fr by (subst h1; rewrite next_alloc; lia).
      subst h1. read_cells. reflexivity.
    + intros [|i] entry K.
      * cbn in K. injection K as <-. rewrite Nat.add_0_r.
        rewrite Fr by (subst h1; rewrite next_alloc; lia).
        subst h1. read_cells. reflexivity.
      * cbn [nth_error] in K. specialize (Ce i entry K).
        subst h1. rewrite next_alloc in Ce.
        now replace (next h + S i) with (S (next h) + i) by lia.
Qed.

(** X14: a flat table of contents is read back entry by entry.  For
    entries whose href holds no double quote, whose title holds no <, both
    on one line, the fragment made of two leading lines, the line <ul>,
    one line <li><a href=QhrefQ>title</a></li> per entry (Q the double
    quote) and two closing lines yields one freshly allocated item per
    entry, in order, with that title and url, no children, and only the
    first one active; the objects that existed before are unchanged. *)
Theorem generate_toc_reads_flat_list (w1 w2 w3 w4 : string)
    (entries : list (string * string)) (h : Heap) :
  one_line w1 = true -> one_line w2 = true ->
  one_line w3 = true -> one_line w4 = true ->
  forallb toc_entry_ok entries = true ->
  exists h',
    generate_toc
      (unlines ([w1; w2] ++ ("<ul>" :: map toc_entry_line entries)
                ++ [w3; w4]))
      h
    = Ok (seq (next h) (List.length entries), h')
    /\ (forall i entry, nth_error entries i = Some entry ->
          cell h' (next h + i)
          = NavItem.mk (snd entry) (Some (fst entry)) [] (i =? 0))
    /\ (forall x, x < next h -> cell h' x = cell h x).
Proof.
  intros H1 H2 H3 H4 He.
  rewrite (generate_toc_lines _ _ _ _ _ _ H1 H2 H3 H4).
  2:{ apply forallb_forall. intros w [<-|Hin]; [reflexivity|].
      apply in_map_iff in Hin.
      destruct Hin as (e & <- & Hin). rewrite forallb_forall in He.
      now destruct (toc_entry_ok_spec e (He e Hin)) as (_ & _ & L). }
  cbn [foldM].
  replace (generate_toc_line ([], [], h) "<ul>")
    with (Ok (@nil addr, @nil addr, h)) by reflexivity.
  cbn [bind].
  destruct (generate_toc_flat_loop entries [] h He) as (h' & F & Fr & Ce).
  rewrite F. cbn [bind app].
  destruct entries as [|e es].
  - exists h'. cbn [List.length seq]. split; [reflexivity|].
    split; [intros [|i] entry K; discriminate | exact Fr].
  - cbn [List.length seq]. eexists. split; [reflexivity|]. split.
    + intros i entry K. rewrite cell_update.
      destruct i as [|i].
      * rewrite Nat.add_0_r, addr_eqb_refl, <- (Nat.add_0_r (next h)).
        rewrite (Ce 0 entry K). reflexivity.
      * replace (addr_eqb (next h + S i) (next h)) with false
          by (symmetry; apply addr_eqb_neq; lia).
        exact (Ce (S i) entry K).
    + intros x Hx. read_cells. now apply Fr.
Qed.

(** ** Page renderer: code blocks *)

Lemma prefix_cons (a b : ascii) (w s : string) :
  String.prefix (String a w) (String b s) = Ascii.eqb a b && String.prefix w s.
Proof.
  cbn [String.prefix]. destruct (ascii_dec a b) as [->|N].
  - now rewrite Ascii.eqb_refl.
  - destruct (Ascii.eqb_spec a b); [contradiction | reflexivity].
Qed.

Lemma occurs_spec (w s : string) :
  occurs w s = true <-> exists a b, s = a ++ w ++ b.
Proof.
  induction s as [|c s IH]; cbn [occurs].
  - rewrite orb_false_r, prefix_spec. split.
    + intros [r H]. now exists "", r.
    + intros (a & b & H). destruct a; [now exists b | discriminate].
  - rewrite orb_true_iff, prefix_spec, IH. split.
    + intros [[r H]|(a & b & H)].
      * now exists "", r.
      * exists (String c a), b. now rewrite H.
    + intros (a & b & H). destruct a as [|x a].
      * left. now exists b.
      * right. injection H as _ H. now exists a, b.
Qed.

Section PreTags.

Local Abbreviation sub_pre :=
  (Re.sub_from (Re.lit "<pre>") (fun _ => Ok PRE_CLASS)).

Lemma match_pre (s : string) :
  Re.match_at (Re.lit "<pre>") s
  = if String.prefix "<pre>" s then Some (Re.mkMatch [] 5) else None.
Proof.
  unfold Re.match_at.
  replace (Re.lit "<pre>") with (Re.lit "<pre>" ++ [])%list
    by apply app_nil_r.
  destruct (String.prefix "<pre>" s) eqn:P.
  - apply prefix_spec in P. destruct P as [r ->].
    rewrite match_lit. reflexivity.
  - now rewrite (match_lit_fails _ _ _ _ P).
Qed.

Lemma sub_pre_at_tag (post : string) :
  sub_pre ("<pre>" ++ post) 0
  = (r <- sub_pre post 0 ;; Ok (PRE_CLASS ++ r)).
Proof.
  cbn [append].
  rewrite (sub_from_match _ _ _ _ (Re.mkMatch [] 5) 4);
    [|rewrite match_pre | reflexivity].
  2:{ assert (P : String.prefix "<pre>" ("<pre>" ++ post) = true)
        by (apply prefix_spec; now exists post).
      cbn [append] in P. now rewrite P. }
  cbn [bind].
  exact (f_equal (fun x => bind x (fun r => Ok (PRE_CLASS ++ r)))
           (sub_from_skip (Re.lit "<pre>") (fun _ => Ok PRE_CLASS) "pre>" post)).
Qed.

Lemma sub_pre_returns (s : string) (k : nat) : exists r, sub_pre s k = Ok r.
Proof.
  revert k. induction s as [|c s IH]; intros k.
  - destruct k; cbn; eauto.
  - destruct k as [|k]; [|apply IH].
    destruct (Re.match_at (Re.lit "<pre>") (String c s)) as [m|] eqn:M.
    + rewrite match_pre in M.
      destruct (String.prefix "<pre>" (String c s)) eqn:P; [|discriminate].
      injection M as <-.
      rewrite (sub_from_match _ _ _ _ (Re.mkMatch [] 5) 4);
        [|rewrite match_pre, P; reflexivity | reflexivity].
      destruct (IH 4) as [r ->]. cbn. eauto.
    + rewrite (sub_from_no_match _ _ _ _ M).
      destruct (IH 0) as [r ->]. cbn. eauto.
Qed.

Lemma pre_tag_not_straddled (p rest : string) :
  p <> "" ->
  String.prefix "<pre>" (p ++ "<pre>" ++ rest) = true ->
  exists x, p = "<pre>" ++ x.
Proof.
  intros N H. apply prefix_spec in H. destruct H as [r H].
  destruct p as [|c1 p]; [contradiction|].
  injection H as -> H.
  destruct p as [|c2 p]; [discriminate|]. injection H as -> H.
  destruct p as [|c3 p]; [discriminate|]. injection H as -> H.
  destruct p as [|c4 p]; [discriminate|]. injection H as -> H.
  destruct p as [|c5 p]; [discriminate|]. injection H as -> H.
  now exists p.
Qed.

Lemma sub_pre_append (pre post : string) (k : nat) :
  k <= String.length pre ->
  sub_pre (pre ++ "<pre>" ++ post) k
  = (r <- sub_pre pre k ;; t <- sub_pre post 0 ;; Ok (r ++ PRE_CLASS ++ t)).
Proof.
  revert k. induction pre as [|c pre IH]; intros k K.
  - cbn [String.length] in K. replace k with 0 by lia.
    change ("" ++ "<pre>" ++ post) with ("<pre>" ++ post).
    rewrite sub_pre_at_tag. reflexivity.
  - destruct k as [|k].
    2:{ cbn [String.length] in K.
        change (sub_pre (String c pre ++ "<pre>" ++ post) (S k))
          with (sub_pre (pre ++ "<pre>" ++ post) k).
        change (sub_pre (String c pre) (S k)) with (sub_pre pre k).
        apply IH. lia. }
    change (String c pre ++ "<pre>" ++ post)
      with (String c (pre ++ "<pre>" ++ post)).
    destruct (String.prefix "<pre>" (String c pre)) eqn:P.
    + assert (P' : String.prefix "<pre>" (String c (pre ++ "<pre>" ++ post))
                   = true).
      { apply prefix_spec in P. destruct P as [x P]. apply prefix_spec.
        exists (x ++ "<pre>" ++ post).
        change (String c (pre ++ "<pre>" ++ post))
          with (String c pre ++ "<pre>" ++ post).
        rewrite P. now rewrite append_assoc. }
      rewrite (sub_from_match _ _ _ _ (Re.mkMatch [] 5) 4);
        [|rewrite match_pre, P'; reflexivity | reflexivity].
      rewrite (sub_from_match _ _ c pre (Re.mkMatch [] 5) 4);
        [|rewrite match_pre, P; reflexivity | reflexivity].
      cbn [bind]. rewrite IH.
      2:{ apply prefix_spec in P. destruct P as [x P].
          apply (f_equal String.length) in P. cbn in P. lia. }
      destruct (sub_pre pre 4) as [r|e]; [|reflexivity]. cbn [bind].
      destruct (sub_pre post 0) as [t|e]; [|reflexivity]. cbn [bind].
      now rewrite append_assoc.
    + assert (P' : String.prefix "<pre>" (String c (pre ++ "<pre>" ++ post))
                   = false).
      { destruct (String.prefix "<pre>" (String c (pre ++ "<pre>" ++ post)))
          eqn:Q; [|reflexivity].
        destruct (pre_tag_not_straddled (String c pre) post) as [x E];
          [discriminate | exact Q |].
        assert (T : String.prefix "<pre>" (String c pre) = true)
          by (apply prefix_spec; now exists x).
        congruence. }
      rewrite sub_from_no_match by (rewrite match_pre, P'; reflexivity).
      rewrite (sub_from_no_match _ _ c pre)
        by (rewrite match_pre, P; reflexivity).
      rewrite IH by lia.
      destruct (sub_pre pre 0) as [r|e]; [|reflexivity]. cbn [bind].
      destruct (sub_pre post 0) as [t|e]; reflexivity.
Qed.

Lemma sub_pre_without_tag (s : string) :
  occurs "<pre>" s = false -> sub_pre s 0 = Ok s.
Proof.
  induction s as [|c s IH]; intros H; [reflexivity|].
  cbn [occurs] in H. apply orb_false_iff in H. destruct H as [P H].
  rewrite sub_from_no_match by (rewrite match_pre, P; reflexivity).
  now rewrite (IH H).
Qed.

(** The rewrite copies every character other than <: a text without <
    that starts the result starts the content. *)
Lemma sub_pre_copies (w : string) :
  Py.contains w "<" = false ->
  forall s r, sub_pre s 0 = Ok r ->
  String.prefix w r = true -> String.prefix w s = true.
Proof.
  induction w as [|a w IH]; intros C s r S P.
  - now destruct s.
  - apply contains_cons in C. destruct C as [A C].
    destruct s as [|d s].
    { cbn in S. injection S as <-. discriminate P. }
    destruct (String.prefix "<pre>" (String d s)) eqn:Q.
    + rewrite (sub_from_match _ _ _ _ (Re.mkMatch [] 5) 4) in S;
        [|rewrite match_pre, Q; reflexivity | reflexivity].
      cbn [bind] in S. destruct (sub_pre s 4) as [t|e]; [|discriminate].
      cbn [bind] in S. injection S as <-.
      unfold PRE_CLASS in P. cbn [append] in P.
      rewrite prefix_cons in P. apply andb_true_iff in P.
      destruct P as [P _]. rewrite Ascii.eqb_sym in P. congruence.
    + rewrite sub_from_no_match in S by (rewrite match_pre, Q; reflexivity).
      destruct (sub_pre s 0) as [t|e] eqn:T; [|discriminate].
      cbn [bind] in S. injection S as <-.
      rewrite prefix_cons in P |- *. apply andb_true_iff in P.
      destruct P as [-> P]. cbn [andb]. exact (IH C s t T P).
Qed.

Lemma occurs_pre_class (t : string) :
  occurs "<pre>" (PRE_CLASS ++ t) = occurs "<pre>" t.
Proof. reflexivity. Qed.

Lemma sub_pre_leaves_no_tag (s : string) :
  forall k r, sub_pre s k = Ok r -> occurs "<pre>" r = false.
Proof.
  induction s as [|c s IH]; intros k r S.
  - destruct k; cbn in S; injection S as <-; reflexivity.
  - destruct k as [|k]; [|exact (IH k r S)].
    destruct (String.prefix "<pre>" (String c s)) eqn:Q.
    + rewrite (sub_from_match _ _ _ _ (Re.mkMatch [] 5) 4) in S;
        [|rewrite match_pre, Q; reflexivity | reflexivity].
      cbn [bind] in S. destruct (sub_pre s 4) as [t|e] eqn:T; [|discriminate].
      cbn [bind] in S. injection S as <-.
      etransitivity; [apply occurs_pre_class | exact (IH 4 t T)].
    + rewrite sub_from_no_match in S by (rewrite match_pre, Q; reflexivity).
      destruct (sub_pre s 0) as [t|e] eqn:T; [|discriminate].
      cbn [bind] in S. injection S as <-.
      cbn [occurs]. rewrite (IH 0 t T), orb_false_r.
      destruct (String.prefix "<pre>" (String c t)) eqn:P; [|reflexivity].
      rewrite prefix_cons in P. apply andb_true_iff in P. destruct P as [A P].
      apply (sub_pre_copies "pre>" eq_refl s t T) in P.
      rewrite prefix_cons, A, P in Q. discriminate Q.
Qed.

End PreTags.

(** X15: the rewriting of <pre> tags returns normally on every content
    and works tag by tag: at any occurrence of <pre> the result is the
    rewritten text before it, then <pre class=Qprettyprint wellQ> (Q the
    double quote), then the rewritten text after it. *)
Theorem replace_pre_tags_at_each_tag (pre post : string) :
  exists pre' post',
    replace_pre_tags pre = Ok pre'
    /\ replace_pre_tags post = Ok post'
    /\ replace_pre_tags (pre ++ "<pre>" ++ post)
       = Ok (pre' ++ PRE_CLASS ++ post').
Proof.
  unfold replace_pre_tags, Re.sub.
  destruct (sub_pre_returns pre 0) as [pre' Hpre].
  destruct (sub_pre_returns post 0) as [post' Hpost].
  exists pre', post'. split; [exact Hpre|]. split; [exact Hpost|].
  rewrite sub_pre_append by lia. now rewrite Hpre, Hpost.
Qed.

(** X16: after the rewriting no plain <pre> tag is left in the content,
    so rewriting the result once more changes nothing. *)
Theorem replace_pre_tags_leaves_no_plain_tag (content : string) :
  exists r,
    replace_pre_tags content = Ok r
    /\ occurs "<pre>" r = false
    /\ replace_pre_tags r = Ok r.
Proof.
  unfold replace_pre_tags, Re.sub.
  destruct (sub_pre_returns content 0) as [r H]. exists r.
  pose proof (sub_pre_leaves_no_tag content 0 r H) as N.
  split; [exact H|]. split; [exact N|]. now apply sub_pre_without_tag.
Qed.

(** X17: the rewriting of <pre> tags returns a content unchanged exactly
    when <pre> does not occur in it. *)
Theorem replace_pre_tags_unchanged_iff_no_tag (content : string) :
  replace_pre_tags content = Ok content <-> occurs "<pre>" content = false.
Proof.
  unfold replace_pre_tags, Re.sub. split.
  - intros H. exact (sub_pre_leaves_no_tag content 0 content H).
  - apply sub_pre_without_tag.
Qed.

(** ** Page renderer: the table-of-contents marker *)

Lemma after_prefix_spec (p s r : string) :
  after_prefix p s = Some r <-> s = p ++ r.
Proof.
  revert s. induction p as [|a p IH]; intros s; cbn [after_prefix append].
  - split; [now intros [= ->] | now intros ->].
  - destruct s as [|b s]; [split; discriminate|].
    destruct (Ascii.eqb_spec a b) as [->|N].
    + rewrite IH. split; [now intros -> | now intros [= ->]].
    + split; [discriminate | intros [= E _]; congruence].
Qed.

Lemma after_prefix_none (p s : string) :
  after_prefix p s = None <-> String.prefix p s = false.
Proof.
  destruct (after_prefix p s) as [r|] eqn:E.
  - apply after_prefix_spec in E.
    assert (P : String.prefix p s = true) by (apply prefix_spec; now exists r).
    rewrite P. split; discriminate.
  - split; [intros _|reflexivity].
    destruct (String.prefix p s) eqn:P; [|reflexivity].
    apply prefix_spec in P. destruct P as [r P].
    apply after_prefix_spec in P. congruence.
Qed.

Lemma split_once_without_sep (sep s : string) :
  occurs sep s = false -> split_once s sep = [s].
Proof.
  induction s as [|c s IH]; cbn [occurs split_once]; intros H;
    apply orb_false_iff in H; destruct H as [P H];
    apply after_prefix_none in P; rewrite P; [reflexivity|].
  now rewrite (IH H).
Qed.

Lemma split_once_with_sep (sep s : string) :
  occurs sep s = true ->
  exists head tail,
    split_once s sep = [head; tail]
    /\ s = head ++ sep ++ tail
    /\ (forall a b, s = a ++ sep ++ b -> String.length head <= String.length a).
Proof.
  induction s as [|c s IH]; cbn [occurs split_once]; intros H.
  - rewrite orb_false_r in H. apply prefix_spec in H. destruct H as [r H].
    apply after_prefix_spec in H. rewrite H. exists "", r.
    split; [reflexivity|]. apply after_prefix_spec in H.
    split; [exact H | intros; cbn; lia].
  - destruct (after_prefix sep (String c s)) as [r|] eqn:E.
    + exists "", r. split; [reflexivity|]. apply after_prefix_spec in E.
      split; [exact E | intros; cbn; lia].
    + apply after_prefix_none in E. rewrite E in H. cbn [orb] in H.
      destruct (IH H) as (head & tail & S & D & F). rewrite S.
      exists (String c head), tail. split; [reflexivity|]. split.
      * cbn [append]. now rewrite <- D.
      * intros [|x a] b K.
        -- assert (P : String.prefix sep (String c s) = true)
             by (apply prefix_spec; now exists b).
           congruence.
        -- injection K as _ K. specialize (F a b K). cbn [String.length]. lia.
Qed.

(** X18: when the split at the table-of-contents marker returns, the
    content is the page part, the marker and the table-of-contents part,
    in this order, and the split is at the first marker: no occurrence of
    the marker starts before the end of the page part. *)
Theorem split_toc_at_first_marker (content page toc_html : string) :
  split_toc content = Ok (page, toc_html) ->
  content = page ++ TOC_MARKER ++ toc_html
  /\ (forall a b, content = a ++ TOC_MARKER ++ b ->
        String.length page <= String.length a).
Proof.
  unfold split_toc. intros H.
  destruct (occurs TOC_MARKER content) eqn:O.
  - destruct (split_once_with_sep _ _ O) as (head & tail & S & D & F).
    rewrite S in H. injection H as <- <-. now split.
  - rewrite (split_once_without_sep _ _ O) in H. discriminate H.
Qed.

(** X19: the split at the table-of-contents marker raises ValueError
    exactly when the marker does not occur in the content. *)
Theorem split_toc_raises_without_marker (content : string) :
  split_toc content = Raise ValueError <-> occurs TOC_MARKER content = false.
Proof.
  unfold split_toc. destruct (occurs TOC_MARKER content) eqn:O.
  - destruct (split_once_with_sep _ _ O) as (head & tail & S & _).
    rewrite S. split; discriminate.
  - rewrite (split_once_without_sep _ _ O). now split.
Qed.

(** ** Theme and static files *)

Lemma append_split (x y u v : string) :
  x ++ y = u ++ v ->
  (exists w, x = u ++ w /\ v = w ++ y) \/ (exists w, u = x ++ w /\ y = w ++ v).
Proof.
  revert u. induction x as [|c x IH]; intros u H.
  - right. exists u. now split.
  - destruct u as [|d u].
    + left. exists (String c x). now split.
    + injection H as -> H. destruct (IH u H) as [(w & -> & ->)|(w & -> & ->)].
      * left. now exists w.
      * right. now exists w.
Qed.

Lemma contains_last_char (s : string) (c : ascii) :
  last_char s = Some c -> Py.contains s c = true.
Proof.
  induction s as [|x s IH]; [discriminate|].
  cbn [last_char Py.contains]. destruct s as [|y s].
  - intros [= ->]. now rewrite Ascii.eqb_refl.
  - intros H. rewrite (IH H). apply orb_true_r.
Qed.

(** A suffix without / that does not end the file name does not end a path
    whose last component is that name. *)
Lemma endswith_after_slash (dir name suf : string) :
  Py.contains suf "/" = false ->
  Py.endswith name suf = false ->
  Py.endswith (dir ++ "/" ++ name) suf = false.
Proof.
  intros C N.
  destruct (Py.endswith (dir ++ "/" ++ name) suf) eqn:E; [|reflexivity].
  apply endswith_spec in E. destruct E as [u E].
  rewrite <- append_assoc in E.
  destruct (append_split _ _ _ _ E) as [(w & Hd & Hs)|(w & _ & Hn)].
  - destruct w as [|c w].
    + cbn [append] in Hs. subst suf.
      assert (T : Py.endswith name name = true)
        by (apply endswith_spec; now exists "").
      congruence.
    + assert (L : last_char (dir ++ "/") = Some "/"%char)
        by (now rewrite last_char_append).
      rewrite Hd, last_char_append in L by discriminate.
      apply contains_last_char in L.
      rewrite Hs, contains_append, L in C. discriminate C.
  - assert (T : Py.endswith name suf = true)
      by (apply endswith_spec; now exists w).
    congruence.
Qed.

Lemma join_keeps_suffix (a name suf : string) :
  Py.contains suf "/" = false ->
  Py.endswith name suf = false ->
  Py.endswith (OsPath.join a name) suf = false.
Proof.
  intros C N. unfold OsPath.join.
  destruct (Py.startswith name "/"); [exact N|].
  destruct (is_empty a || Py.endswith a "/") eqn:E.
  - apply orb_true_iff in E. destruct E as [E|E].
    + destruct a; [exact N | discriminate E].
    + apply endswith_spec in E. destruct E as [u ->].
      rewrite append_assoc. now apply endswith_after_slash.
  - now apply endswith_after_slash.
Qed.

Section StaticFilesFacts.
Context {O : Os}.

(** The copies of one walk, for the suffix [suf] that is left out and
    the directory [root] the walk starts from. *)
Lemma copies_spec (suf root out : string) (walked : list walk_entry)
    (source_path output_path : string) :
  In (source_path, output_path)
    (flat_map
       (fun '(source_dir, dirnames, filenames) =>
          let relative_path := relpath source_dir root in
          let output_dir := normpath (OsPath.join out relative_path) in
          flat_map
            (fun filename =>
               if negb (Py.endswith filename suf) then
                 let source_path := OsPath.join source_dir filename in
                 let output_path := OsPath.join output_dir filename in
                 [(source_path, output_path)]
               else [])
            filenames)
       walked)
  <-> exists source_dir dirnames filenames filename,
        In (source_dir, dirnames, filenames) walked
        /\ In filename filenames
        /\ Py.endswith filename suf = false
        /\ source_path = OsPath.join source_dir filename
        /\ output_path
           = OsPath.join
               (normpath (OsPath.join out (relpath source_dir root)))
               filename.
Proof.
  rewrite in_flat_map. split.
  - intros ([[source_dir dirnames] filenames] & W & H).
    cbn zeta in H. apply in_flat_map in H. destruct H as (filename & F & H).
    destruct (Py.endswith filename suf) eqn:E; [destruct H|].
    destruct H as [[= <- <-]|[]].
    now exists source_dir, dirnames, filenames, filename.
  - intros (source_dir & dirnames & filenames & filename & W & F & E & -> & ->).
    exists (source_dir, dirnames, filenames). split; [exact W|].
    cbn zeta. apply in_flat_map. exists filename. split; [exact F|].
    rewrite E. now left.
Qed.

(** X20: build_theme copies no template: whatever the walk of the theme
    directory yields, no copy_file call has a source path or an output
    path that ends in .html. *)
Theorem build_theme_copies_no_template (config : Config)
    (walked : list walk_entry) (source_path output_path : string) :
  In (source_path, output_path) (build_theme config walked) ->
  Py.endswith source_path ".html" = false
  /\ Py.endswith output_path ".html" = false.
Proof.
  unfold build_theme. intros H. apply copies_spec in H.
  destruct H as (d & ds & fs & f & _ & _ & E & -> & ->).
  split; now apply join_keeps_suffix.
Qed.

(** X21: build_statics copies no Markdown source: whatever the walk of
    the documentation directory yields, no copy_file call has a source
    path or an output path that ends in .md. *)
Theorem build_statics_copies_no_markdown (config : Config)
    (walked : list walk_entry) (source_path output_path : string) :
  In (source_path, output_path) (build_statics config walked) ->
  Py.endswith source_path ".md" = false
  /\ Py.endswith output_path ".md" = false.
Proof.
  unfold build_statics. intros H. apply copies_spec in H.
  destruct H as (d & ds & fs & f & _ & _ & E & -> & ->).
  split; now apply join_keeps_suffix.
Qed.

End StaticFilesFacts.

(** ** Titles of the navigation items *)

Lemma entries_of_app (h : Heap) (l1 l2 : list addr) :
  entries_of h (l1 ++ l2) = (entries_of h l1 ++ entries_of h l2)%list.
Proof. apply flat_map_app. Qed.

Lemma entries_of_ext (h h' : Heap) (l : list addr) :
  (forall a, In a l -> NavItem.url (cell h' a) = NavItem.url (cell h a)
                       /\ NavItem.title (cell h' a) = NavItem.title (cell h a)) ->
  entries_of h' l = entries_of h l.
Proof.
  induction l as [|a l IH]; intros H; [reflexivity|].
  cbn [entries_of flat_map]. fold (entries_of h' l). fold (entries_of h l).
  destruct (H a (or_introl eq_refl)) as [-> ->].
  rewrite IH; [reflexivity|]. intros b Hb. apply H. now right.
Qed.

Lemma entries_of_shape (h h' : Heap) (l : list addr) :
  same_shape h h' -> entries_of h' l = entries_of h l.
Proof.
  intros [_ S]. apply entries_of_ext. intros a _.
  destruct (S a) as (T & Uu & _). now split.
Qed.

Section TitleFacts.
Context {U : Utils}.

Lemma generate_nav_step_entries (config : Config) (ret : list addr)
    (h : Heap) (path title : string) (ret' : list addr) (h' : Heap) :
  nav_wf h ret ->
  generate_nav_step config (ret, h) (path, title) = (ret', h') ->
  entries_of h' (nav_nodes h' ret')
  = (entries_of h (nav_nodes h ret)
     ++ [(path_to_url path config, listed_title title)])%list.
Proof.
  intros [Hnd Hlt] Hs. rewrite generate_nav_step_eq in Hs. cbv zeta in Hs.
  unfold listed_title.
  destruct (Py.partition title "/") as [[t0 s0] c0]. cbn [fst snd] in Hs.
  set (u := path_to_url path config) in *.
  set (pt := Py.strip t0) in *.
  set (ct := Py.strip c0) in *.
  assert (Old : forall o x, In x (nav_nodes h ret) ->
                            cell (snd (alloc o h)) x = cell h x).
  { intros o x Hx. rewrite cell_alloc.
    replace (addr_eqb x (next h)) with false; [reflexivity|].
    symmetry. apply addr_eqb_neq. specialize (Hlt x Hx). lia. }
  assert (Group :
    is_empty ct = false ->
    entries_of (snd (alloc (NavItem.mk pt None [next h] false)
                      (snd (alloc (NavItem.mk ct (Some u) [] false) h))))
         (nav_nodes (snd (alloc (NavItem.mk pt None [next h] false)
                      (snd (alloc (NavItem.mk ct (Some u) [] false) h))))
                    (ret ++ [S (next h)]))
       = (entries_of h (nav_nodes h ret)
          ++ [(u, if is_empty ct then pt else ct)])%list).
  { intros E. rewrite E.
    set (h1 := snd (alloc (NavItem.mk ct (Some u) [] false) h)).
    set (h2 := snd (alloc (NavItem.mk pt None [next h] false) h1)).
    assert (Old2 : forall x, In x (nav_nodes h ret) -> cell h2 x = cell h x).
    { intros x Hx. subst h2. rewrite cell_alloc.
      replace (addr_eqb x (next h1)) with false; [now apply Old|].
      symmetry. apply addr_eqb_neq. specialize (Hlt x Hx).
      subst h1. rewrite next_alloc. lia. }
    assert (N : nav_nodes h2 (ret ++ [S (next h)])
                = (nav_nodes h ret ++ [S (next h); next h])%list).
    { rewrite nav_nodes_app. f_equal.
      - apply nav_nodes_ext. intros a Ha.
        now rewrite (Old2 a (in_nav_nodes_top _ _ _ Ha)).
      - cbn [nav_nodes flat_map]. subst h2 h1. read_cells. reflexivity. }
    rewrite N, entries_of_app. f_equal.
    - apply entries_of_ext. intros a Ha. now rewrite (Old2 a Ha).
    - cbn [entries_of flat_map]. subst h2 h1. read_cells. reflexivity. }
  destruct (is_empty ct) eqn:Ect.
  - (* New top level nav item *)
    apply pair_equal_spec in Hs; destruct Hs as [<- <-].
    set (h1 := snd (alloc (NavItem.mk pt (Some u) [] false) h)).
    assert (N : nav_nodes h1 (ret ++ [next h])
                = (nav_nodes h ret ++ [next h])%list).
    { rewrite nav_nodes_app. f_equal.
      - apply nav_nodes_ext. intros a Ha. subst h1.
        now rewrite (Old _ a (in_nav_nodes_top _ _ _ Ha)).
      - cbn [nav_nodes flat_map]. subst h1. read_cells. reflexivity. }
    rewrite N, entries_of_app. f_equal.
    + apply entries_of_ext. intros a Ha. subst h1. now rewrite (Old _ a Ha).
    + cbn [entries_of flat_map]. subst h1. read_cells. reflexivity.
  - destruct (last_item ret) as [l|] eqn:Hl.
    2:{ apply pair_equal_spec in Hs; destruct Hs as [<- <-].
        exact (Group eq_refl). }
    destruct (String.eqb (NavItem.title (cell h l)) pt).
    2:{ apply pair_equal_spec in Hs; destruct Hs as [<- <-].
        exact (Group eq_refl). }
    (* Additional second level nav item *)
    apply pair_equal_spec in Hs; destruct Hs as [<- <-].
    apply last_item_some in Hl. destruct Hl as [ret0 ->].
    set (h1 := snd (alloc (NavItem.mk ct (Some u) [] false) h)).
    set (h2 := update h1 l (NavItem.append_child (next h))).
    assert (M : nav_nodes h (ret0 ++ [l])
                = (nav_nodes h ret0 ++ l :: NavItem.children (cell h l))%list).
    { rewrite nav_nodes_app. cbn [nav_nodes flat_map]. now rewrite app_nil_r. }
    rewrite M in Hnd, Hlt.
    destruct (NoDup_app_inv _ _ Hnd) as (_ & _ & Hdisj).
    assert (Hln : l < next h)
      by (apply Hlt, in_or_app; right; now left).
    assert (Cl : cell h2 l = NavItem.append_child (next h) (cell h l)).
    { subst h2 h1. rewrite cell_update, addr_eqb_refl, cell_alloc.
      replace (addr_eqb l (next h)) with false; [reflexivity|].
      symmetry. apply addr_eqb_neq. lia. }
    assert (Oth : forall x, x < next h -> x <> l -> cell h2 x = cell h x).
    { intros x Hx Hxl. subst h2 h1. rewrite cell_update.
      replace (addr_eqb x l) with false
        by (symmetry; apply addr_eqb_neq; exact Hxl).
      rewrite cell_alloc.
      replace (addr_eqb x (next h)) with false; [reflexivity|].
      symmetry. apply addr_eqb_neq. lia. }
    assert (N : nav_nodes h2 (ret0 ++ [l])
                = ((nav_nodes h ret0 ++ l :: NavItem.children (cell h l))
                   ++ [next h])%list).
    { rewrite nav_nodes_app. rewrite <- app_assoc. f_equal.
      - apply nav_nodes_ext. intros a Ha. rewrite Oth; [reflexivity| |].
        + apply Hlt, in_or_app. left. now apply in_nav_nodes_top.
        + intros ->. apply (Hdisj l); [now apply in_nav_nodes_top | now left].
      - cbn [nav_nodes flat_map]. rewrite Cl, app_nil_r. reflexivity. }
    rewrite N, M, entries_of_app. f_equal.
    + apply entries_of_ext. intros a Ha.
      destruct (Nat.eq_dec a l) as [->|Hal].
      * now rewrite Cl.
      * rewrite Oth; [now split | now apply Hlt | exact Hal].
    + cbn [entries_of flat_map]. subst h2 h1. rewrite cell_update.
      replace (addr_eqb (next h) l) with false
        by (symmetry; apply addr_eqb_neq; lia).
      now rewrite cell_alloc, addr_eqb_refl.
Qed.

Lemma generate_nav_loop_entries (config : Config)
    (ps : list (string * string)) :
  forall (ret : list addr) (h : Heap) (ret' : list addr) (h' : Heap),
  nav_wf h ret ->
  fold_left (generate_nav_step config) ps (ret, h) = (ret', h') ->
  entries_of h' (nav_nodes h' ret')
  = (entries_of h (nav_nodes h ret)
     ++ map (fun p => (path_to_url (fst p) config, listed_title (snd p))) ps)%list.
Proof.
  induction ps as [|[path title] ps IH]; intros ret h ret' h' W F.
  - cbn in F. apply pair_equal_spec in F. destruct F as [<- <-].
    cbn [map]. now rewrite app_nil_r.
  - cbn [fold_left] in F.
    destruct (generate_nav_step config (ret, h) (path, title))
      as [ret1 h1] eqn:S.
    destruct (generate_nav_step_wf _ _ _ _ _ _ _ W S) as [W1 _].
    rewrite (IH _ _ _ _ W1 F), (generate_nav_step_entries _ _ _ _ _ _ _ W S).
    cbn [map fst snd]. now rewrite <- app_assoc.
Qed.

Lemma generate_nav_entries (config : Config) (h : Heap) (nav : list addr)
    (h0 : Heap) :
  generate_nav config h = (nav, h0) ->
  entries_of h0 (nav_nodes h0 nav)
  = map (fun p => (path_to_url (fst p) config, listed_title (snd p)))
      (pages config).
Proof.
  intros G. unfold generate_nav in G.
  apply (generate_nav_loop_entries _ _ [] h nav h0); [|exact G].
  split; [constructor | intros x []].
Qed.

(** The last item of [l] that carries the URL [u] is the item of the
    last entry with that URL. *)
Lemma last_match_entry (h : Heap) (u t : string) (l : list addr) :
  forall E1 E2,
  entries_of h l = (E1 ++ (u, t) :: E2)%list ->
  (forall e, In e E2 -> fst e <> u) ->
  exists x,
    last_item (filter (matches h u) l) = Some x
    /\ NavItem.title (cell h x) = t.
Proof.
  induction l as [|a l IH]; intros E1 E2 E N.
  - destruct E1; discriminate E.
  - cbn [entries_of flat_map] in E. fold (entries_of h l) in E.
    cbn [filter]. unfold matches at 1.
    destruct (NavItem.url (cell h a)) as [ua|] eqn:Ua; cbn [url_eq].
    + destruct E1 as [|e E1]; cbn [app] in E.
      * injection E as -> Ht E. rewrite String.eqb_refl.
        assert (F : filter (matches h u) l = []).
        { apply filter_none. intros x Hx.
          destruct (matches h u x) eqn:M; [|reflexivity].
          apply url_eq_spec in M. exfalso.
          apply (N (u, NavItem.title (cell h x))); [|reflexivity].
          rewrite <- E. unfold entries_of. apply in_flat_map.
          exists x. split; [exact Hx|]. rewrite M. now left. }
        rewrite F. exists a. now split.
      * injection E as _ E. destruct (IH _ _ E N) as (x & L & T).
        exists x. split; [|exact T].
        destruct (String.eqb ua u); [|exact L].
        now rewrite last_item_cons, L.
    + destruct (IH _ _ E N) as (x & L & T). exists x. now split.
Qed.

(** X22: generate_nav lists every page once, in the declared order, with
    its URL and its title: the items that have a URL, read top-level item
    first and then its children, carry the URLs of config.pages and, as
    title, the stripped part after the first slash of the declared title
    when it is not empty, the stripped part before the slash otherwise. *)
Theorem generate_nav_lists_pages_with_titles (config : Config) (h : Heap)
    (nav : list addr) (h0 : Heap) :
  generate_nav config h = (nav, h0) ->
  entries_of h0 (nav_nodes h0 nav)
  = map (fun p => (path_to_url (fst p) config, listed_title (snd p)))
      (pages config).
Proof. apply generate_nav_entries. Qed.

(** X23: set_nav_active returns the item of the last page whose URL is
    the URL of the path: on the tree of generate_nav, after any earlier
    calls, the returned item exists and carries the listed title of that
    page; for a page whose URL no later page shares it is the title of
    the page itself. *)
Theorem set_nav_active_returns_titled_item (config : Config) (h : Heap)
    (nav : list addr) (h0 : Heap) (earlier : list string)
    (before after : list (string * string)) (path page title : string) :
  generate_nav config h = (nav, h0) ->
  pages config = (before ++ (page, title) :: after)%list ->
  path_to_url page config = path_to_url path config ->
  (forall p, In p after ->
     path_to_url (fst p) config <> path_to_url path config) ->
  exists item h2,
    set_nav_active path config nav (after_calls config nav earlier h0)
    = (Some item, h2)
    /\ NavItem.title (cell h2 item) = listed_title title
    /\ NavItem.url (cell h2 item) = Some (path_to_url path config).
Proof.
  intros G P Eu N.
  destruct (set_nav_active path config nav (after_calls config nav earlier h0))
    as [active h2] eqn:S.
  destruct (set_nav_active_result _ _ _ _ _ _ _ _ G S) as (Sh & _ & _ & _ & _ & L).
  cbv zeta in L. unfold last_match in L.
  pose proof (generate_nav_entries _ _ _ _ G) as E.
  rewrite <- (entries_of_shape _ _ _ Sh), <- (nav_nodes_shape _ _ _ Sh) in E.
  rewrite P, map_app in E. cbn [map fst snd] in E. rewrite Eu in E.
  destruct (last_match_entry h2 _ _ _ _ _ E) as (x & Lx & T).
  { intros e He. apply in_map_iff in He. destruct He as (p & <- & Hp).
    cbn [fst]. now apply N. }
  rewrite Lx in L. subst active. exists x, h2.
  split; [reflexivity|]. split; [exact T|].
  apply last_filter_split in Lx. destruct Lx as [M _].
  now apply url_eq_spec.
Qed.

End TitleFacts.

(** ** Closed instances *)

(** X2 at the guide directory of [example_config]. *)
Lemma index_page_gets_directory_url_witness :
  path_to_url (U := spec_utils) "guide/index.md" example_config
  = "http://example.com/guide/".
Proof.
  exact (index_page_gets_directory_url (U := spec_utils) example_config
           "guide" eq_refl).
Defined.

(** X3 at the page guide.md of [example_config]. *)
Lemma page_shares_url_with_its_index_page_witness :
  path_to_url (U := spec_utils) "guide.md" example_config
  = "http://example.com/guide/"
  /\ path_to_url (U := spec_utils) "guide.md" example_config
     = path_to_url (U := spec_utils) "guide/index.md" example_config.
Proof.
  apply (page_shares_url_with_its_index_page (U := spec_utils) example_config
           "guide");
    solve [reflexivity | discriminate].
Defined.

(** X4 at the second page of [example_config]. *)
Lemma prev_next_of_first_occurrence_witness :
  path_to_previous_and_next_urls (U := spec_utils) "guide/install.md"
    example_config
  = Ok (Some (path_to_url (U := spec_utils) "index.md" example_config),
        Some (path_to_url (U := spec_utils) "guide/run.md" example_config)).
Proof.
  apply (prev_next_of_first_occurrence (U := spec_utils) example_config
           [("index.md", "Home")]
           [("guide/run.md", "Guide/Run"); ("about.md", "About")]
           "guide/install.md" "Guide/Install").
  - reflexivity.
  - cbn. intuition discriminate.
Defined.

(** X5, X6 and X7 on the tree of [guide_config]. *)
Lemma generate_nav_lists_pages_in_order_witness :
  urls_of guide_heap (nav_nodes guide_heap guide_nav)
  = map (fun p => path_to_url (U := spec_utils) (fst p) guide_config)
      (pages guide_config)
  /\ NoDup (nav_nodes guide_heap guide_nav)
  /\ List.length guide_nav <= List.length (pages guide_config).
Proof.
  exact (generate_nav_lists_pages_in_order (U := spec_utils) guide_config
           empty_heap guide_nav guide_heap eq_refl).
Defined.

Lemma generate_nav_builds_two_levels_witness :
  (forall item child,
     In item guide_nav -> In child (NavItem.children (cell guide_heap item)) ->
     NavItem.children (cell guide_heap child) = []
     /\ exists u, NavItem.url (cell guide_heap child) = Some u)
  /\ (forall item,
        In item guide_nav -> NavItem.url (cell guide_heap item) = None ->
        NavItem.children (cell guide_heap item) <> []).
Proof.
  exact (generate_nav_builds_two_levels (U := spec_utils) guide_config
           empty_heap guide_nav guide_heap eq_refl).
Defined.

Lemma generate_nav_allocates_inactive_items_witness :
  (forall x, x < next empty_heap -> cell guide_heap x = cell empty_heap x)
  /\ (forall x, In x (nav_nodes guide_heap guide_nav) ->
        next empty_heap <= x < next guide_heap
        /\ NavItem.active (cell guide_heap x) = false)
  /\ next empty_heap + List.length (pages guide_config) <= next guide_heap
     <= next empty_heap + 2 * List.length (pages guide_config).
Proof.
  exact (generate_nav_allocates_inactive_items (U := spec_utils) guide_config
           empty_heap guide_nav guide_heap eq_refl).
Defined.

(** X8, X10 and X11 for the page c.md of [guide_config], rendered after
    a.md and d.md. *)
Lemma set_nav_active_forgets_earlier_calls_witness :
  let r1 := set_nav_active (U := spec_utils) "c.md" guide_config guide_nav
              guide_heap in
  let r2 := set_nav_active (U := spec_utils) "c.md" guide_config guide_nav
              guide_heap_visited in
  fst r2 = fst r1 /\ forall x, cell (snd r2) x = cell (snd r1) x.
Proof.
  exact (set_nav_active_forgets_earlier_calls (U := spec_utils) guide_config
           empty_heap guide_nav guide_heap ["a.md"; "d.md"] "c.md" _ _ _ _
           eq_refl (surjective_pairing _) (surjective_pairing _)).
Defined.

Lemma set_nav_active_touches_only_the_tree_witness :
  let r := set_nav_active (U := spec_utils) "c.md" guide_config guide_nav
             guide_heap_visited in
  next (snd r) = next guide_heap
  /\ (forall x, ~ In x (nav_nodes guide_heap guide_nav) ->
        cell (snd r) x = cell guide_heap x)
  /\ (forall x, x < next empty_heap -> cell (snd r) x = cell empty_heap x).
Proof.
  exact (set_nav_active_touches_only_the_tree (U := spec_utils) guide_config
           empty_heap guide_nav guide_heap ["a.md"; "d.md"] "c.md" _ _
           eq_refl (surjective_pairing _)).
Defined.

Lemma set_nav_active_returns_last_match_witness :
  let r := set_nav_active (U := spec_utils) "c.md" guide_config guide_nav
             guide_heap_visited in
  let url := path_to_url (U := spec_utils) "c.md" guide_config in
  NavItem.url (cell (snd r) 3) = Some url
  /\ (exists before after,
        nav_nodes (snd r) guide_nav = (before ++ 3 :: after)%list
        /\ forall y, In y after -> NavItem.url (cell (snd r) y) <> Some url)
  /\ (forall x, In x (nav_nodes (snd r) guide_nav) ->
        NavItem.url (cell (snd r) x) = Some url ->
        NavItem.active (cell (snd r) x) = true).
Proof.
  apply (set_nav_active_returns_last_match (U := spec_utils) guide_config
           empty_heap guide_nav guide_heap ["a.md"; "d.md"] "c.md" 3).
  - reflexivity.
  - vm_compute. reflexivity.
Defined.

(** X9 for a path that is no page of [guide_config]. *)
Lemma set_nav_active_of_unknown_page_witness :
  let r := set_nav_active (U := spec_utils) "missing.md" guide_config
             guide_nav guide_heap_visited in
  fst r = None
  /\ forall x, In x (nav_nodes (snd r) guide_nav) ->
       NavItem.active (cell (snd r) x) = false.
Proof.
  apply (set_nav_active_of_unknown_page (U := spec_utils) guide_config
           empty_heap guide_nav guide_heap ["a.md"; "d.md"] "missing.md").
  - reflexivity.
  - vm_compute. intuition discriminate.
  - apply surjective_pairing.
Defined.

(** X12 on a table of contents without entry. *)
Lemma generate_toc_of_short_fragment_witness :
  generate_toc empty_toc_html empty_heap = Ok ([], empty_heap).
Proof.
  apply (generate_toc_of_short_fragment empty_toc_html empty_heap).
  vm_compute. lia.
Defined.

(** X13 and X14 on a table of contents with two entries. *)
Lemma generate_toc_leaves_the_store_witness :
  let r := returned (generate_toc flat_toc_html empty_heap) ([], empty_heap) in
  (forall x, x < next empty_heap -> cell (snd r) x = cell empty_heap x)
  /\ (forall a, In a (fst r) -> next empty_heap <= a < next (snd r))
  /\ (forall first rest, fst r = first :: rest ->
        NavItem.active (cell (snd r) first) = true).
Proof.
  apply (generate_toc_leaves_the_store flat_toc_html empty_heap).
  vm_compute. reflexivity.
Defined.

Lemma generate_toc_reads_flat_list_witness :
  exists h',
    generate_toc flat_toc_html empty_heap = Ok ([0; 1], h')
    /\ (forall i entry, nth_error flat_toc_entries i = Some entry ->
          cell h' (next empty_heap + i)
          = NavItem.mk (snd entry) (Some (fst entry)) [] (i =? 0))
    /\ (forall x, x < next empty_heap -> cell h' x = cell empty_heap x).
Proof.
  exact (generate_toc_reads_flat_list
           "" ("<div class=" ++ String Py.dquote ("toc" ++ String Py.dquote ">"))
           "</ul>" "</div>" flat_toc_entries empty_heap
           eq_refl eq_refl eq_refl eq_refl eq_refl).
Defined.

(** X18 on a content that holds the marker twice. *)
Lemma split_toc_at_first_marker_witness :
  let content := "<p>a</p>" ++ TOC_MARKER ++ "<p>b</p>" ++ TOC_MARKER ++ "toc" in
  content = "<p>a</p>" ++ TOC_MARKER ++ "<p>b</p>" ++ TOC_MARKER ++ "toc"
  /\ (forall a b, content = a ++ TOC_MARKER ++ b ->
        String.length "<p>a</p>" <= String.length a).
Proof.
  exact (split_toc_at_first_marker
           ("<p>a</p>" ++ TOC_MARKER ++ "<p>b</p>" ++ TOC_MARKER ++ "toc")
           "<p>a</p>" ("<p>b</p>" ++ TOC_MARKER ++ "toc") eq_refl).
Defined.

(** X20 and X21 on the walks of the theme and of the documentation of
    [example_config]. *)
Lemma build_theme_copies_no_template_witness :
  In ("theme/css/style.css", "site/css/style.css")
    (build_theme (O := example_os) example_config theme_walk)
  /\ Py.endswith "theme/css/style.css" ".html" = false
  /\ Py.endswith "site/css/style.css" ".html" = false.
Proof.
  assert (H : In ("theme/css/style.css", "site/css/style.css")
                (build_theme (O := example_os) example_config theme_walk))
    by (vm_compute; tauto).
  split; [exact H|].
  exact (build_theme_copies_no_template (O := example_os) example_config
           theme_walk "theme/css/style.css" "site/css/style.css" H).
Defined.

Lemma build_statics_copies_no_markdown_witness :
  In ("docs/logo.png", "site/logo.png")
    (build_statics (O := example_os) example_config docs_walk)
  /\ Py.endswith "docs/logo.png" ".md" = false
  /\ Py.endswith "site/logo.png" ".md" = false.
Proof.
  assert (H : In ("docs/logo.png", "site/logo.png")
                (build_statics (O := example_os) example_config docs_walk))
    by (vm_compute; tauto).
  split; [exact H|].
  exact (build_statics_copies_no_markdown (O := example_os) example_config
           docs_walk "docs/logo.png" "site/logo.png" H).
Defined.

(** X22 on the tree of [guide_config]. *)
Lemma generate_nav_lists_pages_with_titles_witness :
  entries_of guide_heap (nav_nodes guide_heap guide_nav)
  = [("http://example.com/a/", "Intro"); ("http://example.com/b/", "Setup");
     ("http://example.com/c/", "Run"); ("http://example.com/d/", "Setup")].
Proof.
  exact (generate_nav_lists_pages_with_titles (U := spec_utils) guide_config
           empty_heap guide_nav guide_heap eq_refl).
Defined.

(** X23 for the page c.md of [guide_config], rendered after a.md and
    d.md. *)
Lemma set_nav_active_returns_titled_item_witness :
  exists item h2,
    set_nav_active (U := spec_utils) "c.md" guide_config guide_nav
      guide_heap_visited = (Some item, h2)
    /\ NavItem.title (cell h2 item) = "Run"
    /\ NavItem.url (cell h2 item) = Some "http://example.com/c/".
Proof.
  apply (set_nav_active_returns_titled_item (U := spec_utils) guide_config
           empty_heap guide_nav guide_heap ["a.md"; "d.md"]
           [("a.md", "Intro"); ("b.md", "Guide/Setup")]
           [("d.md", "Guide/Setup")] "c.md" "c.md" "Guide/Run").
  - reflexivity.
  - reflexivity.
  - reflexivity.
  - intros p [<-|[]]. vm_compute. discriminate.
Defined.
